(** * Shallow embedding of the GA-JGHO travelling-salesman engine

    Tours are lists of city indices ([nat]).  Tour lengths and distance
    matrix entries are exact integers ([Z]); fitness values handed to the
    roulette wheel and the values of [Math.random()] are rationals ([Q]).
    Every use of [Math.random()] is an explicit argument of the model, so
    each operator is a deterministic function of its random draws. *)

From Stdlib Require Import List Arith Lia ZArith QArith Qround Qpower Permutation Bool.
From Stdlib Require Import Reals.
Import ListNotations.

Open Scope nat_scope.

(** ** Common data model (src/src/types/algorithm.ts) *)

Record Chromosome := mkChromosome {
  genes : list nat;
  fitness : Z;
  distance : Z
}.

(** [distanceMatrix[a][b]] *)
Definition DistanceMatrix := nat -> nat -> Z.

(** A JavaScript exception raised while evaluating the code. *)
Inductive JsError := TypeError.

Inductive Result (A : Type) :=
| Ok (a : A)
| Throw (e : JsError).
Arguments Ok {A} a.
Arguments Throw {A} e.

(** [Math.floor(r * k)] for a random draw [r]. *)
Definition floor_mul (r : Q) (k : nat) : Z :=
  Qfloor (r * inject_Z (Z.of_nat k)).

(** [Array.prototype.includes] / [Set.prototype.has] on numbers. *)
Definition mem (x : nat) (l : list nat) : bool := existsb (Nat.eqb x) l.

(** Relative index of [Array.prototype.slice]: negative indices count from
    the end, and the result is clamped to [0, len]. *)
Definition js_rel (len : nat) (k : Z) : nat :=
  if (k <? 0)%Z then Z.to_nat (Z.max 0 (Z.of_nat len + k))
  else Nat.min len (Z.to_nat k).

(** [l.slice(0, k)] *)
Definition js_slice_to {A} (l : list A) (k : Z) : list A :=
  firstn (js_rel (length l) k) l.

(** [l.slice(k)] *)
Definition js_slice_from {A} (l : list A) (k : Z) : list A :=
  skipn (js_rel (length l) k) l.

(** [calculateDistanceWithMatrix] (crossover.ts) and
    [calculateTotalDistanceWithMatrix] (utils/distance.ts): the cyclic
    length, summed over positions [i] from [0] to [n-1]. *)
Definition calculateDistanceWithMatrix (gs : list nat) (dm : DistanceMatrix) : Z :=
  let n := length gs in
  fold_left (fun acc i => Z.add acc (dm (nth i gs 0) (nth ((i + 1) mod n) gs 0)))
            (seq 0 n) 0%Z.

(** Insertion into a list sorted by [distance], after the elements of
    smaller distance and before those of equal or larger distance. *)
Fixpoint insertByDistance (c : Chromosome) (l : list Chromosome) : list Chromosome :=
  match l with
  | [] => [c]
  | h :: t => if (distance c <=? distance h)%Z then c :: l else h :: insertByDistance c t
  end.

(** [[...l].sort((a, b) => a.distance - b.distance)]: a stable sort by
    [distance]. *)
Fixpoint sortByDistance (l : list Chromosome) : list Chromosome :=
  match l with
  | [] => []
  | c :: t => insertByDistance c (sortByDistance t)
  end.

(** [AlgorithmParams], the two fields the elitism and the population
    size depend on. *)
Record AlgorithmParams := mkAlgorithmParams {
  populationSize : nat;
  eliteCount : nat
}.

(** [new Set(population.map(c => c.genes.join(','))).size]: [join(',')] of
    lists of naturals is injective, so the keys are the gene lists. *)
Definition uniqueRouteCount (population : list Chromosome) : nat :=
  length (nodup (list_eq_dec Nat.eq_dec) (map genes population)).

(** [a / n] on numbers, [None] standing for [NaN] ([0 / 0] here). *)
Definition divideByCount (a : Q) (n : nat) : option Q :=
  if Nat.eqb n 0 then None else Some (a / inject_Z (Z.of_nat n))%Q.

(** [Population] snapshots; [None] is an [undefined] read or [NaN]. *)
Module Population.
Record t := mk {
  chromosomes : list Chromosome;
  generation : nat;
  best : option Chromosome;
  worst : option Chromosome;
  average : option Q;
  diversity : option Q
}.
End Population.

(** [GenerationStats] without [elapsedTime] (a clock reading). *)
Module GenerationStats.
Record t := mk {
  generation : nat;
  bestDistance : Z;
  averageDistance : option Q;
  worstDistance : Z;
  diversity : option Q
}.
End GenerationStats.

(** ** Bidirectional heuristic crossover (src/src/algorithms/crossover.ts) *)
Module Crossover.

Inductive Direction := Clockwise | Counterclockwise.

(** [genes.indexOf(x)]: [-1] when absent. *)
Fixpoint indexOf (l : list nat) (x : nat) : Z :=
  match l with
  | [] => (-1)%Z
  | y :: t =>
      if Nat.eqb y x then 0%Z
      else let p := indexOf t x in if (p <? 0)%Z then (-1)%Z else (p + 1)%Z
  end.

(** [findNeighbors]: the successor or predecessor of [cityId] in the tour.
    The index is [(pos + 1) % n] or [(pos - 1 + n) % n] (JavaScript [%] is
    [Z.rem]); for a non-empty tour it always lies in [0, n), so the read
    [genes[...]] is defined; only an empty tour reads [undefined], which the
    model leaves out of the neighbour list. *)
Definition findNeighbors (cityId : nat) (gs : list nat) (dir : Direction) : list nat :=
  let n := Z.of_nat (length gs) in
  let pos := indexOf gs cityId in
  let idx := match dir with
             | Clockwise => Z.rem (pos + 1) n
             | Counterclockwise => Z.rem (pos - 1 + n) n
             end in
  match nth_error gs (Z.to_nat idx) with
  | Some c => [c]
  | None => []
  end.

(** [findNearestCity]: first candidate of minimal distance.  Callers pass
    a non-empty list. *)
Definition findNearestCity (fromCity : nat) (cands : list nat) (dm : DistanceMatrix) : nat :=
  match cands with
  | [] => 0
  | c0 :: _ =>
      fst (fold_left (fun (acc : nat * Z) c =>
                        let d := dm fromCity c in
                        if (d <? snd acc)%Z then (c, d) else acc)
                     cands (c0, dm fromCity c0))
  end.

(** The [while (offspring.length < n)] loop.  Each iteration pushes one
    city (the [break] never fires while fewer than [n] distinct cities of
    [0..n-1] are placed), so [n] rounds of fuel suffice. *)
Fixpoint bhx_loop (fuel n : nat) (p1 p2 : list nat) (dm : DistanceMatrix)
         (dir : Direction) (cur : nat) (visited offspring : list nat) : list nat :=
  match fuel with
  | O => offspring
  | S fuel' =>
      if length offspring <? n then
        let allNeighbors := findNeighbors cur p1 dir ++ findNeighbors cur p2 dir in
        let unvisited := filter (fun c => negb (mem c visited)) allNeighbors in
        match unvisited with
        | [] =>
            let remaining := filter (fun c => negb (mem c visited)) (seq 0 n) in
            match remaining with
            | [] => offspring
            | _ =>
                let nx := findNearestCity cur remaining dm in
                bhx_loop fuel' n p1 p2 dm dir nx (nx :: visited) (offspring ++ [nx])
            end
        | _ =>
            let nx := findNearestCity cur unvisited dm in
            bhx_loop fuel' n p1 p2 dm dir nx (nx :: visited) (offspring ++ [nx])
        end
      else offspring
  end.

(** [bidirectionalHeuristicCrossover parent1 parent2 distanceMatrix]
    with its two draws: [r_dir] picks the direction, [r_start] the start
    position [Math.floor(Math.random() * n)].  For [n = 0] the start city
    [parent1.genes[0]] is [undefined], the offspring is [[undefined]], and
    [distanceMatrix[undefined][undefined]] throws a [TypeError]. *)
Definition bidirectionalHeuristicCrossover (parent1 parent2 : Chromosome)
           (dm : DistanceMatrix) (r_dir r_start : Q) : Result Chromosome :=
  let n := length (genes parent1) in
  let dir := if Qle_bool (1#2) r_dir then Counterclockwise else Clockwise in
  match nth_error (genes parent1) (Z.to_nat (floor_mul r_start n)) with
  | None => Throw TypeError
  | Some start =>
      let offspring := bhx_loop n n (genes parent1) (genes parent2) dm dir
                                start [start] [start] in
      let d := calculateDistanceWithMatrix offspring dm in
      Ok (mkChromosome offspring d d)
  end.

End Crossover.

(** ** Jumping gene operator (src/src/algorithms/jumpingGene.ts) *)
Module JumpingGene.

(** The [for] loop that sends [genes[i]] to [extractedGenes] when
    [mask[i] === 1] and to [remainingGenes] otherwise. *)
Fixpoint split_by_mask (mask : list nat) (gs : list nat) : list nat * list nat :=
  match mask, gs with
  | m :: ms, g :: gt =>
      let '(ex, re) := split_by_mask ms gt in
      if Nat.eqb m 1 then (g :: ex, re) else (ex, g :: re)
  | _, _ => ([], [])
  end.

(** [jumpingGeneOperator chromosome PJG q] with its draws: [r_apply]
    (compared with [PJG]), [r_mask i] (the draw for [mask[i]]) and
    [r_insert] (the insertion position). *)
Definition jumpingGeneOperator (chromosome : Chromosome) (PJG : Q) (q : Z)
           (r_apply : Q) (r_mask : nat -> Q) (r_insert : Q) : Chromosome :=
  if negb (Qle_bool r_apply PJG) then chromosome
  else
    let n := length (genes chromosome) in
    let gs := genes chromosome in
    let mask := map (fun i => if Qle_bool (1#2) (r_mask i) then 0 else 1) (seq 0 n) in
    let '(extractedGenes, remainingGenes) := split_by_mask mask gs in
    let segmentLength := Z.min q (Z.of_nat (length extractedGenes)) in
    let segment := js_slice_to extractedGenes segmentLength in
    let leftoverExtracted := js_slice_from extractedGenes segmentLength in
    let finalRemaining :=
      filter (fun g => negb (mem g segment)) remainingGenes ++ leftoverExtracted in
    let insertPos := floor_mul r_insert (length finalRemaining + 1) in
    let newGenes := js_slice_to finalRemaining insertPos ++ segment
                    ++ js_slice_from finalRemaining insertPos in
    mkChromosome newGenes 0%Z 0%Z.

End JumpingGene.

(** ** Distance matrix (src/unnamed/part_000, utils/distance.ts)

    Coordinates and distances are real numbers here, so that the entries
    can be compared with the Euclidean distance itself. *)
Module Distance.

Local Open Scope R_scope.

Record City := mkCity { id : nat; x : R; y : R }.

Definition noCity : City := mkCity 0 0 0.

(** [calculateDistance] *)
Definition calculateDistance (city1 city2 : City) : R :=
  let dx := x city1 - x city2 in
  let dy := y city1 - y city2 in
  sqrt (dx * dx + dy * dy).

(** [l[i] = v] on an array index inside the array. *)
Fixpoint list_set {A} (l : list A) (i : nat) (v : A) : list A :=
  match l, i with
  | [], _ => []
  | _ :: t, O => v :: t
  | h :: t, S i' => h :: list_set t i' v
  end.

(** [matrix[i][j] = v] *)
Definition set2 (m : list (list R)) (i j : nat) (v : R) : list (list R) :=
  list_set m i (list_set (nth i m []) j v).

(** The inner loop [for (let j = i + 1; j < n; j++)] of row [i]. *)
Definition buildRow (cities : list City) (n i : nat) (m : list (list R)) : list (list R) :=
  fold_left (fun m j =>
               let dist := calculateDistance (nth i cities noCity) (nth j cities noCity) in
               set2 (set2 m i j dist) j i dist)
            (seq (S i) (n - S i)) m.

(** [buildDistanceMatrix]: [Array(n).fill(null).map(() => Array(n).fill(0))]
    followed by the two nested loops. *)
Definition buildDistanceMatrix (cities : list City) : list (list R) :=
  let n := length cities in
  fold_left (fun m i => buildRow cities n i m) (seq 0 n) (repeat (repeat 0 n) n).

(** [matrix[i][j]] *)
Definition entry (m : list (list R)) (i j : nat) : R := nth j (nth i m []) 0.

End Distance.

(** ** 2-opt local search (src/src/algorithms/twoOpt.ts) *)
Module TwoOpt.

(** [genes[k]] *)
Definition gene (gs : list nat) (k : nat) : nat := nth k gs 0.

(** [[...genes.slice(0, i + 1), ...genes.slice(i + 1, j + 1).reverse(),
    ...genes.slice(j + 1)]], used with [i < j]. *)
Definition reverseSegment (gs : list nat) (i j : nat) : list nat :=
  firstn (S i) gs ++ rev (firstn (j - i) (skipn (S i) gs)) ++ skipn (S j) gs.

(** [currentDist]: the edges [(i, i+1)] and [(j, (j+1) % n)]. *)
Definition currentDist (dm : DistanceMatrix) (n : nat) (gs : list nat) (i j : nat) : Z :=
  (dm (gene gs i) (gene gs (i + 1)) + dm (gene gs j) (gene gs ((j + 1) mod n)))%Z.

(** [newDist]: the edges [(i, j)] and [(i+1, (j+1) % n)]. *)
Definition newDist (dm : DistanceMatrix) (n : nat) (gs : list nat) (i j : nat) : Z :=
  (dm (gene gs i) (gene gs j) + dm (gene gs (i + 1)) (gene gs ((j + 1) mod n)))%Z.

(** The body of the inner loop on the state [(genes, improved)]. *)
Definition step (dm : DistanceMatrix) (n i : nat) (st : list nat * bool) (j : nat)
  : list nat * bool :=
  let '(gs, improved) := st in
  if (newDist dm n gs i j <? currentDist dm n gs i j)%Z
  then (reverseSegment gs i j, true) else (gs, improved).

(** One round of the [while (improved)] loop: [improved = false] and the
    two nested [for] loops, [i] in [0, n-1) and [j] in [i+1, n). *)
Definition sweep (dm : DistanceMatrix) (n : nat) (gs : list nat) : list nat * bool :=
  fold_left (fun st i => fold_left (step dm n i) (seq (S i) (n - S i)) st)
            (seq 0 (n - 1)) (gs, false).

(** [while (improved) { ... }] with [fuel] rounds; [None] when the rounds
    run out, so a loop that never stops is [None] for every [fuel]. *)
Fixpoint twoOptLoop (fuel : nat) (dm : DistanceMatrix) (n : nat) (gs : list nat)
  : option (list nat) :=
  match fuel with
  | O => None
  | S fuel' =>
      let '(gs', improved) := sweep dm n gs in
      if improved then twoOptLoop fuel' dm n gs' else Some gs'
  end.

(** [twoOptOperator chromosome distanceMatrix], the loop run with [fuel]
    rounds, followed by the final distance loop over [i] in [0, n). *)
Definition twoOptOperator (fuel : nat) (chromosome : Chromosome) (dm : DistanceMatrix)
  : option Chromosome :=
  let n := length (genes chromosome) in
  match twoOptLoop fuel dm n (genes chromosome) with
  | None => None
  | Some gs =>
      let d := fold_left (fun acc i => Z.add acc (dm (gene gs i) (gene gs ((i + 1) mod n))))
                         (seq 0 n) 0%Z in
      Some (mkChromosome gs d d)
  end.

End TwoOpt.

(** ** Random tours (src/src/types/algorithm.ts, initialization part) *)
Module Initialization.

(** [[genes[i], genes[j]] = [genes[j], genes[i]]] *)
Definition swap (gs : list nat) (i j : nat) : list nat :=
  let a := nth i gs 0 in
  let b := nth j gs 0 in
  Distance.list_set (Distance.list_set gs i b) j a.

(** [for (let i = genes.length - 1; i > 0; i--)] with
    [j = Math.floor(Math.random() * (i + 1))]; [draws i] is the draw of
    round [i]. *)
Fixpoint fisherYates (draws : nat -> Q) (i : nat) (gs : list nat) : list nat :=
  match i with
  | O => gs
  | S i' =>
      let j := Z.to_nat (floor_mul (draws i) (i + 1)) in
      fisherYates draws i' (swap gs i j)
  end.

(** [generateRandomChromosome(cityCount)] *)
Definition generateRandomChromosome (cityCount : nat) (draws : nat -> Q) : list nat :=
  fisherYates draws (cityCount - 1) (seq 0 cityCount).

(** [createChromosome(genes, cities)]: the cyclic length of the tour; the
    city coordinates enter only through the distances [dm]. *)
Definition createChromosome (gs : list nat) (dm : DistanceMatrix) : Chromosome :=
  let d := calculateDistanceWithMatrix gs dm in
  mkChromosome gs d d.

(** [initializePopulation(cities, populationSize)]; [draws k] are the draws
    of the [k]-th tour. *)
Definition initializePopulation (cityCount : nat) (dm : DistanceMatrix)
           (populationSize : nat) (draws : nat -> nat -> Q) : list Chromosome :=
  map (fun k => createChromosome (generateRandomChromosome cityCount (draws k)) dm)
      (seq 0 populationSize).

End Initialization.

(** ** The GA-JGHO class (src/src/algorithms/GAJGHO.ts) *)
Module GAJGHO.

(** The fields of a [GAJGHO] object ([startTime] left out); [cities] is
    kept as its length and [distanceMatrix] as its entries. *)
Record State := mkState {
  cityCount : nat;
  distanceMatrix : DistanceMatrix;
  params : AlgorithmParams;
  currentPopulation : list Chromosome;
  generation : nat
}.

(** [new GAJGHO(cities, params)] *)
Definition create (cityCount : nat) (dm : DistanceMatrix) (params : AlgorithmParams) : State :=
  mkState cityCount dm params [] 0.

(** [initialize()] *)
Definition initialize (draws : nat -> nat -> Q) (st : State) : State :=
  mkState (cityCount st) (distanceMatrix st) (params st)
          (Initialization.initializePopulation (cityCount st) (distanceMatrix st)
             (populationSize (params st)) draws)
          0.

(** [reset()] *)
Definition reset (st : State) : State :=
  mkState (cityCount st) (distanceMatrix st) (params st) [] 0.

(** [calculateDiversity(population)] (unique.ts) *)
Definition calculateDiversity (population : list Chromosome) : option Q :=
  divideByCount (inject_Z (Z.of_nat (uniqueRouteCount population))) (length population).

(** [getPopulation()]: [sorted[0]], [sorted[sorted.length - 1]] (index
    [-1], an [undefined] read, when [sorted] is empty), the average and the
    diversity. *)
Definition getPopulation (st : State) : Population.t :=
  let sorted := sortByDistance (currentPopulation st) in
  Population.mk (currentPopulation st) (generation st)
    (nth_error sorted 0)
    (if Nat.eqb (length sorted) 0 then None else nth_error sorted (length sorted - 1))
    (divideByCount (inject_Z (fold_left (fun sum chr => Z.add sum (distance chr)) sorted 0%Z))
                   (length sorted))
    (calculateDiversity (currentPopulation st)).

(** [getStats()]: [population.best.distance] and [population.worst.distance]
    throw a [TypeError] when [best] and [worst] are [undefined]. *)
Definition getStats (st : State) : Result GenerationStats.t :=
  let population := getPopulation st in
  match Population.best population, Population.worst population with
  | Some b, Some w =>
      Ok (GenerationStats.mk (generation st) (distance b) (Population.average population)
                             (distance w) (Population.diversity population))
  | _, _ => Throw TypeError
  end.

End GAJGHO.

(** ** The store action [initializeAlgorithm] (src/src/store/algorithmStore.ts) *)
Module AlgorithmStore.

Record StoreState := mkStoreState {
  cityCount : nat;
  params : AlgorithmParams;
  algorithm : option GAJGHO.State;
  currentPopulation : option Population.t;
  currentGeneration : nat;
  history : list GenerationStats.t;
  isRunning : bool;
  isPaused : bool
}.

(** [initializeAlgorithm()]; [dm] is [buildDistanceMatrix(cities)].  With
    fewer than 3 cities it logs a warning and returns, leaving the state as
    it is; an exception of [getStats()] propagates to the caller. *)
Definition initializeAlgorithm (dm : DistanceMatrix) (draws : nat -> nat -> Q)
           (s : StoreState) : Result StoreState :=
  if cityCount s <? 3 then Ok s
  else
    let algorithm := GAJGHO.initialize draws (GAJGHO.create (cityCount s) dm (params s)) in
    let population := GAJGHO.getPopulation algorithm in
    match GAJGHO.getStats algorithm with
    | Throw e => Throw e
    | Ok stats =>
        Ok (mkStoreState (cityCount s) (params s) (Some algorithm) (Some population)
                         0 [stats] false false)
    end.

End AlgorithmStore.

(** ** Elitism (src/src/algorithms/GAJGHO.ts, src/src/algorithms/StandardGA.ts) *)
Module Elitism.

(** [getPopulation().best.distance]: the distance of [sorted[0]];
    [None] is the read of [undefined] on an empty population. *)
Definition bestDistance (population : list Chromosome) : option Z :=
  match sortByDistance population with
  | [] => None
  | best :: _ => Some (distance best)
  end.

(** Step 7 of [GAJGHO.runGeneration]: [offspring] is the population built by
    steps 1 to 6 (selection, crossover, unique, mutation, jumping gene,
    2-opt), which are fresh objects; the elites are the previous
    generation's objects, not modified by those steps. *)
Definition gajghoElitism (populationSize eliteCount : nat)
           (currentPopulation offspring : list Chromosome) : list Chromosome :=
  let sortedPrevious := sortByDistance currentPopulation in
  let elites := js_slice_to sortedPrevious (Z.of_nat eliteCount) in
  let sortedOffspring := sortByDistance offspring in
  sortByDistance (js_slice_to sortedOffspring (Z.of_nat populationSize - Z.of_nat eliteCount)
                  ++ elites).

(** [GAJGHO.runGeneration], with steps 1 to 6 given as [breed] (a function
    of the current population and of the random draws it makes). *)
Definition gajghoRunGeneration (breed : list Chromosome -> list Chromosome)
           (st : GAJGHO.State) : GAJGHO.State :=
  let offspring := breed (GAJGHO.currentPopulation st) in
  GAJGHO.mkState (GAJGHO.cityCount st) (GAJGHO.distanceMatrix st) (GAJGHO.params st)
    (gajghoElitism (populationSize (GAJGHO.params st)) (eliteCount (GAJGHO.params st))
                   (GAJGHO.currentPopulation st) offspring)
    (S (GAJGHO.generation st)).

(** [for (let i = eliteCount; i < newPopulation.length; i++)
    newPopulation[i] = this.mutation(newPopulation[i])]; [mutation k] is the
    call at index [k], with its own random draws. *)
Fixpoint mutateFrom (mutation : nat -> Chromosome -> Chromosome) (k : nat)
         (l : list Chromosome) : list Chromosome :=
  match l with
  | [] => []
  | c :: t => mutation k c :: mutateFrom mutation (S k) t
  end.

(** [StandardGA.runGeneration] on the population: sort, keep
    [population.slice(0, eliteCount)], push crossover offspring ([child k]
    is the [k]-th one) while [newPopulation.length < populationSize],
    mutate from index [eliteCount] on, then [updateStats] sorts in place. *)
Definition standardRunGeneration (populationSize eliteCount : nat)
           (population : list Chromosome) (child : nat -> Chromosome)
           (mutation : nat -> Chromosome -> Chromosome) : list Chromosome :=
  let sorted := sortByDistance population in
  let newPopulation := firstn eliteCount sorted in
  let newPopulation := newPopulation
                       ++ map child (seq 0 (populationSize - length newPopulation)) in
  let newPopulation := firstn eliteCount newPopulation
                       ++ mutateFrom mutation eliteCount (skipn eliteCount newPopulation) in
  sortByDistance newPopulation.

End Elitism.

(** ** Artificial bee colony (src/src/algorithms/jumpingGene.ts, class ABCTSP) *)
Module ABCTSP.

(** The fields of an [ABCTSP] object; [random] is the stream of values
    [Math.random()] returns from now on. *)
Record State := mkState {
  cityCount : nat;
  distanceMatrix : DistanceMatrix;
  params : AlgorithmParams;
  limit : Z;
  foodSources : list Chromosome;
  trials : list Z;
  currentGeneration : nat;
  stats : list GenerationStats.t;
  random : nat -> Q
}.

(** How a method call ends: normally, with a JavaScript exception (the
    object keeps the fields written before it), or, for the probabilistic
    [while] loop of the onlooker phase, without having finished within the
    given number of rounds. *)
Inductive Outcome (A : Type) :=
| Normal (a : A)
| Exception (e : JsError) (s : State)
| OutOfFuel.
Arguments Normal {A} a.
Arguments Exception {A} e s.
Arguments OutOfFuel {A}.

(** The object after the call, when the call has ended. *)
Definition outcomeState {A} (o : Outcome (A * State)) : option State :=
  match o with
  | Normal (_, s) => Some s
  | Exception _ s => Some s
  | OutOfFuel => None
  end.

(** The value read from [foodSources[i]] outside the array; every read
    below is inside it. *)
Definition dummyChromosome : Chromosome := mkChromosome [] 0 0.

Definition M (A : Type) : Type := State -> Outcome (A * State).

Definition ret {A} (a : A) : M A := fun s => Normal (a, s).

Definition bind {A B} (m : M A) (k : A -> M B) : M B :=
  fun s => match m s with
           | Normal (a, s') => k a s'
           | Exception e s' => Exception e s'
           | OutOfFuel => OutOfFuel
           end.

Local Notation "x <- m ;; k" := (bind m (fun x => k))
  (at level 61, m at next level, right associativity).
Local Notation "m ;; k" := (bind m (fun _ => k)) (at level 61, right associativity).

Definition throw {A} (e : JsError) : M A := fun s => Exception e s.
Definition outOfFuel {A} : M A := fun _ => OutOfFuel.
Definition getState : M State := fun s => Normal (s, s).

(** [Math.random()] *)
Definition mathRandom : M Q :=
  fun s => Normal (random s 0,
                   mkState (cityCount s) (distanceMatrix s) (params s) (limit s) (foodSources s)
                           (trials s) (currentGeneration s) (stats s)
                           (fun k => random s (S k))).

(** [this.foodSources = f(this.foodSources)] *)
Definition modifyFoodSources (f : list Chromosome -> list Chromosome) : M unit :=
  fun s => Normal (tt, mkState (cityCount s) (distanceMatrix s) (params s) (limit s)
                               (f (foodSources s)) (trials s) (currentGeneration s) (stats s)
                               (random s)).

(** [this.trials = f(this.trials)] *)
Definition modifyTrials (f : list Z -> list Z) : M unit :=
  fun s => Normal (tt, mkState (cityCount s) (distanceMatrix s) (params s) (limit s)
                               (foodSources s) (f (trials s)) (currentGeneration s) (stats s)
                               (random s)).

(** [this.currentGeneration++] *)
Definition incrGeneration : M unit :=
  fun s => Normal (tt, mkState (cityCount s) (distanceMatrix s) (params s) (limit s)
                               (foodSources s) (trials s) (S (currentGeneration s)) (stats s)
                               (random s)).

(** [this.stats.push(x)] *)
Definition pushStats (x : GenerationStats.t) : M unit :=
  fun s => Normal (tt, mkState (cityCount s) (distanceMatrix s) (params s) (limit s)
                               (foodSources s) (trials s) (currentGeneration s) (stats s ++ [x])
                               (random s)).

Definition getFoodSources : M (list Chromosome) := fun s => Normal (foodSources s, s).
Definition getTrials : M (list Z) := fun s => Normal (trials s, s).

(** [for (i of l) body(i)] *)
Fixpoint forEach (l : list nat) (body : nat -> M unit) : M unit :=
  match l with
  | [] => ret tt
  | i :: l' => body i ;; forEach l' body
  end.

(** [Array.from({ length: n }, () => m())] *)
Fixpoint replicate {A} (n : nat) (m : M A) : M (list A) :=
  match n with
  | O => ret []
  | S n' => x <- m ;; xs <- replicate n' m ;; ret (x :: xs)
  end.

(** The Fisher-Yates loop of [createRandomSolution], from index [i] down. *)
Fixpoint shuffle (i : nat) (gs : list nat) : M (list nat) :=
  match i with
  | O => ret gs
  | S i' =>
      r <- mathRandom ;;
      shuffle i' (Initialization.swap gs i (Z.to_nat (floor_mul r (i + 1))))
  end.

(** [createRandomSolution()] *)
Definition createRandomSolution : M Chromosome :=
  s <- getState ;;
  gs <- shuffle (cityCount s - 1) (seq 0 (cityCount s)) ;;
  let d := calculateDistanceWithMatrix gs (distanceMatrix s) in
  ret (mkChromosome gs d d).

(** [generateNeighborSolution(source)]: a swap or the reversal of
    [genes[start..end]] by [splice].  On an empty tour the swap writes
    [genes[0] = undefined] and the distance loop then reads
    [distanceMatrix[undefined]], a [TypeError]. *)
Definition generateNeighborSolution (source : Chromosome) : M Chromosome :=
  let gs := genes source in
  let n := length gs in
  r <- mathRandom ;;
  ri <- mathRandom ;;
  rj <- mathRandom ;;
  let i := Z.to_nat (floor_mul ri n) in
  let j := Z.to_nat (floor_mul rj n) in
  gs' <- (if negb (Qle_bool (1#2) r)
          then (if Nat.eqb n 0 then throw TypeError else ret (Initialization.swap gs i j))
          else
            let start := Nat.min i j in
            let end_ := Nat.max i j in
            ret (firstn start gs ++ rev (firstn (end_ - start + 1) (skipn start gs))
                 ++ skipn (end_ + 1) gs)) ;;
  s <- getState ;;
  let d := calculateDistanceWithMatrix gs' (distanceMatrix s) in
  ret (mkChromosome gs' d d).

(** The greedy selection of the employed and onlooker phases, at index [i]:
    [foodSources[i] = newSolution; trials[i] = 0] or [trials[i]++]. *)
Definition greedySelect (i : nat) (newSolution : Chromosome) : M unit :=
  fs <- getFoodSources ;;
  if (distance newSolution <? distance (nth i fs newSolution))%Z
  then modifyFoodSources (fun l => Distance.list_set l i newSolution) ;;
       modifyTrials (fun l => Distance.list_set l i 0%Z)
  else modifyTrials (fun l => Distance.list_set l i (nth i l 0 + 1)%Z).

(** [employedBeePhase()]; the array is updated in place, so the bound
    [this.foodSources.length] is the one of the start. *)
Definition employedBeePhase : M unit :=
  fs <- getFoodSources ;;
  forEach (seq 0 (length fs))
    (fun i => fs <- getFoodSources ;;
              newSolution <- generateNeighborSolution (nth i fs dummyChromosome) ;;
              greedySelect i newSolution).

(** [calculateFitnessProbabilities()]; [Math.max()] of no argument is only
    met on an empty colony, where the result is empty. *)
Definition calculateFitnessProbabilities (fs : list Chromosome) : list Q :=
  let maxDistance := fold_left Z.max (map distance fs) (hd 0%Z (map distance fs)) in
  let fitnesses := map (fun s => maxDistance - distance s + 1)%Z fs in
  let totalFitness := fold_left Z.add fitnesses 0%Z in
  map (fun f => inject_Z f / inject_Z totalFitness)%Q fitnesses.

(** The [while (t < this.foodSources.length)] loop of the onlooker phase,
    run for at most [fuel] rounds. *)
Fixpoint onlookerLoop (fuel : nat) (probabilities : list Q) (t i : nat) : M unit :=
  fs <- getFoodSources ;;
  if t <? length fs then
    match fuel with
    | O => outOfFuel
    | S fuel' =>
        r <- mathRandom ;;
        t' <- (if negb (Qle_bool (nth i probabilities 0%Q) r)
               then newSolution <- generateNeighborSolution (nth i fs dummyChromosome) ;;
                    greedySelect i newSolution ;;
                    ret (S t)
               else ret t) ;;
        fs' <- getFoodSources ;;
        onlookerLoop fuel' probabilities t' ((i + 1) mod length fs')
    end
  else ret tt.

(** [onlookerBeePhase()] *)
Definition onlookerBeePhase (fuel : nat) : M unit :=
  fs <- getFoodSources ;;
  onlookerLoop fuel (calculateFitnessProbabilities fs) 0 0.

(** [scoutBeePhase()] *)
Definition scoutBeePhase : M unit :=
  fs <- getFoodSources ;;
  forEach (seq 0 (length fs))
    (fun i => tr <- getTrials ;;
              s <- getState ;;
              if (limit s <=? nth i tr 0)%Z
              then newSolution <- createRandomSolution ;;
                   modifyFoodSources (fun l => Distance.list_set l i newSolution) ;;
                   modifyTrials (fun l => Distance.list_set l i 0%Z)
              else ret tt).

(** [updateStats()]: sorts the colony in place; [best.distance] throws a
    [TypeError] on an empty colony. *)
Definition updateStats : M unit :=
  modifyFoodSources sortByDistance ;;
  fs <- getFoodSources ;;
  s <- getState ;;
  match fs with
  | [] => throw TypeError
  | best :: _ =>
      let worst := last fs best in
      pushStats (GenerationStats.mk (currentGeneration s) (distance best)
                   (divideByCount (inject_Z (fold_left (fun sum c => Z.add sum (distance c)) fs 0%Z))
                                  (length fs))
                   (distance worst) (GAJGHO.calculateDiversity fs))
  end.

(** [getPopulation()] ([{ ...undefined }] is [{}], no exception). *)
Definition getPopulation : M Population.t :=
  modifyFoodSources sortByDistance ;;
  fs <- getFoodSources ;;
  s <- getState ;;
  ret (Population.mk fs (currentGeneration s) (nth_error fs 0)
         (if Nat.eqb (length fs) 0 then None else nth_error fs (length fs - 1))
         (divideByCount (inject_Z (fold_left (fun sum c => Z.add sum (distance c)) fs 0%Z))
                        (length fs))
         (GAJGHO.calculateDiversity fs)).

(** [initialize()] *)
Definition initialize : M unit :=
  s <- getState ;;
  let colonySize := populationSize (params s) / 2 in
  fs <- replicate colonySize createRandomSolution ;;
  modifyFoodSources (fun _ => fs) ;;
  modifyTrials (fun _ => repeat 0%Z colonySize) ;;
  updateStats.

(** [runGeneration()], the onlooker loop given [fuel] rounds. *)
Definition runGeneration (fuel : nat) : M Population.t :=
  employedBeePhase ;;
  onlookerBeePhase fuel ;;
  scoutBeePhase ;;
  incrGeneration ;;
  updateStats ;;
  getPopulation.

(** [new ABCTSP(cities, params)] for [n] cities. *)
Definition create (n : nat) (dm : DistanceMatrix) (p : AlgorithmParams) (rnd : nat -> Q) : State :=
  mkState n dm p (Z.of_nat (populationSize p * n / 2)) [] [] 0 [] rnd.

End ABCTSP.

(** ** Standard GA (src/src/algorithms/StandardGA.ts) *)
Module StandardGA.

(** The fields of a [StandardGA] object. *)
Record State := mkState {
  cityCount : nat;
  distanceMatrix : DistanceMatrix;
  params : AlgorithmParams;
  population : list Chromosome;
  currentGeneration : nat;
  stats : list GenerationStats.t
}.

(** [new StandardGA(cities, params)] *)
Definition create (n : nat) (dm : DistanceMatrix) (p : AlgorithmParams) : State :=
  mkState n dm p [] 0 [].

(** [createRandomChromosome()]: the identity tour shuffled by Fisher-Yates,
    with [draws] the values of [Math.random()]. *)
Definition createRandomChromosome (s : State) (draws : nat -> Q) : Chromosome :=
  let genes := Initialization.generateRandomChromosome (cityCount s) draws in
  let d := calculateDistanceWithMatrix genes (distanceMatrix s) in
  mkChromosome genes d d.

(** [updateStats()]: sorts the population in place and pushes the
    statistics; [best.distance] throws a [TypeError] on an empty population. *)
Definition updateStats (s : State) : Result State :=
  let sorted := sortByDistance (population s) in
  match sorted with
  | [] => Throw TypeError
  | best :: _ =>
      Ok (mkState (cityCount s) (distanceMatrix s) (params s) sorted (currentGeneration s)
            (stats s ++ [GenerationStats.mk (currentGeneration s) (distance best)
                           (divideByCount
                              (inject_Z (fold_left (fun sum c => Z.add sum (distance c)) sorted 0%Z))
                              (length sorted))
                           (distance (last sorted best)) (GAJGHO.calculateDiversity sorted)]))
  end.

(** [initialize()]; [draws k] are the draws of the [k]-th chromosome. *)
Definition initialize (draws : nat -> nat -> Q) (s : State) : Result State :=
  updateStats (mkState (cityCount s) (distanceMatrix s) (params s)
                 (map (fun k => createRandomChromosome s (draws k))
                      (seq 0 (populationSize (params s))))
                 (currentGeneration s) (stats s)).

(** The object after [runGeneration()] (its snapshot left out): elitism,
    selection and crossover ([child k] is the [k]-th crossover child) and
    mutation, as [Elitism.standardRunGeneration]; then
    [currentGeneration++] and [updateStats()]. *)
Definition runGeneration (child : nat -> Chromosome)
           (mutation : nat -> Chromosome -> Chromosome) (s : State) : Result State :=
  updateStats (mkState (cityCount s) (distanceMatrix s) (params s)
                 (Elitism.standardRunGeneration (populationSize (params s))
                    (eliteCount (params s)) (population s) child mutation)
                 (S (currentGeneration s)) (stats s)).

End StandardGA.

(** ** Ant colony with 3-opt (src/unnamed/part_003, class PACO3Opt)

    Pheromone values are rationals.  The one place where they differ from
    the code's floating-point numbers is a deposit [Q / distance] on a tour
    of length [0], which is [Infinity] in JavaScript and [0] with [Qdiv]. *)
Module PACO3Opt.

(** The fields of a [PACO3Opt] object. *)
Record State := mkState {
  cityCount : nat;
  distanceMatrix : DistanceMatrix;
  params : AlgorithmParams;
  pheromoneMatrix : nat -> nat -> Q;
  solutions : list Chromosome;
  currentGeneration : nat;
  stats : list GenerationStats.t
}.

(** [rho] and [Q] *)
Definition rho : Q := 1 # 2.
Definition Qdeposit : Q := 100.

(** [new PACO3Opt(cities, params)]: pheromone [1.0 / n] on every edge. *)
Definition create (n : nat) (dm : DistanceMatrix) (p : AlgorithmParams) : State :=
  mkState n dm p (fun _ _ => 1 / inject_Z (Z.of_nat n))%Q [] 0 [].

(** [Math.pow(tau[a][b], 1.0) * Math.pow(1.0 / (d[a][b] + 0.001), 2.0)] *)
Definition edgeWeight (ph : nat -> nat -> Q) (dm : DistanceMatrix) (a b : nat) : Q :=
  let heuristic := (1 / (inject_Z (dm a b) + (1 # 1000)))%Q in
  (ph a b * (heuristic * heuristic))%Q.

(** The roulette loop of [selectNextCity], with the fallback
    [unvisitedArray[0]]. *)
Fixpoint rouletteCities (rand cumProb : Q) (cities : list nat) (probs : list Q)
         (fallback : nat) : nat :=
  match cities, probs with
  | c :: cs, p :: ps =>
      let cumProb' := (cumProb + p)%Q in
      if Qle_bool rand cumProb' then c else rouletteCities rand cumProb' cs ps fallback
  | _, _ => fallback
  end.

(** [selectNextCity(currentCity, unvisited)]; [unvisited] in insertion
    order, as [Array.from] of the [Set] gives it. *)
Definition selectNextCity (ph : nat -> nat -> Q) (dm : DistanceMatrix) (currentCity : nat)
           (unvisited : list nat) (rand : Q) : nat :=
  let probabilities := map (edgeWeight ph dm currentCity) unvisited in
  let totalProb := fold_left Qplus probabilities 0%Q in
  let normalizedProbs := map (fun p => p / totalProb)%Q probabilities in
  rouletteCities rand 0 unvisited normalizedProbs (hd 0 unvisited).

(** The [while (unvisited.size > 0)] loop; every round removes one city of
    [unvisited], so [length unvisited] rounds finish it. *)
Fixpoint buildTour (ph : nat -> nat -> Q) (dm : DistanceMatrix) (fuel currentCity : nat)
         (unvisited genes : list nat) (draws : nat -> Q) (k : nat) : list nat :=
  match fuel, unvisited with
  | S fuel', _ :: _ =>
      let nextCity := selectNextCity ph dm currentCity unvisited (draws k) in
      buildTour ph dm fuel' nextCity (remove Nat.eq_dec nextCity unvisited)
                (genes ++ [nextCity]) draws (S k)
  | _, _ => genes
  end.

(** [constructSolutionACO()]; with no city the tour is [[0]] and
    [distanceMatrix[0][0]] throws a [TypeError]. *)
Definition constructSolutionACO (s : State) (draws : nat -> Q) : Result Chromosome :=
  let n := cityCount s in
  let currentCity := Z.to_nat (floor_mul (draws 0) n) in
  let unvisited := remove Nat.eq_dec currentCity (seq 0 n) in
  let genes := buildTour (pheromoneMatrix s) (distanceMatrix s) (length unvisited)
                         currentCity unvisited [currentCity] draws 1 in
  if Nat.eqb n 0 then Throw TypeError
  else
    let d := calculateDistanceWithMatrix genes (distanceMatrix s) in
    Ok (mkChromosome genes d d).

(** [generate3OptMoves(tour, i, j, k)].  [reverse()] reverses [segment2]
    and [segment3] in place: the second and third tours see the segments
    reversed by the tours before them, and the fourth reverses them back. *)
Definition generate3OptMoves (tour : list nat) (i j k : nat) : list (list nat) :=
  let segment1 := firstn (i + 1) tour in
  let segment2 := firstn (j - i) (skipn (i + 1) tour) in
  let segment3 := firstn (k - j) (skipn (j + 1) tour) in
  let segment4 := skipn (k + 1) tour in
  let segment2 := rev segment2 in
  let case1 := segment1 ++ segment2 ++ segment3 ++ segment4 in
  let segment3 := rev segment3 in
  let case2 := segment1 ++ segment2 ++ segment3 ++ segment4 in
  let case3 := segment1 ++ segment3 ++ segment2 ++ segment4 in
  let segment3 := rev segment3 in
  let segment2 := rev segment2 in
  let case4 := segment1 ++ segment3 ++ segment2 ++ segment4 in
  [case1; case2; case3; case4].

(** The tours of the three nested loops, in the order they are tried. *)
Definition threeOptCandidates (genes : list nat) : list (list nat) :=
  let n := length genes in
  flat_map (fun i =>
    flat_map (fun j =>
      flat_map (fun k => generate3OptMoves genes i j k) (seq (j + 1) (n - (j + 1))))
      (seq (i + 1) (n - 1 - (i + 1))))
    (seq 0 (n - 2)).

(** One round of the [while] loop: the first shorter tour, where the
    [break]s stop. *)
Definition firstImprovement (dm : DistanceMatrix) (genes : list nat) : option (list nat) :=
  find (fun newTour => calculateDistanceWithMatrix newTour dm <? calculateDistanceWithMatrix genes dm)%Z
       (threeOptCandidates genes).

(** [while (improved && iterations < maxIterations)] *)
Fixpoint threeOptRounds (dm : DistanceMatrix) (iterations : nat) (genes : list nat) : list nat :=
  match iterations with
  | O => genes
  | S it =>
      match firstImprovement dm genes with
      | Some newTour => threeOptRounds dm it newTour
      | None => genes
      end
  end.

(** [apply3Opt(solution)], [maxIterations = 10]. *)
Definition apply3Opt (dm : DistanceMatrix) (solution : Chromosome) : Chromosome :=
  let genes := threeOptRounds dm 10 (genes solution) in
  let d := calculateDistanceWithMatrix genes dm in
  mkChromosome genes d d.

(** [pheromoneMatrix[a][b] += v] *)
Definition addPheromone (ph : nat -> nat -> Q) (a b : nat) (v : Q) : nat -> nat -> Q :=
  fun x y => if Nat.eqb x a && Nat.eqb y b then (ph x y + v)%Q else ph x y.

(** The deposit loop over the edges of one elite tour. *)
Definition depositTour (ph : nat -> nat -> Q) (deposit : Q) (gs : list nat) : nat -> nat -> Q :=
  fold_left (fun ph i =>
               let from := nth i gs 0 in
               let to := nth ((i + 1) mod length gs) gs 0 in
               addPheromone (addPheromone ph from to deposit) to from deposit)
            (seq 0 (length gs)) ph.

(** [updatePheromones()]: evaporation on the [n x n] matrix, the in-place
    sort of [solutions], and the deposits of the best [min(5, length)]. *)
Definition updatePheromones (s : State) : State :=
  let n := cityCount s in
  let ph := fun i j => if (i <? n) && (j <? n) then (pheromoneMatrix s i j * (1 - rho))%Q
                       else pheromoneMatrix s i j in
  let sorted := sortByDistance (solutions s) in
  let eliteCount := Nat.min 5 (length sorted) in
  let ph := fold_left (fun ph solution =>
                         depositTour ph (Qdeposit / inject_Z (distance solution))%Q (genes solution))
                      (firstn eliteCount sorted) ph in
  mkState (cityCount s) (distanceMatrix s) (params s) ph sorted (currentGeneration s) (stats s).

(** [updateStats()], as in the other classes. *)
Definition updateStats (s : State) : Result State :=
  let sorted := sortByDistance (solutions s) in
  match sorted with
  | [] => Throw TypeError
  | best :: _ =>
      Ok (mkState (cityCount s) (distanceMatrix s) (params s) (pheromoneMatrix s) sorted
            (currentGeneration s)
            (stats s ++ [GenerationStats.mk (currentGeneration s) (distance best)
                           (divideByCount
                              (inject_Z (fold_left (fun sum c => Z.add sum (distance c)) sorted 0%Z))
                              (length sorted))
                           (distance (last sorted best)) (GAJGHO.calculateDiversity sorted)]))
  end.

(** [Array.from({ length }, f)] for an [f] that may throw. *)
Fixpoint mapResult {A B} (f : A -> Result B) (l : list A) : Result (list B) :=
  match l with
  | [] => Ok []
  | x :: l' =>
      match f x with
      | Throw e => Throw e
      | Ok y => match mapResult f l' with
                | Throw e => Throw e
                | Ok ys => Ok (y :: ys)
                end
      end
  end.

(** The [populationSize] new solutions, constructed and improved by 3-opt;
    [draws k] are the draws of the [k]-th construction. *)
Definition newSolutions (draws : nat -> nat -> Q) (s : State) : Result (list Chromosome) :=
  match mapResult (fun k => constructSolutionACO s (draws k)) (seq 0 (populationSize (params s))) with
  | Throw e => Throw e
  | Ok sols => Ok (map (apply3Opt (distanceMatrix s)) sols)
  end.

(** [initialize()] *)
Definition initialize (draws : nat -> nat -> Q) (s : State) : Result State :=
  match newSolutions draws s with
  | Throw e => Throw e
  | Ok sols =>
      updateStats (updatePheromones
        (mkState (cityCount s) (distanceMatrix s) (params s) (pheromoneMatrix s) sols
                 (currentGeneration s) (stats s)))
  end.

(** The object after [runGeneration()] (its snapshot left out). *)
Definition runGeneration (draws : nat -> nat -> Q) (s : State) : Result State :=
  match newSolutions draws s with
  | Throw e => Throw e
  | Ok sols =>
      let s' := updatePheromones
                  (mkState (cityCount s) (distanceMatrix s) (params s) (pheromoneMatrix s) sols
                           (currentGeneration s) (stats s)) in
      updateStats (mkState (cityCount s') (distanceMatrix s') (params s') (pheromoneMatrix s')
                           (solutions s') (S (currentGeneration s')) (stats s'))
  end.

End PACO3Opt.

(** ** The unique operator (src/src/algorithms/unique.ts) *)
Module Unique.

(** The [for (const chromosome of population)] loop of [uniqueOperator].
    [seen] lists the keys [genes.join(',')] set so far, as gene lists
    ([join(',')] is injective on lists of naturals); [i] is the position
    of [chromosome] in [population], and [draws i] are the draws of the
    tour [generateRandomChromosome(cityCount)] makes there. *)
Fixpoint uniqueLoop (cityCount : nat) (draws : nat -> nat -> Q)
         (seen : list (list nat)) (i : nat) (population : list Chromosome)
  : list Chromosome :=
  match population with
  | [] => []
  | chromosome :: rest =>
      if in_dec (list_eq_dec Nat.eq_dec) (genes chromosome) seen
      then mkChromosome (Initialization.generateRandomChromosome cityCount (draws i)) 0 0
             :: uniqueLoop cityCount draws seen (S i) rest
      else chromosome :: uniqueLoop cityCount draws (genes chromosome :: seen) (S i) rest
  end.

(** [uniqueOperator(population, cityCount)] *)
Definition uniqueOperator (population : list Chromosome) (cityCount : nat)
           (draws : nat -> nat -> Q) : list Chromosome :=
  uniqueLoop cityCount draws [] 0 population.

(** [calculateFitnessAfterUnique(chromosomes, distanceMatrix)] *)
Definition calculateFitnessAfterUnique (chromosomes : list Chromosome)
           (distanceMatrix : DistanceMatrix) : list Chromosome :=
  map (fun chr =>
         if Z.eqb (fitness chr) 0 then
           let n := length (genes chr) in
           let d := fold_left
                      (fun acc i => Z.add acc (distanceMatrix (nth i (genes chr) 0)
                                                               (nth ((i + 1) mod n) (genes chr) 0)))
                      (seq 0 n) 0%Z in
           mkChromosome (genes chr) d d
         else chr)
      chromosomes.

End Unique.

(** ** Roulette-wheel selection (src/src/algorithms/selection.ts) *)
Module Selection.

(** [fitnessValues.reduce((sum, f) => sum + f, 0)] *)
Definition totalOf (fitnessValues : list Q) : Q := fold_left Qplus fitnessValues 0%Q.

(** The [for] loop of [rouletteWheelSelect] from index [i], with [fuel]
    rounds left ([population.length - i]): [cumulative += fitnessValues[i]],
    then [if (cumulative >= spin) return population[i]].  The result is
    the index returned, [None] when the loop runs out.  [cumulative = None]
    is [NaN], which reading [fitnessValues] past its end ([undefined])
    produces and which then compares false. *)
Fixpoint spinLoop (fitnessValues : list Q) (spin : Q) (cumulative : option Q)
         (i fuel : nat) : option nat :=
  match fuel with
  | O => None
  | S fuel' =>
      let cumulative' :=
        match cumulative, nth_error fitnessValues i with
        | Some c, Some f => Some (c + f)%Q
        | _, _ => None
        end in
      match cumulative' with
      | Some c =>
          if Qle_bool spin c then Some i
          else spinLoop fitnessValues spin cumulative' (S i) fuel'
      | None => spinLoop fitnessValues spin cumulative' (S i) fuel'
      end
  end.

(** [rouletteWheelSelect(population, fitnessValues)]; [r] is the value of
    the one [Math.random()] call made on either branch, and [None] is
    [undefined] (an index out of range, e.g. [population[-1]] of an empty
    population). *)
Definition rouletteWheelSelect (population : list Chromosome)
           (fitnessValues : list Q) (r : Q) : option Chromosome :=
  let totalFitness := totalOf fitnessValues in
  if Qeq_bool totalFitness 0 then
    nth_error population (Z.to_nat (floor_mul r (length population)))
  else
    let spin := (r * totalFitness)%Q in
    match spinLoop fitnessValues spin (Some 0%Q) 0 (length population) with
    | Some i => nth_error population i
    | None => if Nat.eqb (length population) 0 then None
              else nth_error population (length population - 1)
    end.

End Selection.

(** ** More of unique.ts, selection.ts, mutation.ts and GAJGHO.ts *)
Module Operators.

(** [countDuplicates(population)] (unique.ts): the keys are the gene
    lists, as for [uniqueOperator]. *)
Fixpoint countDuplicatesLoop (seen : list (list nat)) (population : list Chromosome) : nat :=
  match population with
  | [] => 0
  | chromosome :: rest =>
      if in_dec (list_eq_dec Nat.eq_dec) (genes chromosome) seen
      then S (countDuplicatesLoop seen rest)
      else countDuplicatesLoop (genes chromosome :: seen) rest
  end.

Definition countDuplicates (population : list Chromosome) : nat :=
  countDuplicatesLoop [] population.




(** [fitnessMap.get(key) || 0]: the value, or [0] for a missing key (the
    values are numbers, never [NaN], and [0 || 0] is [0]). *)
Definition mapGetOrZero (fitnessMap : list (list nat * Q)) (key : list nat) : Q :=
  match find (fun e => if list_eq_dec Nat.eq_dec (fst e) key then true else false) fitnessMap with
  | Some (_, v) => v
  | None => 0%Q
  end.

(** The [sorted.forEach((chr, rank) => fitnessMap.set(key, f rank))] loop.
    The map is kept newest entry first, so that [find] reads the value of
    the last [set] of a key, as [Map.prototype.get] does. *)
Definition buildFitnessMap (sorted : list Chromosome) (f : nat -> Q) : list (list nat * Q) :=
  fold_left (fun m '(chr, rank) => (genes chr, f rank) :: m)
            (combine sorted (seq 0 (length sorted))) [].

(** [calculateLinearFitness(population)] *)
Definition calculateLinearFitness (population : list Chromosome) : list Q :=
  let NP := length population in
  let sorted := sortByDistance population in
  let fitnessMap := buildFitnessMap sorted
        (fun rank => inject_Z (Z.of_nat NP - Z.of_nat rank) / inject_Z (Z.of_nat NP))%Q in
  map (fun chr => mapGetOrZero fitnessMap (genes chr)) population.

(** [calculateNonLinearFitness(population, beta)] *)
Definition calculateNonLinearFitness (population : list Chromosome) (beta : Q) : list Q :=
  let sorted := sortByDistance population in
  let fitnessMap := buildFitnessMap sorted
        (fun rank => beta * Qpower (1 - beta) (Z.of_nat rank))%Q in
  map (fun chr => mapGetOrZero fitnessMap (genes chr)) population.

(** [rouletteSelection(population, Pfit, beta)]; [r] is the first
    [Math.random()] (the choice of the fitness function) and [spinDraw]
    the one of [rouletteWheelSelect]. *)
Definition rouletteSelection (population : list Chromosome) (Pfit beta : Q) (r spinDraw : Q)
  : option Chromosome :=
  let fitnessValues := if Qle_bool r Pfit then calculateLinearFitness population
                       else calculateNonLinearFitness population beta in
  Selection.rouletteWheelSelect population fitnessValues spinDraw.

(** [selectParents(population, count, Pfit, beta)]; [draws i 0] and
    [draws i 1] are the two draws of the [i]-th selection.  [None] entries
    are the [undefined] values pushed for an empty population. *)
Definition selectParents (population : list Chromosome) (count : nat) (Pfit beta : Q)
           (draws : nat -> nat -> Q) : list (option Chromosome) :=
  map (fun i => rouletteSelection population Pfit beta (draws i 0) (draws i 1)) (seq 0 count).

(** [shouldStop()] of [GAJGHO]: [population.diversity < 0.01] (false for
    [NaN]), then the [generation > 20] branch, which also answers false. *)
Definition shouldStop (st : GAJGHO.State) : bool :=
  let population := GAJGHO.getPopulation st in
  if match Population.diversity population with
     | Some d => negb (Qle_bool (1 # 100) d)
     | None => false
     end
  then true
  else if 20 <? GAJGHO.generation st then false else false.

End Operators.

(** ** Mutation operators (src/src/algorithms/jumpingGene.ts, mutation part) *)
Module Mutation.

(** The [pos2] draws of [swapMutation]: [pos2] is drawn from [draw k], and
    [while (pos2 === pos1)] draws again from [draw (k+1)], ...; [None] when
    [fuel] draws are used up, so a loop that never stops is [None] for
    every [fuel]. *)
Fixpoint swapRedraw (fuel n pos1 : nat) (draw : nat -> Q) (k : nat) : option nat :=
  match fuel with
  | O => None
  | S fuel' =>
      let pos2 := Z.to_nat (floor_mul (draw k) n) in
      if Nat.eqb pos2 pos1 then swapRedraw fuel' n pos1 draw (S k) else Some pos2
  end.

(** [swapMutation(chromosome)]: [draw 0] is the draw of [pos1], [draw 1],
    [draw 2], ... those of [pos2]. *)
Definition swapMutation (fuel : nat) (chromosome : Chromosome) (draw : nat -> Q)
  : option Chromosome :=
  let gs := genes chromosome in
  let n := length gs in
  let pos1 := Z.to_nat (floor_mul (draw 0) n) in
  match swapRedraw fuel n pos1 draw 1 with
  | None => None
  | Some pos2 => Some (mkChromosome (Initialization.swap gs pos1 pos2) 0 0)
  end.

(** [while (pos1 < pos2) { swap; pos1++; pos2-- }]; the loop stops after at
    most [(pos2 - pos1 + 1) / 2] rounds, and [fuel] bounds the rounds. *)
Fixpoint inverseLoop (fuel : nat) (gs : list nat) (pos1 pos2 : nat) : list nat :=
  match fuel with
  | O => gs
  | S fuel' =>
      if Nat.ltb pos1 pos2
      then inverseLoop fuel' (Initialization.swap gs pos1 pos2) (S pos1) (pos2 - 1)
      else gs
  end.

(** [inverseMutation(chromosome)]: [draw 0] and [draw 1] are the draws of
    [pos1] and [pos2]; the loop runs with [n] rounds of fuel. *)
Definition inverseMutation (chromosome : Chromosome) (draw : nat -> Q) : Chromosome :=
  let gs := genes chromosome in
  let n := length gs in
  let p1 := Z.to_nat (floor_mul (draw 0) n) in
  let p2 := Z.to_nat (floor_mul (draw 1) n) in
  let '(pos1, pos2) := if Nat.ltb p2 p1 then (p2, p1) else (p1, p2) in
  mkChromosome (inverseLoop n gs pos1 pos2) 0 0.

(** [dist < minDistance] with [minDistance] starting at [Infinity]
    ([None]). *)
Definition ltInf (d : Z) (m : option Z) : bool :=
  match m with None => true | Some m => (d <? m)%Z end.

(** The [for] loop of [heuristicMutation] on the state
    [(nearestCity, minDistance)]: [None] is [-1] and [Infinity]. *)
Definition heuristicStep (dm : DistanceMatrix) (gs : list nat) (n pos1 city1 : nat)
           (st : option nat * option Z) (i : nat) : option nat * option Z :=
  let city2 := nth i gs 0 in
  if Nat.eqb city2 city1 then st
  else
    let prevPos := (pos1 + n - 1) mod n in
    let nextPos := (pos1 + 1) mod n in
    if Nat.eqb i prevPos || Nat.eqb i nextPos then st
    else
      let dist := dm city1 city2 in
      if ltInf dist (snd st) then (Some city2, Some dist) else st.

(** [nearestCity] after the loop. *)
Definition heuristicNearest (dm : DistanceMatrix) (gs : list nat) (pos1 : nat) : option nat :=
  let n := length gs in
  fst (fold_left (heuristicStep dm gs n pos1 (nth pos1 gs 0)) (seq 0 n) (None, None)).

(** [genes.splice(start, 1)] *)
Definition js_splice_delete (l : list nat) (start : Z) : list nat :=
  let s := js_rel (length l) start in
  firstn s l ++ skipn (S s) l.

(** [genes.splice(start, 0, x)] *)
Definition js_splice_insert (l : list nat) (start : Z) (x : nat) : list nat :=
  let s := js_rel (length l) start in
  firstn s l ++ x :: skipn s l.

(** [heuristicMutation(chromosome, distanceMatrix)]: [draw] is the draw of
    [pos1]. *)
Definition heuristicMutation (dm : DistanceMatrix) (chromosome : Chromosome) (draw : Q)
  : Chromosome :=
  let gs := genes chromosome in
  let n := length gs in
  let pos1 := Z.to_nat (floor_mul draw n) in
  let city1 := nth pos1 gs 0 in
  let gs' :=
    match heuristicNearest dm gs pos1 with
    | None => gs
    | Some nearestCity =>
        let pos2 := Crossover.indexOf gs nearestCity in
        let g1 := js_splice_delete gs pos2 in
        let insertPos := (Crossover.indexOf g1 city1 + 1)%Z in
        js_splice_insert g1 insertPos nearestCity
    end in
  mkChromosome gs' 0 0.

(** [combinationMutation(chromosome, Ps, beta, distanceMatrix)]: [draw 0]
    is [mu], and the chosen operator draws from [draw 1] on. *)
Definition combinationMutation (fuel : nat) (chromosome : Chromosome) (Ps beta : Q)
           (dm : DistanceMatrix) (draw : nat -> Q) : option Chromosome :=
  let mu := draw 0 in
  if Qle_bool mu Ps then swapMutation fuel chromosome (fun k => draw (S k))
  else if Qle_bool mu (Ps + beta) then Some (inverseMutation chromosome (fun k => draw (S k)))
  else Some (heuristicMutation dm chromosome (draw 1)).

(** [calculateFitnessForChromosomes(chromosomes, distanceMatrix)] *)
Definition calculateFitnessForChromosomes (chromosomes : list Chromosome)
           (distanceMatrix : DistanceMatrix) : list Chromosome :=
  map (fun chr =>
         if Z.eqb (fitness chr) 0 then
           let n := length (genes chr) in
           let d := fold_left
                      (fun acc i => Z.add acc (distanceMatrix (nth i (genes chr) 0)
                                                               (nth ((i + 1) mod n) (genes chr) 0)))
                      (seq 0 n) 0%Z in
           mkChromosome (genes chr) d d
         else chr)
      chromosomes.

(** [chromosomes.map(chr => combinationMutation(...))] from position [k];
    [draws k] are the draws of the [k]-th chromosome. *)
Fixpoint mutateFrom (fuel : nat) (Ps beta : Q) (dm : DistanceMatrix)
         (draws : nat -> nat -> Q) (k : nat) (chromosomes : list Chromosome)
  : option (list Chromosome) :=
  match chromosomes with
  | [] => Some []
  | chr :: rest =>
      match combinationMutation fuel chr Ps beta dm (draws k) with
      | None => None
      | Some m =>
          match mutateFrom fuel Ps beta dm draws (S k) rest with
          | None => None
          | Some ms => Some (m :: ms)
          end
      end
  end.

(** [performMutation(chromosomes, Ps, beta, distanceMatrix)] *)
Definition performMutation (fuel : nat) (chromosomes : list Chromosome) (Ps beta : Q)
           (dm : DistanceMatrix) (draws : nat -> nat -> Q) : option (list Chromosome) :=
  match mutateFrom fuel Ps beta dm draws 0 chromosomes with
  | None => None
  | Some mutated => Some (calculateFitnessForChromosomes mutated dm)
  end.

(** [applyJumpingGeneToPopulation(population, PJG, q)] from position [k];
    chromosome [k] draws [rApply k], [rMask k] and [rInsert k]. *)
Fixpoint applyJumpingGeneFrom (PJG : Q) (q : Z) (rApply : nat -> Q) (rMask : nat -> nat -> Q)
         (rInsert : nat -> Q) (k : nat) (population : list Chromosome) : list Chromosome :=
  match population with
  | [] => []
  | chr :: rest =>
      JumpingGene.jumpingGeneOperator chr PJG q (rApply k) (rMask k) (rInsert k)
        :: applyJumpingGeneFrom PJG q rApply rMask rInsert (S k) rest
  end.

Definition applyJumpingGeneToPopulation (population : list Chromosome) (PJG : Q) (q : Z)
           (rApply : nat -> Q) (rMask : nat -> nat -> Q) (rInsert : nat -> Q) : list Chromosome :=
  applyJumpingGeneFrom PJG q rApply rMask rInsert 0 population.

(** [calculateFitnessAfterJumping(chromosomes, distanceMatrix)], whose body
    is the one of [calculateFitnessForChromosomes]. *)
Definition calculateFitnessAfterJumping (chromosomes : list Chromosome)
           (distanceMatrix : DistanceMatrix) : list Chromosome :=
  map (fun chr =>
         if Z.eqb (fitness chr) 0 then
           let n := length (genes chr) in
           let d := fold_left
                      (fun acc i => Z.add acc (distanceMatrix (nth i (genes chr) 0)
                                                               (nth ((i + 1) mod n) (genes chr) 0)))
                      (seq 0 n) 0%Z in
           mkChromosome (genes chr) d d
         else chr)
      chromosomes.

End Mutation.

(** ** More of twoOpt.ts and crossover.ts *)
Module TwoOptMore.
Import TwoOpt.

(** The body of the inner loop of [twoOptSinglePass] on the state
    [(bestImprovement, bestI, bestJ)]. *)
Definition singlePassStep (dm : DistanceMatrix) (n : nat) (gs : list nat) (i : nat)
           (st : Z * Z * Z) (j : nat) : Z * Z * Z :=
  let '(bestImprovement, bestI, bestJ) := st in
  let improvement := (currentDist dm n gs i j - newDist dm n gs i j)%Z in
  if (bestImprovement <? improvement)%Z
  then (improvement, Z.of_nat i, Z.of_nat j)
  else st.

(** The two nested [for] loops, [i] in [0, n-1) and [j] in [i+1, n), from
    [(0, -1, -1)]. *)
Definition singlePassScan (dm : DistanceMatrix) (n : nat) (gs : list nat) : Z * Z * Z :=
  fold_left (fun st i => fold_left (singlePassStep dm n gs i) (seq (S i) (n - S i)) st)
            (seq 0 (n - 1)) (0%Z, (-1)%Z, (-1)%Z).

(** [twoOptSinglePass(chromosome, distanceMatrix)] *)
Definition twoOptSinglePass (chromosome : Chromosome) (dm : DistanceMatrix) : Chromosome :=
  let gs := genes chromosome in
  let n := length gs in
  let '(bestImprovement, bestI, bestJ) := singlePassScan dm n gs in
  let gs' := if negb (Z.eqb bestI (-1)) && negb (Z.eqb bestJ (-1))
             then reverseSegment gs (Z.to_nat bestI) (Z.to_nat bestJ) else gs in
  let d := fold_left (fun acc i => Z.add acc (dm (gene gs' i) (gene gs' ((i + 1) mod n))))
                     (seq 0 n) 0%Z in
  mkChromosome gs' d d.

(** [population.map(...)] of calls that may not return: [None] as soon as
    one of them does not. *)
Fixpoint allSome {A} (l : list (option A)) : option (list A) :=
  match l with
  | [] => Some []
  | None :: _ => None
  | Some a :: rest =>
      match allSome rest with
      | None => None
      | Some r => Some (a :: r)
      end
  end.

(** [applyTwoOptToPopulation(population, distanceMatrix, applyToAll, topN)]
    with [fuel] rounds for each [twoOptOperator]; [sorted[i]] is read for
    [i < population.length], inside [sorted]. *)
Definition applyTwoOptToPopulation (fuel : nat) (population : list Chromosome)
           (dm : DistanceMatrix) (applyToAll : bool) (topN : nat) : option (list Chromosome) :=
  if applyToAll then allSome (map (fun chr => twoOptOperator fuel chr dm) population)
  else
    let sorted := sortByDistance population in
    allSome (map (fun i => if Nat.ltb i topN
                           then twoOptOperator fuel (nth i sorted (mkChromosome [] 0 0)) dm
                           else Some (nth i sorted (mkChromosome [] 0 0)))
                 (seq 0 (length population))).

End TwoOptMore.

Module CrossoverMore.
Import Crossover.

(** [offspringCount || parents.length], [offspringCount] a natural or
    [undefined] ([None]); [0] is falsy. *)
Definition targetCount (parents : list Chromosome) (offspringCount : option nat) : nat :=
  match offspringCount with
  | Some k => if Nat.eqb k 0 then length parents else k
  | None => length parents
  end.

(** The [for (let i = 0; i < targetCount; i += 2)] loop of
    [performCrossover] with [fuel] rounds.  The [k]-th offspring pushed
    draws [rDir k] and [rStart k]; [parents[i % parents.length]] of an empty
    [parents] is [undefined], whose [genes] throw a [TypeError]. *)
Fixpoint crossoverLoop (fuel : nat) (parents : list Chromosome) (dm : DistanceMatrix)
         (tc : nat) (rDir rStart : nat -> Q) (i : nat) (offspring : list Chromosome)
  : Result (list Chromosome) :=
  match fuel with
  | O => Ok offspring
  | S fuel' =>
      if Nat.ltb i tc then
        match nth_error parents (i mod length parents),
              nth_error parents ((i + 1) mod length parents) with
        | Some parent1, Some parent2 =>
            match bidirectionalHeuristicCrossover parent1 parent2 dm
                    (rDir (length offspring)) (rStart (length offspring)) with
            | Throw e => Throw e
            | Ok c1 =>
                let offspring1 := offspring ++ [c1] in
                if Nat.ltb (length offspring1) tc then
                  match bidirectionalHeuristicCrossover parent2 parent1 dm
                          (rDir (length offspring1)) (rStart (length offspring1)) with
                  | Throw e => Throw e
                  | Ok c2 => crossoverLoop fuel' parents dm tc rDir rStart (i + 2) (offspring1 ++ [c2])
                  end
                else crossoverLoop fuel' parents dm tc rDir rStart (i + 2) offspring1
            end
        | _, _ => Throw TypeError
        end
      else Ok offspring
  end.

(** [performCrossover(parents, distanceMatrix, offspringCount)]; the loop
    runs at most [targetCount] rounds. *)
Definition performCrossover (parents : list Chromosome) (dm : DistanceMatrix)
           (offspringCount : option nat) (rDir rStart : nat -> Q) : Result (list Chromosome) :=
  let tc := targetCount parents offspringCount in
  match crossoverLoop tc parents dm tc rDir rStart 0 [] with
  | Throw e => Throw e
  | Ok offspring => Ok (firstn tc offspring)
  end.

End CrossoverMore.

(** ** Seeded populations (src/src/types/algorithm.ts, seeding part) *)
Module Seeds.

(** The [for (let i = 0; i < n; i++)] loop of [createGreedyChromosome] over
    [is], with [nearestCityId] ([None] for [-1]) and [minDistance] ([None]
    for [Infinity]).  [cities] is kept as its length [n] and the distance
    [Math.sqrt(dx * dx + dy * dy)] between cities [a] and [b] as [dm a b];
    [cities[currentCityId]] outside [cities] is [undefined], whose [x]
    throws a [TypeError]. *)
Fixpoint greedyScan (dm : DistanceMatrix) (n cur : nat) (visited : list nat) (is : list nat)
         (nearestCityId : option nat) (minDistance : option Z) : Result (option nat) :=
  match is with
  | [] => Ok nearestCityId
  | i :: rest =>
      if mem i visited then greedyScan dm n cur visited rest nearestCityId minDistance
      else if Nat.ltb cur n then
        let dist := dm cur i in
        if Mutation.ltInf dist minDistance
        then greedyScan dm n cur visited rest (Some i) (Some dist)
        else greedyScan dm n cur visited rest nearestCityId minDistance
      else Throw TypeError
  end.

(** [while (genes.length < n) { ... }] with [fuel] rounds; [None] when the
    rounds run out. *)
Fixpoint greedyLoop (fuel : nat) (dm : DistanceMatrix) (n cur : nat) (gs visited : list nat)
  : option (Result (list nat)) :=
  match fuel with
  | O => None
  | S fuel' =>
      if Nat.ltb (length gs) n then
        match greedyScan dm n cur visited (seq 0 n) None None with
        | Throw e => Some (Throw e)
        | Ok None => greedyLoop fuel' dm n cur gs visited
        | Ok (Some k) => greedyLoop fuel' dm n k (gs ++ [k]) (k :: visited)
        end
      else Some (Ok gs)
  end.

(** [createGreedyChromosome(cities, startCityId)] *)
Definition createGreedyChromosome (fuel : nat) (dm : DistanceMatrix) (n startCityId : nat)
  : option (Result (list nat)) :=
  greedyLoop fuel dm n startCityId [startCityId] [startCityId].



End Seeds.


(** ** Selection, crossover and mutation of StandardGA.ts *)
Module StandardGAOps.

(** The inner loop [for (let j = 0; j < this.population.length; j++)] of
    [selection()]: [sum += fitnesses[j]] and the first [j] with
    [sum >= rand] is chosen ([{ ...this.population[j] }] copies its
    fields); [None] when the loop ends without a choice. *)
Fixpoint spinLoop (rand sum : Q) (population : list Chromosome) (fitnesses : list Z)
  : option Chromosome :=
  match population, fitnesses with
  | c :: cs, f :: fs =>
      let sum' := (sum + inject_Z f)%Q in
      if Qle_bool rand sum' then Some c else spinLoop rand sum' cs fs
  | _, _ => None
  end.

(** [selection()]; [draws i] is the [Math.random()] of the [i]-th round.
    [Math.max()] of no argument is only met on an empty population, where
    no round selects anything. *)
Definition selection (s : StandardGA.State) (draws : nat -> Q) : list Chromosome :=
  let population := StandardGA.population s in
  let maxDistance := fold_left Z.max (map distance population) (hd 0%Z (map distance population)) in
  let fitnesses := map (fun c => maxDistance - distance c + 1)%Z population in
  let totalFitness := fold_left Z.add fitnesses 0%Z in
  flat_map (fun i =>
              let rand := (draws i * inject_Z totalFitness)%Q in
              match spinLoop rand 0 population fitnesses with
              | Some c => [c]
              | None => []
              end)
           (seq 0 (populationSize (StandardGA.params s))).

(** A value of the [child] array of [crossover()]: a number, or
    [undefined] ([None]) when [parent2.genes[parentIdx]] is read past the
    end of [parent2.genes]. *)
Definition cell_eqb (a b : option Z) : bool :=
  match a, b with
  | Some x, Some y => Z.eqb x y
  | None, None => true
  | _, _ => false
  end.

(** [child.includes(v)] *)
Definition includes (v : option Z) (child : list (option Z)) : bool :=
  existsb (cell_eqb v) child.

(** The [while (child.includes(-1))] loop of [crossover()], run for at
    most [fuel] rounds; [None] when the rounds are used up. *)
Fixpoint fillLoop (fuel n : nat) (parent2 : list nat) (child : list (option Z))
         (childIdx parentIdx : nat) : option (list (option Z)) :=
  match fuel with
  | O => None
  | S fuel' =>
      if includes (Some (-1)%Z) child then
        let gene := option_map Z.of_nat (nth_error parent2 parentIdx) in
        if negb (includes gene child)
        then fillLoop fuel' n parent2 (Distance.list_set child childIdx gene)
                      ((childIdx + 1) mod n) ((parentIdx + 1) mod n)
        else fillLoop fuel' n parent2 child childIdx ((parentIdx + 1) mod n)
      else Some child
  end.

(** The tour read by [calculateTotalDistanceWithMatrix(child, ...)]: an
    entry [undefined] or [-1] makes [distanceMatrix[...]] undefined and
    the next read a [TypeError] ([None]). *)
Fixpoint childGenes (child : list (option Z)) : option (list nat) :=
  match child with
  | [] => Some []
  | Some z :: t =>
      if (0 <=? z)%Z then option_map (cons (Z.to_nat z)) (childGenes t) else None
  | None :: _ => None
  end.

(** [crossover(parent1, parent2)] (order crossover); [draws 0] and
    [draws 1] give [point1] and [point2], and [fuel] bounds the [while]
    loop.  With no city, [child[0] = parent1.genes[0]] extends [child] to
    [[undefined]] and the distance loop reads [distanceMatrix[undefined]],
    a [TypeError]. *)
Definition crossover (s : StandardGA.State) (parent1 parent2 : Chromosome)
           (draws : nat -> Q) (fuel : nat) : option (Result Chromosome) :=
  let n := length (genes parent1) in
  let point1 := Z.to_nat (floor_mul (draws 0) n) in
  let point2 := Z.to_nat (floor_mul (draws 1) n) in
  let start := Nat.min point1 point2 in
  let end_ := Nat.max point1 point2 in
  if Nat.eqb n 0 then Some (Throw TypeError) else
  let child := fold_left (fun ch i => Distance.list_set ch i (option_map Z.of_nat (nth_error (genes parent1) i)))
                         (seq start (end_ - start + 1)) (repeat (Some (-1)%Z) n) in
  match fillLoop fuel n (genes parent2) child ((end_ + 1) mod n) ((end_ + 1) mod n) with
  | None => None
  | Some child' =>
      Some (match childGenes child' with
            | None => Throw TypeError
            | Some gs =>
                let d := calculateDistanceWithMatrix gs (StandardGA.distanceMatrix s) in
                Ok (mkChromosome gs d d)
            end)
  end.

(** [mutation(chromosome)]: with the fixed rate [0.2] (read as [1/5]),
    [draws 0 < 0.2] exchanges the genes at [Math.floor(draws 1 * n)] and
    [Math.floor(draws 2 * n)].  On an empty tour the exchange assigns
    [genes[0] = undefined] and the distance loop reads
    [distanceMatrix[undefined]], a [TypeError]. *)
Definition mutation (s : StandardGA.State) (chromosome : Chromosome) (draws : nat -> Q)
  : Result Chromosome :=
  let gs := genes chromosome in
  let n := length gs in
  let mutated :=
    if negb (Qle_bool (1 # 5) (draws 0))
    then (if Nat.eqb n 0 then Throw TypeError
          else Ok (Initialization.swap gs (Z.to_nat (floor_mul (draws 1) n))
                                          (Z.to_nat (floor_mul (draws 2) n))))
    else Ok gs in
  match mutated with
  | Throw e => Throw e
  | Ok gs' =>
      let d := calculateDistanceWithMatrix gs' (StandardGA.distanceMatrix s) in
      Ok (mkChromosome gs' d d)
  end.

End StandardGAOps.

(** * Proofs *)

(** ** Helper facts *)

(** A concrete list is a permutation of [0..n-1]. *)
Ltac prove_perm_seq :=
  apply NoDup_Permutation_bis;
  [repeat constructor; simpl; lia | simpl; lia |
   let x := fresh in let Hx := fresh in
   intros x Hx; apply in_seq; simpl in Hx; lia].

Lemma mem_In x l : mem x l = true <-> In x l.
Proof.
  unfold mem. rewrite existsb_exists. split.
  - intros [y [Hy E]]. apply Nat.eqb_eq in E. now subst.
  - intros H. exists x. split; [exact H | apply Nat.eqb_refl].
Qed.

Lemma mem_false x l : mem x l = false <-> ~ In x l.
Proof.
  rewrite <- mem_In. destruct (mem x l); split; congruence.
Qed.

Lemma js_slice_to_from {A} (l : list A) k : js_slice_to l k ++ js_slice_from l k = l.
Proof. apply firstn_skipn. Qed.

Lemma floor_mul_range r k :
  (0 <= r)%Q -> (r < 1)%Q -> 0 < k -> (0 <= floor_mul r k < Z.of_nat k)%Z.
Proof.
  intros H0 H1 Hk. unfold floor_mul.
  assert (Hk' : (0 < inject_Z (Z.of_nat k))%Q).
  { change 0%Q with (inject_Z 0). rewrite <- Zlt_Qlt. lia. }
  split.
  - change 0%Z with (Qfloor 0). apply Qfloor_resp_le.
    apply Qmult_le_0_compat; [exact H0 | apply Qlt_le_weak, Hk'].
  - rewrite Zlt_Qlt. eapply Qle_lt_trans; [apply Qfloor_le |].
    rewrite <- (Qmult_1_l (inject_Z (Z.of_nat k))) at 2.
    apply Qmult_lt_compat_r; assumption.
Qed.

Lemma in_seq_lt x n : In x (seq 0 n) <-> x < n.
Proof. rewrite in_seq. lia. Qed.

(** A duplicate-free list of cities below [n] that is shorter than [n]
    misses one of them. *)
Lemma missing_city l n :
  NoDup l -> (forall x, In x l -> x < n) -> length l < n ->
  exists k, k < n /\ ~ In k l.
Proof.
  intros Hnd Hlt Hlen.
  destruct (existsb (fun k => negb (mem k l)) (seq 0 n)) eqn:E.
  - apply existsb_exists in E as [k [Hk Hm]].
    exists k. split; [apply in_seq_lt, Hk |].
    apply mem_false. now destruct (mem k l).
  - exfalso.
    assert (Hincl : incl (seq 0 n) l).
    { intros k Hk. apply mem_In. destruct (mem k l) eqn:Em; [reflexivity |].
      assert (existsb (fun k => negb (mem k l)) (seq 0 n) = true) as C.
      { apply existsb_exists. exists k. now rewrite Em. }
      congruence. }
    pose proof (NoDup_incl_length (seq_NoDup n 0) Hincl) as Hle.
    rewrite length_seq in Hle. lia.
Qed.
Module CrossoverFacts.
Import Crossover.

Lemma findNearestCity_In fromCity cands dm :
  cands <> [] -> In (findNearestCity fromCity cands dm) cands.
Proof.
  destruct cands as [|c0 rest]; [congruence | intros _].
  unfold findNearestCity.
  assert (Hgen : forall l acc, incl l (c0 :: rest) -> In (fst acc) (c0 :: rest) ->
    In (fst (fold_left (fun (acc : nat * Z) c =>
                          let d := dm fromCity c in
                          if (d <? snd acc)%Z then (c, d) else acc) l acc)) (c0 :: rest)).
  { induction l as [|x l IH]; intros acc Hincl Hacc; simpl; [exact Hacc |].
    apply IH; [intros y Hy; apply Hincl; now right |].
    destruct (dm fromCity x <? snd acc)%Z; [apply Hincl; now left | exact Hacc]. }
  apply Hgen; [apply incl_refl | now left].
Qed.

Lemma findNeighbors_In x c gs dir : In x (findNeighbors c gs dir) -> In x gs.
Proof.
  unfold findNeighbors.
  destruct (nth_error gs _) eqn:E; simpl; [| tauto].
  intros [<- | []]. eapply nth_error_In; eauto.
Qed.

Lemma bhx_loop_spec n p1 p2 dm dir :
  (forall x, In x p1 -> x < n) -> (forall x, In x p2 -> x < n) ->
  forall fuel cur visited offspring,
  NoDup offspring -> (forall x, In x offspring -> x < n) ->
  (forall x, In x visited <-> In x offspring) ->
  length offspring <= n -> n <= length offspring + fuel ->
  let res := bhx_loop fuel n p1 p2 dm dir cur visited offspring in
  NoDup res /\ (forall x, In x res -> x < n) /\ length res = n.
Proof.
  intros H1 H2 fuel. induction fuel as [|fuel IH];
    intros cur visited offspring Hnd Hlt Hvis Hle Hfuel; cbn [bhx_loop].
  - repeat split; auto. lia.
  - destruct (Nat.ltb_spec (length offspring) n) as [Hl|Hl]; [| repeat split; auto; lia].
    assert (Step : forall nx, nx < n -> ~ In nx visited ->
      let res := bhx_loop fuel n p1 p2 dm dir nx (nx :: visited) (offspring ++ [nx]) in
      NoDup res /\ (forall x, In x res -> x < n) /\ length res = n).
    { intros nx Hnx Hnv. apply IH.
      - apply Permutation_NoDup with (l := nx :: offspring);
          [apply Permutation_cons_append | constructor; [rewrite <- Hvis; exact Hnv | exact Hnd]].
      - intros x Hx. apply in_app_or in Hx as [Hx | [<- | []]]; auto.
      - intros x. simpl. rewrite Hvis, in_app_iff. simpl. tauto.
      - rewrite length_app. simpl. lia.
      - rewrite length_app. simpl. lia. }
    remember (filter (fun c => negb (mem c visited))
                (findNeighbors cur p1 dir ++ findNeighbors cur p2 dir)) as unv eqn:U.
    remember (filter (fun c => negb (mem c visited)) (seq 0 n)) as rem eqn:R.
    destruct unv as [|u us].
    + destruct rem as [|r rs].
      * exfalso. destruct (missing_city offspring n Hnd Hlt Hl) as [k [Hk Hnk]].
        assert (Hin : In k (filter (fun c => negb (mem c visited)) (seq 0 n))).
        { apply filter_In. split; [apply in_seq_lt, Hk |].
          apply negb_true_iff, mem_false. rewrite Hvis. exact Hnk. }
        rewrite <- R in Hin. destruct Hin.
      * set (nx := findNearestCity cur (r :: rs) dm).
        assert (Hin : In nx (filter (fun c => negb (mem c visited)) (seq 0 n)))
          by (rewrite <- R; apply findNearestCity_In; discriminate).
        apply filter_In in Hin as [Hs Hm].
        apply Step; [apply in_seq_lt, Hs |].
        apply mem_false. now destruct (mem _ visited).
    + set (nx := findNearestCity cur (u :: us) dm).
      assert (Hin : In nx (filter (fun c => negb (mem c visited))
                             (findNeighbors cur p1 dir ++ findNeighbors cur p2 dir)))
        by (rewrite <- U; apply findNearestCity_In; discriminate).
      apply filter_In in Hin as [Hs Hm].
      apply Step.
      * apply in_app_or in Hs as [Hs | Hs];
          [apply H1 | apply H2]; eapply findNeighbors_In; eauto.
      * apply mem_false. now destruct (mem _ visited).
Qed.

Lemma bhx_result_perm n p1 p2 dm r_dir r_start c :
  Permutation (genes p1) (seq 0 n) -> Permutation (genes p2) (seq 0 n) ->
  bidirectionalHeuristicCrossover p1 p2 dm r_dir r_start = Ok c ->
  Permutation (genes c) (seq 0 n).
Proof.
  intros P1 P2. unfold bidirectionalHeuristicCrossover.
  destruct (nth_error (genes p1) _) as [start|] eqn:E; [| discriminate].
  intros H. injection H as <-. cbn [genes].
  assert (Hn : length (genes p1) = n)
    by (rewrite (Permutation_length P1); apply length_seq).
  assert (Hb : forall x, In x (genes p1) -> x < n)
    by (intros x Hx; apply in_seq_lt, (Permutation_in _ P1 Hx)).
  assert (Hb2 : forall x, In x (genes p2) -> x < n)
    by (intros x Hx; apply in_seq_lt, (Permutation_in _ P2 Hx)).
  assert (Hs : start < n) by (apply Hb; eapply nth_error_In; eauto).
  destruct (bhx_loop_spec n (genes p1) (genes p2) dm
              (if Qle_bool (1 # 2) r_dir then Counterclockwise else Clockwise)
              Hb Hb2 n start [start] [start]) as [Hnd [Hlt Hlen]].
  - constructor; [intros [] | constructor].
  - intros x [<- | []]; exact Hs.
  - tauto.
  - simpl. lia.
  - simpl. lia.
  - rewrite Hn. apply NoDup_Permutation_bis; [exact Hnd | rewrite Hlen, length_seq; lia |].
    intros x Hx. apply in_seq_lt, Hlt, Hx.
Qed.

Lemma bhx_returns n p1 p2 dm r_dir r_start :
  Permutation (genes p1) (seq 0 n) -> 1 <= n -> (0 <= r_start < 1)%Q ->
  exists c, bidirectionalHeuristicCrossover p1 p2 dm r_dir r_start = Ok c.
Proof.
  intros P1 Hn [R0 R1]. unfold bidirectionalHeuristicCrossover.
  assert (Hlen : length (genes p1) = n)
    by (rewrite (Permutation_length P1); apply length_seq).
  destruct (floor_mul_range r_start (length (genes p1)) R0 R1) as [F0 F1]; [lia |].
  destruct (nth_error (genes p1) _) eqn:E; [eexists; reflexivity |].
  exfalso. apply nth_error_None in E. lia.
Qed.

End CrossoverFacts.

Module JumpingGeneFacts.
Import JumpingGene.

Lemma split_by_mask_perm mask gs :
  length mask = length gs ->
  Permutation (fst (split_by_mask mask gs) ++ snd (split_by_mask mask gs)) gs.
Proof.
  revert mask. induction gs as [|g gt IH]; intros [|m ms] Hl; simpl in *; try lia.
  - constructor.
  - specialize (IH ms ltac:(lia)).
    destruct (split_by_mask ms gt) as [ex re]. simpl in *.
    destruct (Nat.eqb m 1); simpl.
    + now constructor.
    + rewrite <- Permutation_middle. now constructor.
Qed.

Lemma nodup_app_disjoint (l1 l2 : list nat) x :
  NoDup (l1 ++ l2) -> In x l1 -> ~ In x l2.
Proof.
  induction l1 as [|y l1 IH]; simpl; [tauto |].
  intros Hnd [<- | Hx].
  - inversion Hnd as [|? ? Hni]; subst. intros Hy. apply Hni, in_or_app. now right.
  - inversion Hnd; subst. now apply IH.
Qed.

Lemma filter_keep_all (f : nat -> bool) l :
  (forall x, In x l -> f x = true) -> filter f l = l.
Proof.
  induction l as [|x l IH]; intros H; simpl; [reflexivity |].
  rewrite (H x (or_introl eq_refl)), IH; auto. intros y Hy; apply H; now right.
Qed.

Lemma jumpingGene_perm chromosome PJG q r_apply r_mask r_insert :
  NoDup (genes chromosome) ->
  Permutation (genes (jumpingGeneOperator chromosome PJG q r_apply r_mask r_insert))
              (genes chromosome).
Proof.
  intros Hnd. unfold jumpingGeneOperator.
  destruct (negb (Qle_bool r_apply PJG)); [reflexivity |].
  set (gs := genes chromosome).
  set (mask := map _ (seq 0 (length gs))).
  assert (Hml : length mask = length gs) by (unfold mask; now rewrite length_map, length_seq).
  pose proof (split_by_mask_perm mask gs Hml) as Hp.
  destruct (split_by_mask mask gs) as [ex re]. simpl in Hp |- *.
  set (k := Z.min q (Z.of_nat (length ex))).
  set (seg := js_slice_to ex k). set (left := js_slice_from ex k).
  assert (Hex : seg ++ left = ex) by apply js_slice_to_from.
  assert (Hnd' : NoDup (ex ++ re)) by (eapply Permutation_NoDup; [symmetry; exact Hp | exact Hnd]).
  assert (Hf : filter (fun g => negb (mem g seg)) re = re).
  { apply filter_keep_all. intros x Hx. apply negb_true_iff, mem_false.
    intros Hs. apply (nodup_app_disjoint ex re x Hnd'); [| exact Hx].
    rewrite <- Hex. apply in_or_app. now left. }
  rewrite Hf.
  set (fr := re ++ left).
  set (p := floor_mul r_insert (length fr + 1)).
  rewrite Permutation_app_swap_app, js_slice_to_from.
  unfold fr. rewrite <- Hp, <- Hex, <- app_assoc.
  apply Permutation_app_head, Permutation_app_comm.
Qed.

End JumpingGeneFacts.

Module DistanceFacts.
Import Distance.
Local Open Scope R_scope.

Definition mat_of (g : nat -> nat -> R) (n : nat) : list (list R) :=
  map (fun a => map (g a) (seq 0 n)) (seq 0 n).

Definition upd (g : nat -> nat -> R) (i j : nat) (v : R) : nat -> nat -> R :=
  fun a b => if Nat.eqb a i && Nat.eqb b j then v else g a b.

Lemma list_set_map_seq {A} (h : nat -> A) s len j v :
  (j < len)%nat ->
  list_set (map h (seq s len)) j v
  = map (fun b => if Nat.eqb b (s + j) then v else h b) (seq s len).
Proof.
  revert s j. induction len as [|len IH]; intros s j Hj; [lia |].
  destruct j as [|j]; simpl.
  - rewrite Nat.add_0_r, Nat.eqb_refl. f_equal.
    apply map_ext_in. intros b Hb. apply in_seq in Hb.
    destruct (Nat.eqb_spec b s); [lia | reflexivity].
  - destruct (Nat.eqb_spec s (s + S j)); [lia |].
    f_equal. rewrite IH by lia. apply map_ext. intros b.
    now replace (S s + j)%nat with (s + S j)%nat by lia.
Qed.

Lemma nth_map_seq {A} (h : nat -> A) n a d :
  (a < n)%nat -> nth a (map h (seq 0 n)) d = h a.
Proof.
  intros Ha. rewrite nth_indep with (d' := h 0%nat) by (rewrite length_map, length_seq; lia).
  rewrite map_nth, seq_nth by lia. reflexivity.
Qed.

Lemma set2_mat_of g n i j v :
  (i < n)%nat -> (j < n)%nat -> set2 (mat_of g n) i j v = mat_of (upd g i j v) n.
Proof.
  intros Hi Hj. unfold set2, mat_of.
  rewrite nth_map_seq by exact Hi.
  rewrite list_set_map_seq with (h := g i) by exact Hj.
  rewrite list_set_map_seq by exact Hi. simpl.
  apply map_ext. intros a. unfold upd.
  destruct (Nat.eqb_spec a i) as [->|Hne]; simpl; [reflexivity |].
  reflexivity.
Qed.

Lemma mat_of_ext g g' n :
  (forall a b, (a < n)%nat -> (b < n)%nat -> g a b = g' a b) -> mat_of g n = mat_of g' n.
Proof.
  intros H. unfold mat_of. apply map_ext_in. intros a Ha. apply in_seq in Ha.
  apply map_ext_in. intros b Hb. apply in_seq in Hb. apply H; lia.
Qed.

Definition D (cities : list City) (i j : nat) : R :=
  calculateDistance (nth i cities noCity) (nth j cities noCity).

Definition rowStep (cities : list City) (i : nat) (g : nat -> nat -> R) (j : nat) :=
  upd (upd g i j (D cities i j)) j i (D cities i j).

Lemma buildRow_mat_of cities n i g :
  (i < n)%nat ->
  buildRow cities n i (mat_of g n)
  = mat_of (fold_left (rowStep cities i) (seq (S i) (n - S i)) g) n.
Proof.
  intros Hi. unfold buildRow.
  assert (Hgen : forall js g, (forall j, In j js -> (j < n)%nat) ->
    fold_left (fun m j =>
                 let dist := calculateDistance (nth i cities noCity) (nth j cities noCity) in
                 set2 (set2 m i j dist) j i dist) js (mat_of g n)
    = mat_of (fold_left (rowStep cities i) js g) n).
  { induction js as [|j js IH]; intros g0 Hjs; simpl; [reflexivity |].
    rewrite !set2_mat_of by (try exact Hi; apply Hjs; now left).
    apply IH. intros k Hk. apply Hjs. now right. }
  apply Hgen. intros j Hj. apply in_seq in Hj. lia.
Qed.

Lemma rowStep_fold cities i js g a b :
  (forall j, In j js -> (i < j)%nat) ->
  fold_left (rowStep cities i) js g a b =
  if Nat.eqb a i && mem b js then D cities i b
  else if Nat.eqb b i && mem a js then D cities i a
  else g a b.
Proof.
  revert g. induction js as [|j js IH]; intros g Hjs; simpl.
  - now rewrite !andb_false_r.
  - rewrite IH by (intros k Hk; apply Hjs; now right).
    assert (Hij : (i < j)%nat) by (apply Hjs; now left).
    unfold rowStep, upd.
    destruct (Nat.eqb_spec a i), (Nat.eqb_spec b i), (Nat.eqb_spec a j), (Nat.eqb_spec b j);
      subst; simpl; try lia;
      repeat match goal with
             | |- context [mem ?x ?l] => destruct (mem x l)
             end; simpl; reflexivity.
Qed.

Definition target (cities : list City) (k a b : nat) : R :=
  if (a <? b)%nat && (a <? k)%nat then D cities a b
  else if (b <? a)%nat && (b <? k)%nat then D cities b a
  else 0.

Lemma outer_fold cities n k :
  (k <= n)%nat ->
  forall a b, (a < n)%nat -> (b < n)%nat ->
  fold_left (fun g i => fold_left (rowStep cities i) (seq (S i) (n - S i)) g)
            (seq 0 k) (fun _ _ => 0) a b = target cities k a b.
Proof.
  induction k as [|k IH]; intros Hk a b Ha Hb.
  - unfold target. simpl. now rewrite !andb_false_r.
  - rewrite seq_S, fold_left_app. simpl.
    rewrite rowStep_fold by (intros j Hj; apply in_seq in Hj; lia).
    rewrite IH by lia. unfold target.
    assert (Hm : forall c, mem c (seq (S k) (n - S k)) = ((k <? c) && (c <? n))%nat).
    { intros c. destruct (mem c _) eqn:E.
      - apply mem_In, in_seq in E. symmetry. apply andb_true_iff.
        split; apply Nat.ltb_lt; lia.
      - apply mem_false in E. symmetry. apply andb_false_iff.
        destruct (Nat.ltb_spec k c), (Nat.ltb_spec c n); auto.
        exfalso. apply E, in_seq. lia. }
    rewrite !Hm.
    destruct (Nat.eqb_spec a k), (Nat.eqb_spec b k), (Nat.ltb_spec a b), (Nat.ltb_spec b a),
             (Nat.ltb_spec a k), (Nat.ltb_spec b k), (Nat.ltb_spec a (S k)),
             (Nat.ltb_spec b (S k)), (Nat.ltb_spec k a), (Nat.ltb_spec k b),
             (Nat.ltb_spec a n), (Nat.ltb_spec b n);
      subst; simpl; try lia; reflexivity.
Qed.

Lemma buildDistanceMatrix_mat_of cities :
  buildDistanceMatrix cities
  = mat_of (target cities (length cities)) (length cities).
Proof.
  unfold buildDistanceMatrix. set (n := length cities).
  assert (Hinit : repeat (repeat 0 n) n = mat_of (fun _ _ => 0) n).
  { unfold mat_of. cbv beta. rewrite !map_const, !length_seq. reflexivity. }
  rewrite Hinit.
  assert (Hgen : forall k g, (k <= n)%nat ->
    fold_left (fun m i => buildRow cities n i m) (seq 0 k) (mat_of g n)
    = mat_of (fold_left (fun g i => fold_left (rowStep cities i) (seq (S i) (n - S i)) g)
                        (seq 0 k) g) n).
  { induction k as [|k IH]; intros g Hk; [reflexivity |].
    rewrite seq_S, !fold_left_app, IH by lia. simpl.
    apply buildRow_mat_of. lia. }
  rewrite Hgen by lia. apply mat_of_ext. intros a b Ha Hb.
  apply outer_fold; lia.
Qed.

Lemma entry_mat_of g n a b :
  (a < n)%nat -> (b < n)%nat -> entry (mat_of g n) a b = g a b.
Proof.
  intros Ha Hb. unfold entry, mat_of. rewrite !nth_map_seq by assumption. reflexivity.
Qed.

Lemma calculateDistance_sym c1 c2 : calculateDistance c1 c2 = calculateDistance c2 c1.
Proof.
  unfold calculateDistance. f_equal. ring.
Qed.

End DistanceFacts.

Module TwoOptFacts.
Import TwoOpt.

Section Sym.
Variable dm : DistanceMatrix.

(** Length of an open path. *)
Fixpoint plen (l : list nat) : Z :=
  match l with
  | a :: ((b :: _) as t) => (dm a b + plen t)%Z
  | _ => 0%Z
  end.

Lemma fold_add_ext (f g : nat -> Z) (l : list nat) (acc : Z) :
  (forall i, In i l -> f i = g i) ->
  fold_left (fun acc i => Z.add acc (f i)) l acc =
  fold_left (fun acc i => Z.add acc (g i)) l acc.
Proof.
  revert acc; induction l as [| x l IH]; intros acc H; simpl; [reflexivity |].
  rewrite (H x) by (left; reflexivity). apply IH. intros i Hi. apply H. now right.
Qed.

Lemma fold_add_acc (f : nat -> Z) (l : list nat) (acc : Z) :
  fold_left (fun acc i => Z.add acc (f i)) l acc =
  (acc + fold_left (fun acc i => Z.add acc (f i)) l 0)%Z.
Proof.
  revert acc; induction l as [| x l IH]; intros acc; simpl; [lia |].
  rewrite (IH (acc + f x)%Z), (IH (f x)). lia.
Qed.

Lemma fold_add_map (f : nat -> Z) (h : nat -> nat) (l : list nat) (acc : Z) :
  fold_left (fun acc i => Z.add acc (f i)) (map h l) acc =
  fold_left (fun acc i => Z.add acc (f (h i))) l acc.
Proof.
  revert acc; induction l as [| x l IH]; intros acc; simpl; [reflexivity | apply IH].
Qed.

Lemma fold_add_lower (f : nat -> Z) (m : Z) (l : list nat) (acc : Z) :
  (forall i, In i l -> (m <= f i)%Z) ->
  (acc + Z.of_nat (length l) * m <= fold_left (fun acc i => Z.add acc (f i)) l acc)%Z.
Proof.
  revert acc; induction l as [| x l IH]; intros acc H; cbn [fold_left length]; [lia |].
  specialize (IH (acc + f x)%Z (fun i Hi => H i (or_intror Hi))).
  specialize (H x (or_introl eq_refl)). lia.
Qed.

Lemma plen_fold (g : list nat) :
  fold_left (fun acc i => Z.add acc (dm (nth i g 0) (nth (S i) g 0)))
            (seq 0 (length g - 1)) 0%Z = plen g.
Proof.
  induction g as [| a t IH]; [reflexivity |].
  destruct t as [| b t']; [reflexivity |].
  replace (length (a :: b :: t') - 1) with (S (length (b :: t') - 1))
    by (simpl; lia).
  rewrite <- cons_seq, <- seq_shift. simpl fold_left.
  rewrite fold_add_map, fold_add_acc.
  change (plen (a :: b :: t')) with (dm a b + plen (b :: t'))%Z.
  rewrite <- IH. reflexivity.
Qed.

Lemma nth_last (l : list nat) (d : nat) : nth (length l - 1) l d = last l d.
Proof.
  induction l as [| a t IH]; [reflexivity |].
  destruct t as [| b t']; [reflexivity |].
  replace (length (a :: b :: t') - 1) with (S (length (b :: t') - 1))
    by (simpl; lia).
  transitivity (nth (length (b :: t') - 1) (b :: t') d); [reflexivity |].
  rewrite IH. reflexivity.
Qed.

Lemma cyc_plen (g : list nat) :
  g <> [] ->
  calculateDistanceWithMatrix g dm = (plen g + dm (last g 0%nat) (hd 0%nat g))%Z.
Proof.
  intros Hg. unfold calculateDistanceWithMatrix. cbv zeta.
  destruct (length g) as [| m] eqn:En; [destruct g; [congruence | discriminate] |].
  rewrite seq_S, fold_left_app. cbn [fold_left]. rewrite fold_add_acc.
  replace ((0 + m + 1) mod S m) with 0
    by (rewrite Nat.add_0_l, Nat.add_1_r, Nat.Div0.mod_same; reflexivity).
  replace (nth (0 + m) g 0) with (last g 0) by (rewrite <- nth_last, En; f_equal; lia).
  rewrite (fold_add_ext _ (fun i => dm (nth i g 0) (nth (S i) g 0))).
  - rewrite <- plen_fold. replace (length g - 1) with m by lia.
    replace (nth 0 g 0) with (hd 0 g) by (destruct g; reflexivity).
    cbv beta. lia.
  - intros i Hi. apply in_seq in Hi. rewrite Nat.mod_small by lia.
    rewrite Nat.add_1_r. reflexivity.
Qed.

Lemma last_app_ne (A B : list nat) (d : nat) :
  B <> [] -> last (A ++ B) d = last B d.
Proof.
  intros HB. induction A as [| a t IH]; [reflexivity |].
  simpl. rewrite <- IH.
  destruct (t ++ B) eqn:E; [destruct t, B; simpl in E; congruence | reflexivity].
Qed.

Lemma hd_app_ne (A B : list nat) (d : nat) : A <> [] -> hd d (A ++ B) = hd d A.
Proof. destruct A; [congruence | reflexivity]. Qed.

Lemma last_rev (l : list nat) (d : nat) : last (rev l) d = hd d l.
Proof. destruct l as [| a t]; [reflexivity |]. simpl. apply last_last. Qed.

Lemma hd_rev (l : list nat) (d : nat) : hd d (rev l) = last l d.
Proof.
  induction l as [| a l _] using rev_ind; [reflexivity |].
  rewrite rev_app_distr, last_last. reflexivity.
Qed.

Lemma plen_app (A B : list nat) :
  A <> [] -> B <> [] ->
  plen (A ++ B) = (plen A + dm (last A 0%nat) (hd 0%nat B) + plen B)%Z.
Proof.
  intros HA HB. induction A as [| a t IH]; [congruence |].
  destruct t as [| b t'].
  - destruct B as [| c B']; [congruence |].
    change (plen (a :: c :: B')) with (dm a c + plen (c :: B'))%Z.
    simpl last. simpl hd. simpl plen. lia.
  - change (plen ((a :: b :: t') ++ B)) with (dm a b + plen ((b :: t') ++ B))%Z.
    change (plen (a :: b :: t')) with (dm a b + plen (b :: t'))%Z.
    change (last (a :: b :: t') 0%nat) with (last (b :: t') 0%nat).
    rewrite IH by discriminate. lia.
Qed.

Hypothesis dm_sym : forall a b, dm a b = dm b a.

Lemma plen_rev (l : list nat) : plen (rev l) = plen l.
Proof.
  induction l as [| a t IH]; [reflexivity |].
  destruct t as [| b t']; [reflexivity |].
  change (rev (a :: b :: t')) with (rev (b :: t') ++ [a]).
  rewrite plen_app.
  - rewrite IH, last_rev. simpl hd.
    change (plen (a :: b :: t')) with (dm a b + plen (b :: t'))%Z.
    rewrite (dm_sym b a). simpl plen. lia.
  - intros E. apply (f_equal (@length nat)) in E. rewrite length_rev in E. discriminate.
  - discriminate.
Qed.

Lemma reverseSegment_split (g : list nat) (i j : nat) :
  i < j < length g ->
  exists A M C, g = A ++ M ++ C /\ length A = S i /\ length M = j - i /\
                reverseSegment g i j = A ++ rev M ++ C.
Proof.
  intros Hij.
  exists (firstn (S i) g), (firstn (j - i) (skipn (S i) g)), (skipn (S j) g).
  split; [| split; [| split]].
  - rewrite <- (firstn_skipn (S i) g) at 1. f_equal.
    rewrite <- (firstn_skipn (j - i) (skipn (S i) g)) at 1. f_equal.
    rewrite skipn_skipn. f_equal. lia.
  - rewrite length_firstn. lia.
  - rewrite length_firstn, length_skipn. lia.
  - reflexivity.
Qed.

Lemma reverseSegment_length (g : list nat) (i j : nat) :
  i < j < length g -> length (reverseSegment g i j) = length g.
Proof.
  intros Hij. destruct (reverseSegment_split g i j Hij) as (A & M & C & -> & _ & _ & ->).
  rewrite !length_app, length_rev. reflexivity.
Qed.

Lemma reverseSegment_perm (g : list nat) (i j : nat) :
  i < j < length g -> Permutation (reverseSegment g i j) g.
Proof.
  intros Hij. destruct (reverseSegment_split g i j Hij) as (A & M & C & Hg & _ & _ & ->).
  rewrite Hg. apply Permutation_app_head, Permutation_app_tail.
  symmetry. apply Permutation_rev.
Qed.

Lemma nonnil_len (l : list nat) : 0 < length l -> l <> [].
Proof. destruct l; simpl; [lia | discriminate]. Qed.

(** One move changes the cyclic length by [newDist - currentDist]. *)
Lemma reverseSegment_cyc (g : list nat) (i j : nat) :
  i < j < length g ->
  calculateDistanceWithMatrix (reverseSegment g i j) dm =
  (calculateDistanceWithMatrix g dm - currentDist dm (length g) g i j
   + newDist dm (length g) g i j)%Z.
Proof.
  intros Hij.
  destruct (reverseSegment_split g i j Hij) as (A & M & C & Hg & HA & HM & ->).
  unfold currentDist, newDist, gene.
  assert (Ei : nth i g 0 = last A 0).
  { rewrite Hg, app_nth1 by lia. rewrite <- nth_last. f_equal. lia. }
  assert (Ei1 : nth (i + 1) g 0 = hd 0 M).
  { rewrite Hg, app_nth2 by lia. rewrite app_nth1 by lia.
    replace (i + 1 - length A) with 0 by lia. destruct M; reflexivity. }
  assert (Ej : nth j g 0 = last M 0).
  { rewrite Hg, app_nth2 by lia. rewrite app_nth1 by lia.
    rewrite <- nth_last. f_equal. lia. }
  assert (HAn : A <> []) by (apply nonnil_len; lia).
  assert (HMn : M <> []) by (apply nonnil_len; lia).
  assert (HrMn : rev M <> []) by (apply nonnil_len; rewrite length_rev; lia).
  assert (Enext : nth ((j + 1) mod length g) g 0 = hd 0 (C ++ A)).
  { destruct C as [| c C'].
    - assert (Hj : j + 1 = length g) by (rewrite Hg, !length_app; simpl; lia).
      rewrite Hj, Nat.Div0.mod_same, Hg. destruct A; [congruence | reflexivity].
    - assert (Hj : j + 1 < length g) by (rewrite Hg, !length_app; simpl; lia).
      rewrite Nat.mod_small by exact Hj.
      rewrite Hg, app_nth2 by lia. rewrite app_nth2 by lia.
      replace (j + 1 - length A - length M) with 0 by lia. reflexivity. }
  rewrite Ei, Ei1, Ej, Enext. subst g.
  rewrite !cyc_plen by (apply nonnil_len; rewrite !length_app; lia).
  rewrite (plen_app A (M ++ C)), (plen_app A (rev M ++ C))
    by (assumption || (apply nonnil_len; rewrite length_app, ?length_rev; lia)).
  rewrite !hd_app_ne by assumption.
  destruct C as [| c C'].
  - (* [j = n - 1]: the second edge closes the cycle *)
    rewrite !app_nil_r, (last_app_ne A (rev M)), (last_app_ne A M) by assumption.
    rewrite last_rev, hd_rev, plen_rev. simpl hd. lia.
  - rewrite !plen_app
      by (apply nonnil_len; rewrite ?length_app, ?length_rev; simpl; lia).
    rewrite !last_app_ne
      by (apply nonnil_len; rewrite ?length_app, ?length_rev; simpl; lia).
    rewrite last_rev, hd_rev, plen_rev. simpl hd. lia.
Qed.

Lemma fold_left_inv {A B : Type} (P : A -> Prop) (f : A -> B -> A) (l : list B) (a : A) :
  (forall x a, In x l -> P a -> P (f a x)) -> P a -> P (fold_left f l a).
Proof.
  revert a; induction l as [| x l IH]; intros a Hf Ha; simpl; [exact Ha |].
  apply IH; [intros y b Hy; apply Hf; now right | apply Hf; [now left | exact Ha]].
Qed.

(** What one round keeps, relative to the tour [g0] it started from. *)
Definition RoundInv (g0 : list nat) (st : list nat * bool) : Prop :=
  Permutation (fst st) g0 /\
  (snd st = false -> fst st = g0) /\
  (snd st = true -> (calculateDistanceWithMatrix (fst st) dm
                     < calculateDistanceWithMatrix g0 dm)%Z).

Lemma step_inv (g0 : list nat) (i j : nat) (st : list nat * bool) :
  i < j < length g0 -> RoundInv g0 st -> RoundInv g0 (step dm (length g0) i st j).
Proof.
  destruct st as [g b]. intros Hij (Hp & Hf & Ht). simpl in Hp, Hf, Ht.
  assert (Hlen : length g = length g0) by exact (Permutation_length Hp).
  unfold step. destruct (newDist dm (length g0) g i j <? currentDist dm (length g0) g i j)%Z eqn:E.
  - apply Z.ltb_lt in E. rewrite <- Hlen in E.
    assert (Hij' : i < j < length g) by lia.
    pose proof (reverseSegment_cyc g i j Hij') as Hc.
    split; [| split]; simpl.
    + eapply perm_trans; [apply reverseSegment_perm; exact Hij' | exact Hp].
    + discriminate.
    + intros _. destruct b.
      * specialize (Ht eq_refl). lia.
      * specialize (Hf eq_refl). subst g. lia.
  - split; [exact Hp | split; assumption].
Qed.

Lemma sweep_inv (g0 : list nat) : RoundInv g0 (sweep dm (length g0) g0).
Proof.
  unfold sweep. apply fold_left_inv.
  - intros i st Hi Hst. apply in_seq in Hi. apply fold_left_inv; [| exact Hst].
    intros j st' Hj Hst'. apply in_seq in Hj. apply step_inv; [lia | exact Hst'].
  - split; [reflexivity | split; [reflexivity | discriminate]].
Qed.

(** A lower bound of the cyclic length of the rearrangements of [g0]. *)
Definition minEntry (g0 : list nat) : Z :=
  fold_left Z.min (flat_map (fun a => map (dm a) g0) g0) 0%Z.

Lemma fold_min_le (l : list Z) (z : Z) :
  (fold_left Z.min l z <= z)%Z /\ (forall x, In x l -> fold_left Z.min l z <= x)%Z.
Proof.
  revert z; induction l as [| y l IH]; intros z; simpl; [split; [lia | tauto] |].
  destruct (IH (Z.min z y)) as [H1 H2]. split; [lia |].
  intros x [<- | Hx]; [lia | apply H2, Hx].
Qed.

Lemma minEntry_le (g0 : list nat) (a b : nat) :
  In a g0 -> In b g0 -> (minEntry g0 <= dm a b)%Z.
Proof.
  intros Ha Hb. apply fold_min_le. apply in_flat_map. exists a. split; [exact Ha |].
  apply in_map, Hb.
Qed.

Lemma cyc_lower (g0 g : list nat) :
  Permutation g g0 ->
  (Z.of_nat (length g0) * minEntry g0 <= calculateDistanceWithMatrix g dm)%Z.
Proof.
  intros Hp. rewrite <- (Permutation_length Hp). unfold calculateDistanceWithMatrix.
  pose proof (fold_add_lower (fun i => dm (nth i g 0) (nth ((i + 1) mod length g) g 0))
                (minEntry g0) (seq 0 (length g)) 0%Z) as H.
  rewrite length_seq in H. cbv zeta. enough (0 + Z.of_nat (length g) * minEntry g0 <=
    fold_left (fun acc i => Z.add acc (dm (nth i g 0%nat) (nth ((i + 1) mod length g) g 0%nat)))
              (seq 0 (length g)) 0)%Z by lia.
  apply H. intros i Hi. apply in_seq in Hi.
  apply minEntry_le; apply (Permutation_in _ Hp); apply nth_In; [lia |].
  apply Nat.mod_upper_bound. lia.
Qed.

Lemma loop_terminates (g0 : list nat) :
  forall k g, Permutation g g0 ->
  Z.to_nat (calculateDistanceWithMatrix g dm - Z.of_nat (length g0) * minEntry g0) < k ->
  exists r, twoOptLoop k dm (length g0) g = Some r.
Proof.
  induction k as [| k IH]; intros g Hp Hk; [lia |].
  simpl. rewrite <- (Permutation_length Hp).
  pose proof (sweep_inv g) as (Hp' & Hf & Ht).
  destruct (sweep dm (length g) g) as [g' b] eqn:E. simpl in Hp', Hf, Ht.
  destruct b; [| eauto].
  rewrite (Permutation_length Hp). apply IH.
  - eapply perm_trans; eassumption.
  - specialize (Ht eq_refl). pose proof (cyc_lower g0 g' (perm_trans Hp' Hp)). lia.
Qed.

Lemma fold_step_true (n i : nat) (js : list nat) (st : list nat * bool) :
  snd st = true -> snd (fold_left (step dm n i) js st) = true.
Proof.
  apply (fold_left_inv (fun st => snd st = true)). intros j [g b] _ Hb.
  cbn in Hb. subst b. unfold step.
  destruct (_ <? _)%Z; reflexivity.
Qed.

Lemma inner_false (n i : nat) (js : list nat) :
  forall g b g', fold_left (step dm n i) js (g, b) = (g', false) ->
  b = false /\ g' = g /\
  (forall j, In j js -> (newDist dm n g i j <? currentDist dm n g i j)%Z = false).
Proof.
  induction js as [| j js IH]; intros g b g' H; simpl in H.
  - inversion H; subst. split; [reflexivity | split; [reflexivity | intros ? ?; contradiction]].
  - destruct (newDist dm n g i j <? currentDist dm n g i j)%Z eqn:E.
    + pose proof (fold_step_true n i js (reverseSegment g i j, true) eq_refl) as Ht.
      rewrite H in Ht. discriminate.
    + destruct (IH g b g' H) as (-> & -> & Hj).
      split; [reflexivity | split; [reflexivity |]].
      intros j' [<- | Hj']; [exact E | apply Hj, Hj'].
Qed.

Lemma sweep_false (n : nat) (g g' : list nat) :
  sweep dm n g = (g', false) ->
  g' = g /\ forall i j, i < j < n -> (newDist dm n g i j <? currentDist dm n g i j)%Z = false.
Proof.
  unfold sweep.
  assert (Gen : forall is g b,
    fold_left (fun st i => fold_left (step dm n i) (seq (S i) (n - S i)) st) is (g, b)
      = (g', false) ->
    b = false /\ g' = g /\
    forall i j, In i is -> In j (seq (S i) (n - S i)) ->
      (newDist dm n g i j <? currentDist dm n g i j)%Z = false).
  { induction is as [| i is IH]; intros g0 b H; simpl in H.
    - inversion H; subst. split; [reflexivity | split; [reflexivity | intros ? ?; contradiction]].
    - destruct (fold_left (step dm n i) (seq (S i) (n - S i)) (g0, b)) as [g1 b1] eqn:E1.
      destruct b1.
      + assert (Ht : snd (fold_left (fun st i => fold_left (step dm n i) (seq (S i) (n - S i)) st)
                                    is (g1, true)) = true).
        { apply fold_left_inv; [| reflexivity].
          intros x st _ Hst. apply fold_step_true, Hst. }
        rewrite H in Ht. discriminate.
      + destruct (inner_false n i _ g0 b g1 E1) as (-> & -> & Hi).
        destruct (IH g0 false H) as (_ & -> & Hr).
        split; [reflexivity | split; [reflexivity |]].
        intros i' j [<- | Hi'] Hj; [apply Hi, Hj | apply Hr; assumption]. }
  intros H. destruct (Gen _ g false H) as (_ & -> & Hr). split; [reflexivity |].
  intros i j Hij. apply Hr; apply in_seq; lia.
Qed.

Lemma loop_some (fuel n : nat) (g r : list nat) :
  twoOptLoop fuel dm n g = Some r -> sweep dm n r = (r, false).
Proof.
  revert g; induction fuel as [| fuel IH]; intros g H; simpl in H; [discriminate |].
  destruct (sweep dm n g) as [g' b] eqn:E. destruct b; [exact (IH _ H) |].
  inversion H; subst. destruct (sweep_false n g r E) as [-> _]. exact E.
Qed.

Lemma loop_perm (fuel : nat) (g r : list nat) :
  twoOptLoop fuel dm (length g) g = Some r -> Permutation r g.
Proof.
  revert g; induction fuel as [| fuel IH]; intros g H; simpl in H; [discriminate |].
  pose proof (sweep_inv g) as (Hp & Hf & _).
  destruct (sweep dm (length g) g) as [g' b] eqn:E. simpl in Hp, Hf.
  destruct b.
  - rewrite <- (Permutation_length Hp) in H. exact (perm_trans (IH g' H) Hp).
  - inversion H; subst. exact Hp.
Qed.

End Sym.

End TwoOptFacts.

Module ElitismFacts.
Import Elitism.

Lemma insert_perm (c : Chromosome) (l : list Chromosome) :
  Permutation (insertByDistance c l) (c :: l).
Proof.
  induction l as [| h t IH]; simpl; [reflexivity |].
  destruct (distance c <=? distance h)%Z; [reflexivity |].
  rewrite IH. apply perm_swap.
Qed.

Lemma sort_perm (l : list Chromosome) : Permutation (sortByDistance l) l.
Proof.
  induction l as [| c t IH]; simpl; [reflexivity |].
  rewrite insert_perm, IH. reflexivity.
Qed.

(** The head of the sorted list is a member of minimal distance. *)
Lemma sort_head (l : list Chromosome) :
  l <> [] ->
  exists c t, sortByDistance l = c :: t /\ In c l /\
              forall x, In x l -> (distance c <= distance x)%Z.
Proof.
  induction l as [| a l IH]; intros Hl; [congruence |].
  destruct l as [| b l'].
  - exists a, []. split; [reflexivity | split; [now left |]].
    intros x [<- | []]. lia.
  - destruct (IH ltac:(discriminate)) as (c & t & E & Hc & Hmin).
    simpl sortByDistance in *. rewrite E. simpl insertByDistance.
    destruct (distance a <=? distance c)%Z eqn:D.
    + apply Z.leb_le in D. exists a, (c :: t). split; [reflexivity | split; [now left |]].
      intros x [<- | Hx]; [lia | specialize (Hmin x Hx); lia].
    + apply Z.leb_gt in D. exists c, (insertByDistance a t).
      split; [reflexivity | split; [now right |]].
      intros x [<- | Hx]; [lia | exact (Hmin x Hx)].
Qed.

Lemma bestDistance_min (l : list Chromosome) :
  l <> [] ->
  exists c, bestDistance l = Some (distance c) /\ In c l /\
            forall x, In x l -> (distance c <= distance x)%Z.
Proof.
  intros Hl. destruct (sort_head l Hl) as (c & t & E & Hc & Hmin).
  exists c. unfold bestDistance. rewrite E. auto.
Qed.

(** A population that contains [c] has a best distance at most
    [distance c]. *)
Lemma bestDistance_le (l : list Chromosome) (c : Chromosome) :
  In c l -> exists d, bestDistance l = Some d /\ (d <= distance c)%Z.
Proof.
  intros Hc. assert (Hl : l <> []) by (intros ->; destruct Hc).
  destruct (bestDistance_min l Hl) as (b & E & _ & Hmin).
  exists (distance b). split; [exact E | exact (Hmin c Hc)].
Qed.

Lemma js_slice_to_cons {A} (c : A) (t : list A) (e : nat) :
  1 <= e -> exists u, js_slice_to (c :: t) (Z.of_nat e) = c :: u.
Proof.
  intros He. unfold js_slice_to, js_rel.
  destruct (Z.of_nat e <? 0)%Z eqn:E; [apply Z.ltb_lt in E; lia |].
  rewrite Nat2Z.id. destruct e as [| e']; [lia |].
  simpl length. rewrite Nat.min_comm. simpl. eexists. reflexivity.
Qed.

End ElitismFacts.

Module InitializationFacts.
Import Initialization.

Lemma list_set_length {A} (l : list A) (i : nat) (v : A) :
  length (Distance.list_set l i v) = length l.
Proof.
  revert i; induction l as [| h t IH]; intros [| i]; simpl; auto.
Qed.

Lemma list_set_app_r {A} (X Y : list A) (k : nat) (v : A) :
  length X <= k -> Distance.list_set (X ++ Y) k v = X ++ Distance.list_set Y (k - length X) v.
Proof.
  revert k; induction X as [| h t IH]; intros k Hk; simpl in *.
  - rewrite Nat.sub_0_r. reflexivity.
  - destruct k as [| k]; [lia |]. rewrite IH by lia. reflexivity.
Qed.

Lemma list_set_nth {A} (l : list A) (i : nat) (d : A) :
  Distance.list_set l i (nth i l d) = l.
Proof.
  revert i; induction l as [| h t IH]; intros [| i]; simpl; auto.
  rewrite IH. reflexivity.
Qed.

Lemma list_set_twice {A} (l : list A) (i : nat) (v w : A) :
  Distance.list_set (Distance.list_set l i v) i w = Distance.list_set l i w.
Proof.
  revert i; induction l as [| h t IH]; intros [| i]; simpl; auto.
  rewrite IH. reflexivity.
Qed.

Lemma swap_length (l : list nat) (i j : nat) : length (swap l i j) = length l.
Proof. unfold swap. rewrite !list_set_length. reflexivity. Qed.

(** The exchange of the Fisher-Yates loop, where [j <= i]. *)
Lemma swap_perm (l : list nat) (i j : nat) :
  j <= i < length l -> Permutation (swap l i j) l.
Proof.
  intros Hji. unfold swap.
  destruct (Nat.eq_dec j i) as [-> | Hne].
  { rewrite list_set_twice, list_set_nth. reflexivity. }
  set (a := nth i l 0). set (b := nth j l 0).
  set (l2 := skipn (S j) l).
  assert (Hb : nth_error l j = Some b) by (apply nth_error_nth'; lia).
  assert (Ha : nth_error l2 (i - S j) = Some a).
  { unfold l2. rewrite (nth_error_nth' _ 0) by (rewrite length_skipn; lia).
    rewrite nth_skipn. f_equal. unfold a. f_equal. lia. }
  assert (El : l = firstn j l ++ b :: firstn (i - S j) l2 ++ a :: skipn (S (i - S j)) l2).
  { rewrite (firstn_skipn_middle _ _ Ha). symmetry. exact (firstn_skipn_middle _ _ Hb). }
  set (P := firstn j l) in El. set (Q := firstn (i - S j) l2) in El.
  set (R := skipn (S (i - S j)) l2) in El.
  assert (HP : length P = j) by (unfold P; rewrite length_firstn; lia).
  assert (HQ : length Q = i - S j) by (unfold Q, l2; rewrite length_firstn, length_skipn; lia).
  clearbody a b P Q R l2. rewrite El.
  assert (E1 : Distance.list_set (P ++ b :: Q ++ a :: R) i b = P ++ b :: Q ++ b :: R).
  { rewrite list_set_app_r by lia. f_equal.
    replace (i - length P) with (S (length Q)) by lia. cbn [Distance.list_set]. f_equal.
    rewrite list_set_app_r by lia. rewrite Nat.sub_diag. reflexivity. }
  assert (E2 : Distance.list_set (P ++ b :: Q ++ b :: R) j a = P ++ a :: Q ++ b :: R).
  { rewrite list_set_app_r by lia. rewrite HP, Nat.sub_diag. reflexivity. }
  rewrite E1, E2. apply Permutation_app_head.
  rewrite <- !Permutation_middle. apply perm_swap.
Qed.

Lemma fisherYates_perm (draws : nat -> Q) (i : nat) (gs : list nat) :
  (forall k, 0 <= draws k < 1)%Q -> i < length gs ->
  Permutation (fisherYates draws i gs) gs.
Proof.
  revert gs; induction i as [| i IH]; intros gs Hd Hi; cbn [fisherYates]; [reflexivity |].
  set (j := Z.to_nat (floor_mul (draws (S i)) (S i + 1))).
  assert (Hj : j <= S i).
  { unfold j. pose proof (floor_mul_range (draws (S i)) (S i + 1) (proj1 (Hd (S i))) (proj2 (Hd (S i)))
                      ltac:(lia)).
    lia. }
  rewrite IH by (assumption || (rewrite swap_length; lia)).
  apply swap_perm. lia.
Qed.

(** [generateRandomChromosome(n)] is a permutation of [0..n-1]. *)
Lemma generateRandomChromosome_perm (n : nat) (draws : nat -> Q) :
  (forall k, 0 <= draws k < 1)%Q ->
  Permutation (generateRandomChromosome n draws) (seq 0 n).
Proof.
  intros Hd. unfold generateRandomChromosome.
  destruct n as [| n]; [reflexivity |].
  apply fisherYates_perm; [exact Hd | rewrite length_seq; lia].
Qed.

End InitializationFacts.

Module GAJGHOFacts.

Lemma sort_length (l : list Chromosome) : length (sortByDistance l) = length l.
Proof. exact (Permutation_length (ElitismFacts.sort_perm l)). Qed.

Lemma getPopulation_empty (st : GAJGHO.State) :
  GAJGHO.currentPopulation st = [] ->
  Population.best (GAJGHO.getPopulation st) = None /\
  Population.worst (GAJGHO.getPopulation st) = None /\
  Population.average (GAJGHO.getPopulation st) = None /\
  Population.diversity (GAJGHO.getPopulation st) = None.
Proof.
  intros E. unfold GAJGHO.getPopulation, GAJGHO.calculateDiversity. rewrite E.
  repeat split.
Qed.

Lemma getStats_empty (st : GAJGHO.State) :
  GAJGHO.currentPopulation st = [] -> GAJGHO.getStats st = Throw TypeError.
Proof.
  intros E. unfold GAJGHO.getStats.
  destruct (getPopulation_empty st E) as (-> & _). reflexivity.
Qed.

Lemma getPopulation_nonempty (st : GAJGHO.State) :
  GAJGHO.currentPopulation st <> [] ->
  exists b w a dv,
    Population.best (GAJGHO.getPopulation st) = Some b /\
    Population.worst (GAJGHO.getPopulation st) = Some w /\
    Population.average (GAJGHO.getPopulation st) = Some a /\
    Population.diversity (GAJGHO.getPopulation st) = Some dv.
Proof.
  intros E. unfold GAJGHO.getPopulation, GAJGHO.calculateDiversity, divideByCount.
  cbn [Population.best Population.worst Population.average Population.diversity].
  assert (Hl : length (GAJGHO.currentPopulation st) <> 0)
    by (destruct (GAJGHO.currentPopulation st); [congruence | discriminate]).
  rewrite sort_length. apply Nat.eqb_neq in Hl. rewrite Hl.
  apply Nat.eqb_neq in Hl.
  destruct (nth_error (sortByDistance (GAJGHO.currentPopulation st)) 0) as [b |] eqn:Eb.
  2:{ apply nth_error_None in Eb. rewrite sort_length in Eb. lia. }
  destruct (nth_error (sortByDistance (GAJGHO.currentPopulation st))
              (length (GAJGHO.currentPopulation st) - 1)) as [w |] eqn:Ew.
  2:{ apply nth_error_None in Ew. rewrite sort_length in Ew. lia. }
  do 4 eexists. repeat split.
Qed.

Lemma getStats_nonempty (st : GAJGHO.State) :
  GAJGHO.currentPopulation st <> [] -> exists stats, GAJGHO.getStats st = Ok stats.
Proof.
  intros E. unfold GAJGHO.getStats.
  destruct (getPopulation_nonempty st E) as (b & w & a & dv & -> & -> & _). eauto.
Qed.

Lemma initialize_population (draws : nat -> nat -> Q) (st : GAJGHO.State) :
  GAJGHO.currentPopulation (GAJGHO.initialize draws st)
  = map (fun k => Initialization.createChromosome
                    (Initialization.generateRandomChromosome (GAJGHO.cityCount st) (draws k))
                    (GAJGHO.distanceMatrix st))
        (seq 0 (populationSize (GAJGHO.params st))).
Proof. reflexivity. Qed.

Lemma initialize_length (draws : nat -> nat -> Q) (st : GAJGHO.State) :
  length (GAJGHO.currentPopulation (GAJGHO.initialize draws st))
  = populationSize (GAJGHO.params st).
Proof. rewrite initialize_population, length_map, length_seq. reflexivity. Qed.

End GAJGHOFacts.

Module ABCTSPFacts.
Import ABCTSP.

(** The calls that leave the number of food sources unchanged. *)
Definition KeepsCount {A} (m : M A) : Prop :=
  forall s s', outcomeState (m s) = Some s' ->
               length (foodSources s') = length (foodSources s).

Lemma bind_normal {A B} (m : M A) (k : A -> M B) s b s'' :
  bind m k s = Normal (b, s'') ->
  exists a s', m s = Normal (a, s') /\ k a s' = Normal (b, s'').
Proof.
  unfold bind. destruct (m s) as [[a s'] | e s' |]; try discriminate. eauto.
Qed.

Lemma keeps_bind {A B} (m : M A) (k : A -> M B) :
  KeepsCount m -> (forall a, KeepsCount (k a)) -> KeepsCount (bind m k).
Proof.
  intros Hm Hk s s'' H. unfold bind in H.
  destruct (m s) as [[a s'] | e s' |] eqn:E; simpl in H.
  - rewrite (Hk a s' s'' H). apply (Hm s s'). rewrite E. reflexivity.
  - injection H as <-. apply (Hm s s'). rewrite E. reflexivity.
  - discriminate.
Qed.

Lemma keeps_ret {A} (a : A) : KeepsCount (ret a).
Proof. intros s s' H. injection H as <-. reflexivity. Qed.

Lemma keeps_throw {A} e : KeepsCount (@throw A e).
Proof. intros s s' H. injection H as <-. reflexivity. Qed.

Lemma keeps_outOfFuel {A} : KeepsCount (@outOfFuel A).
Proof. intros s s' H. discriminate. Qed.

Lemma keeps_getState : KeepsCount getState.
Proof. intros s s' H. injection H as <-. reflexivity. Qed.

Lemma keeps_getFoodSources : KeepsCount getFoodSources.
Proof. intros s s' H. injection H as <-. reflexivity. Qed.

Lemma keeps_getTrials : KeepsCount getTrials.
Proof. intros s s' H. injection H as <-. reflexivity. Qed.

Lemma keeps_mathRandom : KeepsCount mathRandom.
Proof. intros s s' H. injection H as <-. reflexivity. Qed.

Lemma keeps_modifyTrials f : KeepsCount (modifyTrials f).
Proof. intros s s' H. injection H as <-. reflexivity. Qed.

Lemma keeps_incrGeneration : KeepsCount incrGeneration.
Proof. intros s s' H. injection H as <-. reflexivity. Qed.

Lemma keeps_pushStats x : KeepsCount (pushStats x).
Proof. intros s s' H. injection H as <-. reflexivity. Qed.

Lemma keeps_modifyFoodSources f :
  (forall l, length (f l) = length l) -> KeepsCount (modifyFoodSources f).
Proof. intros Hf s s' H. injection H as <-. apply Hf. Qed.

Lemma keeps_if {A} (b : bool) (m1 m2 : M A) :
  KeepsCount m1 -> KeepsCount m2 -> KeepsCount (if b then m1 else m2).
Proof. destruct b; auto. Qed.

Lemma keeps_forEach l body :
  (forall i, KeepsCount (body i)) -> KeepsCount (forEach l body).
Proof.
  intros Hb. induction l as [| i l IH]; simpl.
  - apply keeps_ret.
  - apply keeps_bind; auto.
Qed.

Create HintDb keeps.
#[export] Hint Resolve keeps_bind keeps_ret keeps_throw keeps_outOfFuel keeps_getState
  keeps_getFoodSources keeps_getTrials keeps_mathRandom keeps_modifyTrials
  keeps_incrGeneration keeps_pushStats keeps_modifyFoodSources keeps_if keeps_forEach
  InitializationFacts.list_set_length GAJGHOFacts.sort_length : keeps.

Ltac keeps_tac :=
  repeat (intros; cbv beta zeta;
          first [ solve [eauto with keeps]
                | apply keeps_bind | apply keeps_if | apply keeps_forEach
                | apply keeps_modifyFoodSources ]).

Lemma keeps_shuffle i gs : KeepsCount (shuffle i gs).
Proof.
  revert gs. induction i as [| i IH]; intros gs; simpl; keeps_tac.
Qed.
#[export] Hint Resolve keeps_shuffle : keeps.

Lemma keeps_createRandomSolution : KeepsCount createRandomSolution.
Proof. unfold createRandomSolution. keeps_tac. Qed.

Lemma keeps_generateNeighborSolution c : KeepsCount (generateNeighborSolution c).
Proof. unfold generateNeighborSolution. keeps_tac. Qed.

Lemma keeps_greedySelect i c : KeepsCount (greedySelect i c).
Proof. unfold greedySelect. keeps_tac. Qed.
#[export] Hint Resolve keeps_createRandomSolution keeps_generateNeighborSolution
  keeps_greedySelect : keeps.

Lemma keeps_employedBeePhase : KeepsCount employedBeePhase.
Proof. unfold employedBeePhase. keeps_tac. Qed.

Lemma keeps_onlookerLoop fuel probabilities t i :
  KeepsCount (onlookerLoop fuel probabilities t i).
Proof.
  revert t i. induction fuel as [| fuel IH]; intros t i; cbn [onlookerLoop];
    (apply keeps_bind; [apply keeps_getFoodSources | intros fs]);
    destruct (t <? length fs); keeps_tac.
Qed.
#[export] Hint Resolve keeps_onlookerLoop : keeps.

Lemma keeps_onlookerBeePhase fuel : KeepsCount (onlookerBeePhase fuel).
Proof. unfold onlookerBeePhase. keeps_tac. Qed.

Lemma keeps_scoutBeePhase : KeepsCount scoutBeePhase.
Proof. unfold scoutBeePhase. keeps_tac. Qed.

Lemma keeps_updateStats : KeepsCount updateStats.
Proof.
  unfold updateStats. keeps_tac.
  intros s; match goal with l : list Chromosome |- _ => destruct l end; keeps_tac.
Qed.

Lemma keeps_getPopulation : KeepsCount getPopulation.
Proof. unfold getPopulation. keeps_tac. Qed.
#[export] Hint Resolve keeps_employedBeePhase keeps_onlookerBeePhase keeps_scoutBeePhase
  keeps_updateStats keeps_getPopulation : keeps.

Lemma keeps_runGeneration fuel : KeepsCount (runGeneration fuel).
Proof. unfold runGeneration. keeps_tac. Qed.


(** The calls that end normally and leave the generation counter as it is. *)
Definition AlwaysNormal {A} (m : M A) : Prop :=
  forall s, exists a s', m s = Normal (a, s') /\ currentGeneration s' = currentGeneration s.

Lemma normal_bind {A B} (m : M A) (k : A -> M B) :
  AlwaysNormal m -> (forall a, AlwaysNormal (k a)) -> AlwaysNormal (bind m k).
Proof.
  intros Hm Hk s. destruct (Hm s) as [a [s' [E G]]].
  destruct (Hk a s') as [b [s'' [E' G']]].
  exists b, s''. unfold bind. rewrite E. split; [exact E' | congruence].
Qed.

Lemma normal_ret {A} (a : A) : AlwaysNormal (ret a).
Proof. intros s. exists a, s. split; reflexivity. Qed.

Lemma normal_getState : AlwaysNormal getState.
Proof. intros s. exists s, s. split; reflexivity. Qed.

Lemma normal_mathRandom : AlwaysNormal mathRandom.
Proof. intros s. eexists _, _. split; reflexivity. Qed.

Lemma normal_shuffle i gs : AlwaysNormal (shuffle i gs).
Proof.
  revert gs. induction i as [| i IH]; intros gs; cbn [shuffle].
  - apply normal_ret.
  - apply normal_bind; [apply normal_mathRandom | intros r; apply IH].
Qed.

Lemma normal_createRandomSolution : AlwaysNormal createRandomSolution.
Proof.
  unfold createRandomSolution.
  apply normal_bind; [apply normal_getState | intros s].
  apply normal_bind; [apply normal_shuffle | intros gs]. apply normal_ret.
Qed.

Lemma replicate_normal {A} (n : nat) (m : M A) :
  AlwaysNormal m ->
  forall s, exists xs s', replicate n m s = Normal (xs, s') /\ length xs = n /\
                          currentGeneration s' = currentGeneration s.
Proof.
  intros Hm. induction n as [| n IH]; intros s.
  - exists [], s. repeat split.
  - destruct (Hm s) as [x [s1 [E1 G1]]]. destruct (IH s1) as [xs [s2 [E2 [L2 G2]]]].
    exists (x :: xs), s2. cbn [replicate]. unfold bind. rewrite E1, E2.
    split; [reflexivity | split; [simpl; lia | congruence]].
Qed.

(** [initialize()] fills [foodSources] with [colonySize] solutions and then
    calls [updateStats()]; the generation counter is not written. *)
Lemma initialize_updateStats s :
  exists s3, length (foodSources s3) = populationSize (params s) / 2 /\
             currentGeneration s3 = currentGeneration s /\
             initialize s = updateStats s3.
Proof.
  destruct (replicate_normal (populationSize (params s) / 2) createRandomSolution
              normal_createRandomSolution s) as [fs [s1 [E [L G]]]].
  exists (mkState (cityCount s1) (distanceMatrix s1) (params s1) (limit s1) fs
                  (repeat 0%Z (populationSize (params s) / 2)) (currentGeneration s1)
                  (stats s1) (random s1)).
  split; [exact L |]. split; [exact G |].
  cbv [initialize bind getState]. rewrite E. cbv [modifyFoodSources modifyTrials]. reflexivity.
Qed.

Lemma updateStats_generation s s' :
  outcomeState (updateStats s) = Some s' -> currentGeneration s' = currentGeneration s.
Proof.
  cbv [updateStats bind modifyFoodSources getFoodSources getState throw pushStats].
  destruct (sortByDistance (foodSources s)); simpl; intros H; injection H as <-; reflexivity.
Qed.

(** [initialize()] leaves [currentGeneration] as it is. *)
Lemma initialize_generation s s' :
  outcomeState (initialize s) = Some s' -> currentGeneration s' = currentGeneration s.
Proof.
  destruct (initialize_updateStats s) as [s3 [_ [G E]]]. rewrite E.
  intros H. rewrite (updateStats_generation _ _ H). exact G.
Qed.

Lemma updateStats_ends s : exists s', outcomeState (updateStats s) = Some s'.
Proof.
  cbv [updateStats bind modifyFoodSources getFoodSources getState].
  destruct (sortByDistance (foodSources s)); eexists; reflexivity.
Qed.

Lemma updateStats_normal s :
  (exists s', updateStats s = Normal (tt, s')) <-> foodSources s <> [].
Proof.
  pose proof (GAJGHOFacts.sort_length (foodSources s)) as L.
  cbv [updateStats bind modifyFoodSources getFoodSources getState].
  destruct (sortByDistance (foodSources s)) as [| c l]; simpl.
  - split; [intros [s' H]; discriminate |].
    intros Hne. destruct (foodSources s); [contradiction | discriminate].
  - split; [intros _ Hnil; rewrite Hnil in L; discriminate |].
    intros _. eexists. reflexivity.
Qed.

(** [initialize()] always ends, with [floor(populationSize / 2)] food
    sources, and ends normally exactly when that number is positive. *)
Lemma initialize_count s :
  exists s', outcomeState (initialize s) = Some s' /\
             length (foodSources s') = populationSize (params s) / 2.
Proof.
  destruct (initialize_updateStats s) as [s3 [L [_ E]]]. rewrite E.
  destruct (updateStats_ends s3) as [s' H]. exists s'. split; [exact H |].
  rewrite <- L. exact (keeps_updateStats s3 s' H).
Qed.

Lemma initialize_normal s :
  (exists s', initialize s = Normal (tt, s')) <-> 2 <= populationSize (params s).
Proof.
  destruct (initialize_updateStats s) as [s3 [L [_ E]]]. rewrite E, updateStats_normal.
  rewrite <- length_zero_iff_nil, L.
  pose proof (Nat.div_small_iff (populationSize (params s)) 2 ltac:(lia)).
  split; intros H'.
  - destruct (Nat.le_gt_cases 2 (populationSize (params s))); [assumption |].
    exfalso. apply H'. apply H. assumption.
  - intros Hz. apply H in Hz. lia.
Qed.


(** [getPopulation()] hands out the (sorted) [foodSources] array itself. *)
Lemma getPopulation_chromosomes s p s' :
  getPopulation s = Normal (p, s') -> Population.chromosomes p = foodSources s'.
Proof.
  cbv [getPopulation bind modifyFoodSources getFoodSources getState ret].
  intros H. injection H as <- <-. reflexivity.
Qed.

Lemma runGeneration_snapshot fuel s p s' :
  runGeneration fuel s = Normal (p, s') -> Population.chromosomes p = foodSources s'.
Proof.
  unfold runGeneration. intros H.
  do 5 (apply bind_normal in H; destruct H as [? [? [_ H]]]).
  exact (getPopulation_chromosomes _ _ _ H).
Qed.

End ABCTSPFacts.

(** Reading a computed check back as a statement about a run. *)
Module ResultFacts.

Lemma ok_of_check {A} (x : Result A) (P : A -> bool) :
  match x with Ok a => P a | Throw _ => false end = true ->
  exists a, x = Ok a /\ P a = true.
Proof. destruct x as [a | e]; [eauto | discriminate]. Qed.

Lemma normal_of_check {A} (x : ABCTSP.Outcome (A * ABCTSP.State))
      (P : A -> ABCTSP.State -> bool) :
  match x with ABCTSP.Normal (a, s) => P a s | _ => false end = true ->
  exists a s, x = ABCTSP.Normal (a, s) /\ P a s = true.
Proof. destruct x as [[a s] | e s |]; [eauto | discriminate ..]. Qed.

Lemma some_of_check {A} (x : option A) :
  match x with Some _ => true | None => false end = true -> exists a, x = Some a /\ True.
Proof. destruct x as [a |]; [eauto | discriminate]. Qed.

End ResultFacts.

Module UniqueFacts.
Import Unique.

Lemma uniqueLoop_length n draws seen i pop :
  length (uniqueLoop n draws seen i pop) = length pop.
Proof.
  revert seen i. induction pop as [|c pop IH]; intros seen i; simpl; [reflexivity |].
  destruct (in_dec _ _ _); simpl; f_equal; apply IH.
Qed.

(** The entry at position [k] of the loop's output: the input entry when
    its genes are neither in [seen] nor among the earlier entries, the
    tour generated at position [i + k] otherwise. *)
Lemma uniqueLoop_nth n draws seen i pop k c :
  nth_error pop k = Some c ->
  (In (genes c) (seen ++ map genes (firstn k pop)) ->
     nth_error (uniqueLoop n draws seen i pop) k =
     Some (mkChromosome (Initialization.generateRandomChromosome n (draws (i + k))) 0 0)) /\
  (~ In (genes c) (seen ++ map genes (firstn k pop)) ->
     nth_error (uniqueLoop n draws seen i pop) k = Some c).
Proof.
  revert seen i k. induction pop as [|h pop IH]; intros seen i k Hk.
  - destruct k; discriminate.
  - destruct k as [|k]; simpl in Hk |- *.
    + injection Hk as <-. rewrite app_nil_r, Nat.add_0_r.
      destruct (in_dec _ _ _); simpl; split; intros; (reflexivity || contradiction).
    + assert (Hseen : forall seen', (forall g, In g seen' <-> In g (seen ++ [genes h])) ->
                forall g, In g (seen' ++ map genes (firstn k pop)) <->
                          In g (seen ++ genes h :: map genes (firstn k pop))).
      { intros seen' E g. rewrite !in_app_iff, E, in_app_iff. simpl. tauto. }
      rewrite <- Nat.add_succ_comm.
      destruct (in_dec _ _ _) as [Hin|Hnin]; simpl.
      * destruct (IH seen (S i) k Hk) as [H1 H2].
        assert (E : forall g, In g (seen ++ map genes (firstn k pop)) <->
                              In g (seen ++ genes h :: map genes (firstn k pop))).
        { apply Hseen. intros g. rewrite in_app_iff. simpl.
          split; [tauto | intros [H|[<-|[]]]; assumption]. }
        split; intros H; [apply H1 | apply H2]; rewrite E; assumption.
      * destruct (IH (genes h :: seen) (S i) k Hk) as [H1 H2].
        assert (E : forall g, In g ((genes h :: seen) ++ map genes (firstn k pop)) <->
                              In g (seen ++ genes h :: map genes (firstn k pop))).
        { apply Hseen. intros g. rewrite in_app_iff. simpl. tauto. }
        split; intros H; [apply H1 | apply H2]; rewrite E; assumption.
Qed.

Lemma calculateFitnessAfterUnique_nth cs dm k c :
  nth_error cs k = Some c ->
  nth_error (calculateFitnessAfterUnique cs dm) k =
  Some (if (fitness c =? 0)%Z then Initialization.createChromosome (genes c) dm else c).
Proof.
  intros Hk. unfold calculateFitnessAfterUnique. rewrite nth_error_map, Hk. reflexivity.
Qed.

Lemma uniqueOperator_repeat5 c n draws :
  uniqueOperator (repeat c 5) n draws =
  c :: map (fun i => mkChromosome (Initialization.generateRandomChromosome n (draws i)) 0 0)
           [1; 2; 3; 4].
Proof.
  unfold uniqueOperator. cbn [repeat uniqueLoop].
  repeat match goal with
         | |- context [in_dec ?d ?x ?l] => destruct (in_dec d x l); cbn [uniqueLoop]
         end;
  try (exfalso; match goal with
                | H : ~ In ?x (?x :: _) |- _ => apply H; left; reflexivity
                | H : In _ [] |- _ => exact H
                end);
  reflexivity.
Qed.

End UniqueFacts.

Module SelectionFacts.
Import Selection.

(** The cumulative sum after the first [k] fitness values. *)
Definition prefixTotal (fitnessValues : list Q) (k : nat) : Q :=
  totalOf (firstn k fitnessValues).

Lemma prefixTotal_S fv i f :
  nth_error fv i = Some f -> prefixTotal fv (S i) = (prefixTotal fv i + f)%Q.
Proof.
  intros Hf. destruct (nth_error_split fv i Hf) as [l1 [l2 [-> Hl]]].
  subst i. unfold prefixTotal, totalOf.
  replace (S (length l1)) with (length l1 + 1) by lia.
  rewrite firstn_app_2, firstn_app, firstn_all, Nat.sub_diag, app_nil_r.
  simpl. rewrite fold_left_app. reflexivity.
Qed.

Lemma prefixTotal_all fv : prefixTotal fv (length fv) = totalOf fv.
Proof. unfold prefixTotal. rewrite firstn_all. reflexivity. Qed.

Lemma spinLoop_spec fv spin fuel i :
  i + fuel <= length fv ->
  match spinLoop fv spin (Some (prefixTotal fv i)) i fuel with
  | Some j => i <= j < i + fuel /\ (spin <= prefixTotal fv (S j))%Q /\
              forall k, i <= k < j -> (prefixTotal fv (S k) < spin)%Q
  | None => forall k, i <= k < i + fuel -> (prefixTotal fv (S k) < spin)%Q
  end.
Proof.
  revert i. induction fuel as [|fuel IH]; intros i Hle; simpl.
  - intros k Hk. lia.
  - destruct (nth_error fv i) as [f|] eqn:Hf;
      [| apply nth_error_None in Hf; lia].
    rewrite <- (prefixTotal_S _ _ _ Hf).
    destruct (Qle_bool spin (prefixTotal fv (S i))) eqn:Hb.
    + apply Qle_bool_iff in Hb. split; [lia | split; [assumption | intros; lia]].
    + assert (Hlt : (prefixTotal fv (S i) < spin)%Q).
      { apply Qnot_le_lt. intros H. apply Qle_bool_iff in H. congruence. }
      specialize (IH (S i) ltac:(lia)).
      destruct (spinLoop fv spin (Some (prefixTotal fv (S i))) (S i) fuel) as [j|].
      * destruct IH as [Hj [Hs Hk]]. split; [lia | split; [assumption |]].
        intros k Hk'. destruct (Nat.eq_dec k i) as [->|]; [assumption | apply Hk; lia].
      * intros k Hk'. destruct (Nat.eq_dec k i) as [->|]; [assumption | apply IH; lia].
Qed.

Lemma prefixTotal_mono fv a b :
  (forall f, In f fv -> 0 <= f)%Q -> a <= b -> (prefixTotal fv a <= prefixTotal fv b)%Q.
Proof.
  intros Hnn Hab. induction Hab as [|b Hab IH]; [apply Qle_refl |].
  eapply Qle_trans; [exact IH |].
  destruct (nth_error fv b) as [f|] eqn:Hf.
  - rewrite (prefixTotal_S _ _ _ Hf).
    rewrite <- (Qplus_0_r (prefixTotal fv b)) at 1.
    apply Qplus_le_compat; [apply Qle_refl | apply Hnn; eapply nth_error_In; eassumption].
  - apply nth_error_None in Hf. unfold prefixTotal.
    rewrite !firstn_all2 by lia. apply Qle_refl.
Qed.

(** With a positive total and as many values as tours, the loop returns
    an index. *)
Lemma spinLoop_found fv spin :
  (0 <= spin)%Q -> (spin < totalOf fv)%Q ->
  exists j, spinLoop fv spin (Some 0%Q) 0 (length fv) = Some j /\
    j < length fv /\ (spin <= prefixTotal fv (S j))%Q /\
    forall k, k < j -> (prefixTotal fv (S k) < spin)%Q.
Proof.
  intros H0 Hs. pose proof (spinLoop_spec fv spin (length fv) 0 ltac:(lia)) as H.
  change (prefixTotal fv 0) with 0%Q in H.
  destruct (spinLoop fv spin (Some 0%Q) 0 (length fv)) as [j|].
  - destruct H as [Hj [H1 H2]]. exists j.
    split; [reflexivity | split; [lia | split; [assumption | intros; apply H2; lia]]].
  - exfalso. destruct (length fv) as [|m] eqn:Hl.
    + destruct fv; [| discriminate].
      exact (Qlt_not_le _ _ Hs H0).
    + specialize (H m ltac:(lia)). rewrite <- Hl, prefixTotal_all in H.
      apply (Qlt_irrefl spin). eapply Qlt_trans; eassumption.
Qed.

End SelectionFacts.

Module OperatorsFacts.
Import Operators.

Lemma length_nodup_ext (l l' : list (list nat)) :
  (forall x, In x l <-> In x l') ->
  length (nodup (list_eq_dec Nat.eq_dec) l) = length (nodup (list_eq_dec Nat.eq_dec) l').
Proof.
  intros E. apply Nat.le_antisymm; apply NoDup_incl_length; try apply NoDup_nodup;
    intros x Hx; apply nodup_In; apply E || apply (proj2 (E x)); apply nodup_In in Hx; exact Hx.
Qed.

Lemma countDuplicatesLoop_spec seen pop :
  NoDup seen ->
  countDuplicatesLoop seen pop +
    length (nodup (list_eq_dec Nat.eq_dec) (seen ++ map genes pop)) =
  length seen + length pop.
Proof.
  revert seen. induction pop as [|c pop IH]; intros seen Hnd; simpl.
  - rewrite app_nil_r, nodup_fixed_point by exact Hnd. lia.
  - destruct (in_dec _ _ _) as [Hin|Hnin].
    + pose proof (IH seen Hnd) as IH'.
      rewrite (length_nodup_ext (seen ++ genes c :: map genes pop) (seen ++ map genes pop)).
      * lia.
      * intros x. rewrite !in_app_iff. simpl. split; [intros [H|[<-|H]] | tauto]; tauto.
    + specialize (IH (genes c :: seen) (NoDup_cons _ Hnin Hnd)).
      rewrite (length_nodup_ext (seen ++ genes c :: map genes pop)
                                ((genes c :: seen) ++ map genes pop)).
      * simpl in IH |- *. lia.
      * intros x. rewrite !in_app_iff. simpl. tauto.
Qed.

Lemma countDuplicates_plus_unique pop :
  countDuplicates pop + uniqueRouteCount pop = length pop.
Proof.
  unfold countDuplicates, uniqueRouteCount.
  pose proof (countDuplicatesLoop_spec [] pop (NoDup_nil _)) as H. simpl in H.
  rewrite ?length_map in *. exact H.
Qed.

Lemma uniqueRouteCount_le pop : uniqueRouteCount pop <= length pop.
Proof. pose proof (countDuplicates_plus_unique pop). lia. Qed.

Lemma uniqueRouteCount_pos pop : pop <> [] -> 0 < uniqueRouteCount pop.
Proof.
  intros Hne. destruct pop as [|c pop]; [congruence |].
  unfold uniqueRouteCount.
  destruct (nodup (list_eq_dec Nat.eq_dec) (map genes (c :: pop))) eqn:E; simpl; [| lia].
  exfalso. assert (H : In (genes c) (nodup (list_eq_dec Nat.eq_dec) (map genes (c :: pop)))).
  { apply nodup_In. left. reflexivity. }
  rewrite E in H. exact H.
Qed.

(** [u / n] of two naturals as one fraction. *)
Lemma div_nat_frac (u n : nat) :
  (inject_Z (Z.of_nat u) / inject_Z (Z.of_nat (S n)) == Z.of_nat u # Pos.of_succ_nat n)%Q.
Proof. unfold Qdiv, Qinv, Qeq. simpl. lia. Qed.






Lemma fitnessMap_fold (L : list (Chromosome * nat)) (f : nat -> Q) m0 :
  fold_left (fun m '(chr, rank) => (genes chr, f rank) :: m) L m0 =
  rev (map (fun e => (genes (fst e), f (snd e))) L) ++ m0.
Proof.
  revert m0. induction L as [|[c r] L IH]; intros m0; simpl; [reflexivity |].
  rewrite IH, <- app_assoc. reflexivity.
Qed.

Lemma buildFitnessMap_eq (sorted : list Chromosome) (f : nat -> Q) :
  buildFitnessMap sorted f =
  rev (map (fun e => (genes (fst e), f (snd e))) (combine sorted (seq 0 (length sorted)))).
Proof. unfold buildFitnessMap. rewrite fitnessMap_fold, app_nil_r. reflexivity. Qed.

Lemma in_combine_seq {A} (l : list A) (c : A) k :
  In c l -> exists r, k <= r < k + length l /\ In (c, r) (combine l (seq k (length l))).
Proof.
  revert k. induction l as [|a l IH]; intros k Hc; [destruct Hc |].
  destruct Hc as [<-|Hc].
  - exists k. split; [simpl; lia | left; reflexivity].
  - destruct (IH (S k) Hc) as [r [Hr Hin]]. exists r. split; [simpl; lia | right; exact Hin].
Qed.

(** Every chromosome of the population finds its key in the map, with the
    value of some rank. *)
Lemma mapGetOrZero_rank (pop : list Chromosome) (f : nat -> Q) (chr : Chromosome) :
  In chr pop ->
  exists r, r < length pop /\
            mapGetOrZero (buildFitnessMap (sortByDistance pop) f) (genes chr) = f r.
Proof.
  intros Hc. unfold mapGetOrZero. rewrite buildFitnessMap_eq.
  set (sorted := sortByDistance pop).
  assert (Hlen : length sorted = length pop) by apply GAJGHOFacts.sort_length.
  set (P := fun e : list nat * Q => if list_eq_dec Nat.eq_dec (fst e) (genes chr) then true else false).
  destruct (find P _) as [[k v]|] eqn:E.
  - apply find_some in E as [Hin _]. apply in_rev, in_map_iff in Hin.
    destruct Hin as [[c r] [Heq Hin]]. injection Heq as _ <-.
    exists r. split; [| reflexivity].
    apply in_combine_r, in_seq in Hin. lia.
  - exfalso.
    assert (Hs : In chr sorted).
    { apply (Permutation_in _ (Permutation_sym (ElitismFacts.sort_perm pop)) Hc). }
    destruct (in_combine_seq sorted chr 0 Hs) as [r [_ Hin]].
    assert (Hm : In (genes chr, f r)
                    (rev (map (fun e => (genes (fst e), f (snd e)))
                              (combine sorted (seq 0 (length sorted)))))).
    { rewrite <- in_rev. apply in_map_iff. exists (chr, r). split; [reflexivity | exact Hin]. }
    pose proof (find_none _ _ E _ Hm) as Hf. unfold P in Hf. simpl in Hf.
    destruct (list_eq_dec _ _ _); congruence.
Qed.


Lemma spinLoop_bound fv spin cum i fuel j :
  Selection.spinLoop fv spin cum i fuel = Some j -> i <= j < i + fuel.
Proof.
  revert cum i. induction fuel as [|fuel IH]; intros cum i H; simpl in H; [discriminate |].
  destruct (match cum, nth_error fv i with Some c, Some f => Some (c + f)%Q | _, _ => None end)
    as [c|].
  - destruct (Qle_bool spin c).
    + injection H as <-. lia.
    + apply IH in H. lia.
  - apply IH in H. lia.
Qed.

(** On a non-empty population and a draw in [0, 1), the wheel returns a
    member, whatever the fitness values. *)
Lemma rouletteWheelSelect_member pop fv r :
  pop <> [] -> (0 <= r < 1)%Q ->
  exists i, i < length pop /\ Selection.rouletteWheelSelect pop fv r = nth_error pop i.
Proof.
  intros Hne [H0 H1].
  assert (HN : 0 < length pop) by (destruct pop; [congruence | simpl; lia]).
  unfold Selection.rouletteWheelSelect.
  destruct (Qeq_bool _ 0).
  - exists (Z.to_nat (floor_mul r (length pop))). split; [| reflexivity].
    pose proof (floor_mul_range r (length pop) H0 H1 HN). lia.
  - destruct (Selection.spinLoop _ _ _ _ _) as [j|] eqn:E.
    + apply spinLoop_bound in E. exists j. split; [lia | reflexivity].
    + exists (length pop - 1). replace (Nat.eqb (length pop) 0) with false
        by (symmetry; apply Nat.eqb_neq; lia).
      split; [lia | reflexivity].
Qed.

Lemma rouletteWheelSelect_empty fv r : Selection.rouletteWheelSelect [] fv r = None.
Proof.
  unfold Selection.rouletteWheelSelect. simpl.
  destruct (Qeq_bool _ 0); [destruct (Z.to_nat _) |]; reflexivity.
Qed.

End OperatorsFacts.
Module OperatorsFacts2.
Import Operators.

Lemma totalOf_pos_acc (l : list Q) (a : Q) :
  (0 < a)%Q -> (forall v, In v l -> 0 < v)%Q -> (0 < fold_left Qplus l a)%Q.
Proof.
  revert a. induction l as [|v l IH]; intros a Ha Hl; simpl; [exact Ha |].
  apply IH; [| intros w Hw; apply Hl; right; exact Hw].
  assert (H : (0 + 0 < a + v)%Q)
    by (apply Qplus_lt_le_compat; [exact Ha | apply Qlt_le_weak, (Hl v (or_introl eq_refl))]).
  exact H.
Qed.

Lemma totalOf_pos (l : list Q) :
  l <> [] -> (forall v, In v l -> 0 < v)%Q -> (0 < Selection.totalOf l)%Q.
Proof.
  destruct l as [|v l]; [congruence | intros _ Hl].
  unfold Selection.totalOf. simpl. apply totalOf_pos_acc; [| intros w Hw; apply Hl; right; exact Hw].
  apply Qlt_le_trans with v; [exact (Hl v (or_introl eq_refl)) |].
  apply Qle_lteq. right. ring.
Qed.

(** The values a fitness map built from ranks gives to the population. *)
Lemma fitness_values_rank (pop : list Chromosome) (f : nat -> Q) (v : Q) :
  In v (map (fun chr => mapGetOrZero (buildFitnessMap (sortByDistance pop) f) (genes chr)) pop) ->
  exists r, r < length pop /\ v = f r.
Proof.
  intros Hv. apply in_map_iff in Hv as [chr [<- Hc]].
  exact (OperatorsFacts.mapGetOrZero_rank pop f chr Hc).
Qed.


End OperatorsFacts2.

Module MutationFacts.
Import Mutation.

Lemma floor_mul_zero r : floor_mul r 0 = 0%Z.
Proof. destruct r as [a b]. unfold floor_mul, Qfloor. simpl. rewrite Z.mul_0_r. reflexivity. Qed.

Lemma floor_pos_lt r n : (0 <= r < 1)%Q -> 0 < n -> Z.to_nat (floor_mul r n) < n.
Proof. intros [H0 H1] Hn. pose proof (floor_mul_range r n H0 H1 Hn). lia. Qed.

Lemma swapRedraw_some fuel n p draw k p2 :
  swapRedraw fuel n p draw k = Some p2 ->
  p2 <> p /\ exists j, k <= j /\ p2 = Z.to_nat (floor_mul (draw j) n).
Proof.
  revert k. induction fuel as [|fuel IH]; intros k H; simpl in H; [discriminate |].
  destruct (Nat.eqb_spec (Z.to_nat (floor_mul (draw k) n)) p).
  - apply IH in H as [Hne [j [Hj ->]]]. split; [exact Hne | exists j; split; [lia | reflexivity]].
  - injection H as <-. split; [exact n0 | exists k; split; [lia | reflexivity]].
Qed.

Lemma swapRedraw_none_iff fuel n p draw k :
  swapRedraw fuel n p draw k = None <->
  (forall j, k <= j < k + fuel -> Z.to_nat (floor_mul (draw j) n) = p).
Proof.
  revert k. induction fuel as [|fuel IH]; intros k; simpl.
  - split; [intros _ j Hj; lia | reflexivity].
  - destruct (Nat.eqb_spec (Z.to_nat (floor_mul (draw k) n)) p) as [E|E].
    + rewrite IH. split.
      * intros H j Hj. destruct (Nat.eq_dec j k) as [->|Hjk]; [exact E | apply H; lia].
      * intros H j Hj. apply H. lia.
    + split; [discriminate | intros H]. exfalso. apply E, H. lia.
Qed.

Lemma nth_list_set_eq {A} (l : list A) i v d :
  i < length l -> nth i (Distance.list_set l i v) d = v.
Proof.
  revert i. induction l as [|a l IH]; intros i Hi; simpl in *; [lia |].
  destruct i as [|i]; [reflexivity | apply IH; lia].
Qed.

Lemma nth_list_set_neq {A} (l : list A) i k v d :
  k <> i -> nth k (Distance.list_set l i v) d = nth k l d.
Proof.
  revert i k. induction l as [|a l IH]; intros i k Hki; simpl; [reflexivity |].
  destruct i as [|i], k as [|k]; try reflexivity; [lia |]. apply IH. lia.
Qed.

Lemma swap_nth (l : list nat) i j k :
  i < length l -> j < length l ->
  nth k (Initialization.swap l i j) 0 =
  if Nat.eqb k j then nth i l 0 else if Nat.eqb k i then nth j l 0 else nth k l 0.
Proof.
  intros Hi Hj. unfold Initialization.swap.
  destruct (Nat.eqb_spec k j) as [->|Hkj].
  - apply nth_list_set_eq. rewrite InitializationFacts.list_set_length. exact Hj.
  - rewrite nth_list_set_neq by exact Hkj.
    destruct (Nat.eqb_spec k i) as [->|Hki].
    + apply nth_list_set_eq. exact Hi.
    + apply nth_list_set_neq. exact Hki.
Qed.

Lemma swap_comm (l : list nat) i j :
  i < length l -> j < length l -> Initialization.swap l i j = Initialization.swap l j i.
Proof.
  intros Hi Hj. apply nth_ext with (d := 0) (d' := 0).
  - rewrite !InitializationFacts.swap_length. reflexivity.
  - intros k _. rewrite !swap_nth by assumption.
    destruct (Nat.eqb_spec k j), (Nat.eqb_spec k i); subst; reflexivity.
Qed.

Lemma swap_perm2 (l : list nat) i j :
  i < length l -> j < length l -> Permutation (Initialization.swap l i j) l.
Proof.
  intros Hi Hj. destruct (Nat.le_gt_cases j i).
  - apply InitializationFacts.swap_perm. lia.
  - rewrite swap_comm by assumption. apply InitializationFacts.swap_perm. lia.
Qed.

Lemma swap_changes (l : list nat) i j :
  NoDup l -> i < length l -> j < length l -> i <> j -> Initialization.swap l i j <> l.
Proof.
  intros Hnd Hi Hj Hij E.
  assert (Hn : nth i (Initialization.swap l i j) 0 = nth j l 0).
  { rewrite swap_nth by assumption.
    destruct (Nat.eqb_spec i j); [lia |]. rewrite Nat.eqb_refl. reflexivity. }
  rewrite E in Hn. apply Hij.
  exact (proj1 (NoDup_nth l 0) Hnd i j Hi Hj Hn).
Qed.

Lemma list_set_app_len (X Y : list nat) a v :
  Distance.list_set (X ++ a :: Y) (length X) v = X ++ v :: Y.
Proof. induction X as [|b X IH]; simpl; [reflexivity | rewrite IH; reflexivity]. Qed.

Lemma swap_decomp (A M C : list nat) x y :
  Initialization.swap (A ++ x :: M ++ y :: C) (length A) (length A + S (length M))
  = A ++ y :: M ++ x :: C.
Proof.
  unfold Initialization.swap.
  assert (Ex : nth (length A) (A ++ x :: M ++ y :: C) 0 = x)
    by (rewrite app_nth2, Nat.sub_diag by lia; reflexivity).
  assert (Ey : nth (length A + S (length M)) (A ++ x :: M ++ y :: C) 0 = y).
  { rewrite app_nth2 by lia. replace (length A + S (length M) - length A) with (S (length M)) by lia.
    simpl. rewrite app_nth2, Nat.sub_diag by lia. reflexivity. }
  rewrite Ex, Ey, list_set_app_len.
  replace (A ++ y :: M ++ y :: C) with ((A ++ y :: M) ++ y :: C)
    by (rewrite <- app_assoc; reflexivity).
  replace (length A + S (length M)) with (length (A ++ y :: M))
    by (rewrite length_app; simpl; lia).
  rewrite list_set_app_len, <- app_assoc. reflexivity.
Qed.

Lemma inverseLoop_spec fuel :
  forall A M C, length M <= 2 * fuel + 1 ->
  inverseLoop fuel (A ++ M ++ C) (length A) (length A + length M - 1) = A ++ rev M ++ C.
Proof.
  induction fuel as [|fuel IH]; intros A M C HM.
  - destruct M as [|x [|y M]]; simpl in *; [reflexivity | reflexivity | lia].
  - cbn [inverseLoop].
    destruct (Nat.ltb_spec (length A) (length A + length M - 1)) as [Hlt|Hge].
    + destruct M as [|x M']; [simpl in Hlt; lia |].
      destruct (@exists_last _ M') as [M'' [y ->]]; [intros ->; simpl in Hlt; lia |].
      cbn [length] in HM, Hlt |- *. rewrite length_app in HM, Hlt |- *. cbn [length] in HM, Hlt |- *.
      replace ((x :: M'' ++ [y]) ++ C) with (x :: M'' ++ y :: C) by (simpl; rewrite <- app_assoc; reflexivity).
      replace (length A + S (length M'' + 1) - 1) with (length A + S (length M'')) by lia.
      rewrite swap_decomp.
      replace (A ++ y :: M'' ++ x :: C) with ((A ++ [y]) ++ M'' ++ x :: C)
        by (rewrite <- app_assoc; reflexivity).
      replace (S (length A)) with (length (A ++ [y])) by (rewrite length_app; simpl; lia).
      replace (length A + S (length M'') - 1) with (length (A ++ [y]) + length M'' - 1)
        by (rewrite length_app; simpl; lia).
      rewrite IH by lia.
      cbn [rev]. rewrite rev_app_distr. cbn. rewrite <- !app_assoc. reflexivity.
    + destruct M as [|x [|y M]]; simpl in *; [reflexivity | reflexivity | lia].
Qed.

Lemma inverseMutation_spec (chromosome : Chromosome) (draw : nat -> Q) :
  (0 <= draw 0%nat < 1)%Q -> (0 <= draw 1%nat < 1)%Q -> 0 < length (genes chromosome) ->
  exists p1 p2, p1 <= p2 < length (genes chromosome) /\
    genes (inverseMutation chromosome draw) =
    firstn p1 (genes chromosome) ++ rev (firstn (S p2 - p1) (skipn p1 (genes chromosome)))
      ++ skipn (S p2) (genes chromosome).
Proof.
  intros H0 H1 Hn. unfold inverseMutation.
  remember (genes chromosome) as gs eqn:Egs. clear Egs.
  pose proof (floor_pos_lt (draw 0) (length gs) H0 Hn) as L0.
  pose proof (floor_pos_lt (draw 1) (length gs) H1 Hn) as L1.
  set (p1 := Z.to_nat (floor_mul (draw 0) (length gs))) in *.
  set (p2 := Z.to_nat (floor_mul (draw 1) (length gs))) in *.
  assert (Hab : exists a b, (if Nat.ltb p2 p1 then (p2, p1) else (p1, p2)) = (a, b) /\
                            a <= b < length gs)
    by (destruct (Nat.ltb_spec p2 p1); eexists _, _; split; [reflexivity | lia | reflexivity | lia]).
  destruct Hab as [a [b [-> Hab]]]. exists a, b. split; [exact Hab |]. simpl genes.
  set (A := firstn a gs). set (M := firstn (S b - a) (skipn a gs)). set (C := skipn (S b) gs).
  assert (E : gs = A ++ M ++ C).
  { unfold A, M, C. rewrite <- (firstn_skipn a gs) at 1. f_equal.
    rewrite <- (firstn_skipn (S b - a) (skipn a gs)) at 1. f_equal.
    rewrite skipn_skipn. f_equal. lia. }
  assert (LA : length A = a) by (unfold A; rewrite length_firstn; lia).
  assert (LM : length M = S b - a) by (unfold M; rewrite length_firstn, length_skipn; lia).
  transitivity (inverseLoop (length gs) (A ++ M ++ C) (length A) (length A + length M - 1)).
  - rewrite <- E. f_equal; lia.
  - apply inverseLoop_spec. lia.
Qed.

(** Which positions the loop of [heuristicMutation] considers. *)
Definition heurEligible (gs : list nat) (n pos1 city1 i : nat) : bool :=
  negb (Nat.eqb (nth i gs 0) city1) &&
  negb (Nat.eqb i ((pos1 + n - 1) mod n) || Nat.eqb i ((pos1 + 1) mod n)).

Lemma heurEligible_true gs n pos1 city1 i :
  heurEligible gs n pos1 city1 i = true <->
  nth i gs 0 <> city1 /\ i <> (pos1 + n - 1) mod n /\ i <> (pos1 + 1) mod n.
Proof.
  unfold heurEligible. rewrite andb_true_iff, !negb_true_iff, orb_false_iff, !Nat.eqb_neq. tauto.
Qed.

Lemma heuristicStep_eq dm gs n pos1 city1 st i :
  heuristicStep dm gs n pos1 city1 st i =
  if heurEligible gs n pos1 city1 i then
    (if ltInf (dm city1 (nth i gs 0)) (snd st)
     then (Some (nth i gs 0), Some (dm city1 (nth i gs 0))) else st)
  else st.
Proof.
  unfold heuristicStep, heurEligible.
  destruct (Nat.eqb (nth i gs 0) city1); simpl; [reflexivity |].
  destruct (_ || _); reflexivity.
Qed.

Definition ScanInv (dm : DistanceMatrix) (gs : list nat) (n pos1 city1 : nat)
           (S : list nat) (st : option nat * option Z) : Prop :=
  match st with
  | (None, None) => forall i, In i S -> heurEligible gs n pos1 city1 i = false
  | (Some c, Some v) =>
      v = dm city1 c /\
      (exists i, In i S /\ heurEligible gs n pos1 city1 i = true /\ nth i gs 0 = c) /\
      (forall i, In i S -> heurEligible gs n pos1 city1 i = true -> Z.le v (dm city1 (nth i gs 0)))
  | _ => False
  end.

Lemma scan_inv dm gs n pos1 city1 l :
  forall S st, ScanInv dm gs n pos1 city1 S st ->
  ScanInv dm gs n pos1 city1 (S ++ l) (fold_left (heuristicStep dm gs n pos1 city1) l st).
Proof.
  induction l as [|a l IH]; intros S st H; simpl; [rewrite app_nil_r; exact H |].
  replace (S ++ a :: l) with ((S ++ [a]) ++ l) by (rewrite <- app_assoc; reflexivity).
  apply IH. rewrite heuristicStep_eq.
  destruct (heurEligible gs n pos1 city1 a) eqn:Ea.
  - destruct st as [[c|] [v|]]; simpl in H |- *; try contradiction.
    + destruct H as [Hv [Hex Hmin]].
      destruct (Z.ltb (dm city1 (nth a gs 0)) v) eqn:Elt.
      * apply Z.ltb_lt in Elt. split; [reflexivity |]. split.
        -- exists a. split; [apply in_or_app; right; left; reflexivity | split; [exact Ea | reflexivity]].
        -- intros i Hi Ei. apply in_app_or in Hi as [Hi|[<-|[]]]; [| lia].
           specialize (Hmin i Hi Ei). lia.
      * apply Z.ltb_ge in Elt. split; [exact Hv |]. split.
        -- destruct Hex as [i [Hi Hi']]. exists i. split; [apply in_or_app; left; exact Hi | exact Hi'].
        -- intros i Hi Ei. apply in_app_or in Hi as [Hi|[<-|[]]]; [exact (Hmin i Hi Ei) | lia].
    + split; [reflexivity |]. split.
      * exists a. split; [apply in_or_app; right; left; reflexivity | split; [exact Ea | reflexivity]].
      * intros i Hi Ei. apply in_app_or in Hi as [Hi|[<-|[]]].
        -- rewrite H in Ei by exact Hi. discriminate.
        -- lia.
  - destruct st as [[c|] [v|]]; simpl in H |- *; try contradiction.
    + destruct H as [Hv [Hex Hmin]]. split; [exact Hv |]. split.
      * destruct Hex as [i [Hi Hi']]. exists i. split; [apply in_or_app; left; exact Hi | exact Hi'].
      * intros i Hi Ei. apply in_app_or in Hi as [Hi|[<-|[]]]; [exact (Hmin i Hi Ei) | congruence].
    + intros i Hi. apply in_app_or in Hi as [Hi|[<-|[]]]; [exact (H i Hi) | exact Ea].
Qed.

Lemma heuristicNearest_spec dm gs pos1 :
  (heuristicNearest dm gs pos1 = None <->
     forall i, i < length gs -> heurEligible gs (length gs) pos1 (nth pos1 gs 0) i = false) /\
  (forall c, heuristicNearest dm gs pos1 = Some c ->
     exists i, i < length gs /\ heurEligible gs (length gs) pos1 (nth pos1 gs 0) i = true /\
               nth i gs 0 = c /\
               forall j, j < length gs -> heurEligible gs (length gs) pos1 (nth pos1 gs 0) j = true ->
                         Z.le (dm (nth pos1 gs 0) c) (dm (nth pos1 gs 0) (nth j gs 0))).
Proof.
  unfold heuristicNearest.
  pose proof (scan_inv dm gs (length gs) pos1 (nth pos1 gs 0) (seq 0 (length gs)) [] (None, None)
                ltac:(intros i [])) as H.
  simpl app in H.
  destruct (fold_left _ _ _) as [[c|] [v|]]; simpl in H |- *; try contradiction.
  - destruct H as [-> [[i [Hi [Ei Ec]]] Hmin]]. split.
    + split; [discriminate | intros Hall]. apply in_seq_lt in Hi. rewrite Hall in Ei by exact Hi.
      discriminate.
    + intros c' E. injection E as <-. exists i. apply in_seq_lt in Hi.
      split; [exact Hi | split; [exact Ei | split; [exact Ec |]]].
      intros j Hj Ej. apply Hmin; [apply in_seq_lt; exact Hj | exact Ej].
  - split.
    + split; [intros _ i Hi; apply H, in_seq_lt, Hi | reflexivity].
    + discriminate.
Qed.

Lemma indexOf_In (l : list nat) x :
  In x l -> exists k, Crossover.indexOf l x = Z.of_nat k /\ nth_error l k = Some x.
Proof.
  induction l as [|a l IH]; simpl; [contradiction |]. intros H.
  destruct (Nat.eqb_spec a x) as [->|Hax].
  - exists 0. split; reflexivity.
  - destruct H as [->|H]; [congruence |].
    destruct (IH H) as [k [E1 E2]]. exists (S k). rewrite E1.
    destruct (Z.ltb_spec (Z.of_nat k) 0); [lia |]. split; [lia | exact E2].
Qed.

Lemma js_rel_nat len k : k <= len -> js_rel len (Z.of_nat k) = k.
Proof.
  intros H. unfold js_rel. destruct (Z.ltb_spec (Z.of_nat k) 0); [lia |]. rewrite Nat2Z.id. lia.
Qed.

Lemma delete_at (l1 l2 : list nat) c :
  js_splice_delete (l1 ++ c :: l2) (Z.of_nat (length l1)) = l1 ++ l2.
Proof.
  unfold js_splice_delete. rewrite js_rel_nat by (rewrite length_app; lia).
  rewrite firstn_app, firstn_all, Nat.sub_diag, skipn_app.
  rewrite skipn_all2 by lia. replace (S (length l1) - length l1) with 1 by lia.
  cbn [firstn skipn app]. rewrite app_nil_r. reflexivity.
Qed.

Lemma insert_at (l1 l2 : list nat) x :
  js_splice_insert (l1 ++ l2) (Z.of_nat (length l1)) x = l1 ++ x :: l2.
Proof.
  unfold js_splice_insert. rewrite js_rel_nat by (rewrite length_app; lia).
  rewrite firstn_app, firstn_all, Nat.sub_diag, skipn_app, skipn_all, Nat.sub_diag.
  cbn [firstn skipn app]. rewrite app_nil_r. reflexivity.
Qed.

Lemma splice_insert_perm (l : list nat) z x : Permutation (js_splice_insert l z x) (x :: l).
Proof.
  unfold js_splice_insert. set (s := js_rel (length l) z).
  transitivity (x :: firstn s l ++ skipn s l);
    [symmetry; apply Permutation_middle | rewrite firstn_skipn; reflexivity].
Qed.

(** Moving [c] right after [city1], as [heuristicMutation] does. *)
Lemma move_after (gs : list nat) (city1 c : nat) :
  In c gs ->
  Permutation (js_splice_insert (js_splice_delete gs (Crossover.indexOf gs c))
                 (Crossover.indexOf (js_splice_delete gs (Crossover.indexOf gs c)) city1 + 1)%Z c) gs /\
  (In city1 gs -> c <> city1 ->
   exists A B, js_splice_insert (js_splice_delete gs (Crossover.indexOf gs c))
                 (Crossover.indexOf (js_splice_delete gs (Crossover.indexOf gs c)) city1 + 1)%Z c
               = A ++ city1 :: c :: B).
Proof.
  intros Hc. destruct (indexOf_In gs c Hc) as [k [Ek Nk]].
  destruct (nth_error_split gs k Nk) as [l1 [l2 [Egs Hl1]]].
  rewrite Ek, <- Hl1, Egs, delete_at. split.
  - rewrite splice_insert_perm. apply Permutation_middle.
  - intros H1 Hne. assert (Hin : In city1 (l1 ++ l2)).
    { apply in_app_or in H1 as [H1|[E|H1]]; [apply in_or_app; left; exact H1 | congruence |
                                             apply in_or_app; right; exact H1]. }
    destruct (indexOf_In _ _ Hin) as [p [Ep Np]].
    destruct (nth_error_split _ p Np) as [m1 [m2 [Em Hm1]]].
    rewrite Ep, Em.
    replace (Z.of_nat p + 1)%Z with (Z.of_nat (length (m1 ++ [city1]))) by (rewrite length_app; simpl; lia).
    replace (m1 ++ city1 :: m2) with ((m1 ++ [city1]) ++ m2) by (rewrite <- app_assoc; reflexivity).
    rewrite insert_at. exists m1, m2. rewrite <- app_assoc. reflexivity.
Qed.

Lemma heuristicMutation_perm dm chromosome draw :
  Permutation (genes (heuristicMutation dm chromosome draw)) (genes chromosome).
Proof.
  unfold heuristicMutation. simpl genes.
  destruct (heuristicNearest _ _ _) as [c|] eqn:E; [| reflexivity].
  destruct (proj2 (heuristicNearest_spec _ _ _) c E) as [i [Hi [_ [Ec _]]]].
  subst c. exact (proj1 (move_after _ _ _ (nth_In _ 0 Hi))).
Qed.

Lemma jumpingGene_cases chr PJG q rA rM rI :
  JumpingGene.jumpingGeneOperator chr PJG q rA rM rI = chr \/
  fitness (JumpingGene.jumpingGeneOperator chr PJG q rA rM rI) = 0%Z.
Proof.
  unfold JumpingGene.jumpingGeneOperator. destruct (negb _); [left; reflexivity | right].
  destruct (JumpingGene.split_by_mask _ _). reflexivity.
Qed.

(** The loop of the fitness recalculation is [calculateDistanceWithMatrix]. *)
Lemma recalc_entry (chr : Chromosome) (dm : DistanceMatrix) :
  (if Z.eqb (fitness chr) 0 then
     let n := length (genes chr) in
     let d := fold_left
                (fun acc i => Z.add acc (dm (nth i (genes chr) 0) (nth ((i + 1) mod n) (genes chr) 0)))
                (seq 0 n) 0%Z in
     mkChromosome (genes chr) d d
   else chr) =
  (if Z.eqb (fitness chr) 0 then
     mkChromosome (genes chr) (calculateDistanceWithMatrix (genes chr) dm)
                  (calculateDistanceWithMatrix (genes chr) dm)
   else chr).
Proof. reflexivity. Qed.

Lemma calculateFitnessForChromosomes_spec chrs dm :
  Forall2 (fun i o => genes o = genes i /\
             (fitness i = 0%Z -> fitness o = calculateDistanceWithMatrix (genes i) dm /\
                                 distance o = fitness o) /\
             (fitness i <> 0%Z -> o = i))
          chrs (calculateFitnessForChromosomes chrs dm).
Proof.
  unfold calculateFitnessForChromosomes. induction chrs as [|c t IH]; simpl; constructor; [| exact IH].
  rewrite recalc_entry. destruct (Z.eqb_spec (fitness c) 0) as [E|E].
  - simpl. split; [reflexivity | split; [intros _; split; reflexivity | congruence]].
  - split; [reflexivity | split; [congruence | reflexivity]].
Qed.

Lemma inverseMutation_fitness chromosome draw : fitness (inverseMutation chromosome draw) = 0%Z.
Proof. unfold inverseMutation. destruct (if Nat.ltb _ _ then _ else _). reflexivity. Qed.

Lemma inverseMutation_nil chromosome draw :
  genes chromosome = [] -> genes (inverseMutation chromosome draw) = [].
Proof.
  intros H. unfold inverseMutation. destruct (if Nat.ltb _ _ then _ else _). simpl.
  rewrite H. reflexivity.
Qed.

Lemma inverseMutation_perm (chromosome : Chromosome) (draw : nat -> Q) :
  (0 <= draw 0%nat < 1)%Q -> (0 <= draw 1%nat < 1)%Q ->
  Permutation (genes (inverseMutation chromosome draw)) (genes chromosome).
Proof.
  intros H0 H1. destruct (genes chromosome) as [|g gs] eqn:Hn.
  - rewrite inverseMutation_nil by exact Hn. reflexivity.
  - rewrite <- Hn.
    destruct (inverseMutation_spec chromosome draw H0 H1 ltac:(rewrite Hn; simpl; lia))
      as [p1 [p2 [Hp E]]].
    rewrite E. rewrite <- (firstn_skipn p1 (genes chromosome)) at 4.
    apply Permutation_app_head.
    rewrite <- (firstn_skipn (S p2 - p1) (skipn p1 (genes chromosome))) at 2.
    rewrite skipn_skipn. replace (S p2 - p1 + p1) with (S p2) by lia.
    apply Permutation_app_tail. symmetry. apply Permutation_rev.
Qed.

Lemma combination_spec fuel chr Ps beta dm (draw : nat -> Q) m :
  (forall k, 0 <= draw k < 1)%Q ->
  combinationMutation fuel chr Ps beta dm draw = Some m ->
  Permutation (genes m) (genes chr) /\ fitness m = 0%Z.
Proof.
  intros Hd. unfold combinationMutation.
  destruct (Qle_bool (draw 0) Ps).
  - unfold swapMutation.
    destruct (swapRedraw _ _ _ _ _) as [p2|] eqn:E; [| discriminate].
    intros H. injection H as <-. simpl. split; [| reflexivity].
    destruct (length (genes chr)) as [|n] eqn:Hn.
    + apply swapRedraw_some in E as [Hne [j [_ Ej]]].
      rewrite !floor_mul_zero in *. simpl in *. lia.
    + apply swapRedraw_some in E as [_ [j [_ Ej]]].
      apply swap_perm2; rewrite Hn; [| subst p2]; apply floor_pos_lt; [apply Hd | lia | apply Hd | lia].
  - destruct (Qle_bool (draw 0) (Ps + beta)); intros H; injection H as <-.
    + split; [apply inverseMutation_perm; [apply (Hd 1) | apply (Hd 2)] |
              apply inverseMutation_fitness].
    + split; [apply heuristicMutation_perm | reflexivity].
Qed.

Lemma mutateFrom_spec fuel Ps beta dm (draws : nat -> nat -> Q) k chrs ms :
  (forall k j, 0 <= draws k j < 1)%Q ->
  mutateFrom fuel Ps beta dm draws k chrs = Some ms ->
  Forall2 (fun i o => Permutation (genes o) (genes i) /\ fitness o = 0%Z) chrs ms.
Proof.
  intros Hd. revert k ms. induction chrs as [|c t IH]; intros k ms H; simpl in H.
  - injection H as <-. constructor.
  - destruct (combinationMutation _ _ _ _ _ _) as [m|] eqn:E1; [| discriminate].
    destruct (mutateFrom _ _ _ _ _ _ _) as [ms'|] eqn:E2; [| discriminate].
    injection H as <-. constructor.
    + exact (combination_spec _ _ _ _ _ _ _ (Hd k) E1).
    + exact (IH _ _ E2).
Qed.

End MutationFacts.

Module MutationFacts2.
Import Mutation MutationFacts.

Lemma heurEligible_false gs n pos1 city1 i :
  heurEligible gs n pos1 city1 i = false <->
  nth i gs 0 = city1 \/ i = (pos1 + n - 1) mod n \/ i = (pos1 + 1) mod n.
Proof.
  split.
  - intros E.
    destruct (Nat.eq_dec (nth i gs 0) city1); [left; assumption |].
    destruct (Nat.eq_dec i ((pos1 + n - 1) mod n)); [right; left; assumption |].
    destruct (Nat.eq_dec i ((pos1 + 1) mod n)); [right; right; assumption |].
    assert (T : heurEligible gs n pos1 city1 i = true) by (apply heurEligible_true; tauto).
    congruence.
  - intros H. destruct (heurEligible gs n pos1 city1 i) eqn:E; [| reflexivity].
    apply heurEligible_true in E. tauto.
Qed.

(** On a tour of at most three cities every position is [pos1] or one of
    its two neighbours. *)
Lemma small_cover n p i :
  n <= 3 -> p < n -> i < n -> i = p \/ i = (p + n - 1) mod n \/ i = (p + 1) mod n.
Proof.
  intros Hn Hp Hi.
  destruct n as [|[|[|[|n]]]]; try lia;
    destruct p as [|[|[|p]]]; try lia; destruct i as [|[|[|i]]]; try lia; cbn; lia.
Qed.

Lemma Forall2_compose {A B C} (R1 : A -> B -> Prop) (R2 : B -> C -> Prop) la lb lc :
  Forall2 R1 la lb -> Forall2 R2 lb lc -> Forall2 (fun a c => exists b, R1 a b /\ R2 b c) la lc.
Proof.
  intros H1. revert lc. induction H1 as [|a b la lb Hab _ IH]; intros lc H2.
  - inversion H2. constructor.
  - inversion H2 as [|b' c lb' lc' Hbc H2']; subst. constructor; [exists b; split; assumption |].
    apply IH. exact H2'.
Qed.

Lemma calculateFitnessAfterJumping_cons c t dm :
  calculateFitnessAfterJumping (c :: t) dm =
  (if Z.eqb (fitness c) 0 then
     mkChromosome (genes c) (calculateDistanceWithMatrix (genes c) dm)
                  (calculateDistanceWithMatrix (genes c) dm)
   else c) :: calculateFitnessAfterJumping t dm.
Proof. reflexivity. Qed.

Lemma calculateFitnessForChromosomes_eq chrs dm :
  calculateFitnessForChromosomes chrs dm =
  map (fun c => if Z.eqb (fitness c) 0 then
                  mkChromosome (genes c) (calculateDistanceWithMatrix (genes c) dm)
                               (calculateDistanceWithMatrix (genes c) dm)
                else c) chrs.
Proof. reflexivity. Qed.

End MutationFacts2.

Module TwoOptMoreFacts.
Import TwoOpt TwoOptMore.

Section Scan.
Variable dm : DistanceMatrix.
Variable n : nat.
Variable gs : list nat.

Definition impr (i j : nat) : Z := (currentDist dm n gs i j - newDist dm n gs i j)%Z.

(** The pairs [(i, j)] the two loops visit, in their order. *)
Definition pairs : list (nat * nat) :=
  flat_map (fun i => map (fun j => (i, j)) (seq (S i) (n - S i))) (seq 0 (n - 1)).

Lemma in_pairs (i j : nat) : In (i, j) pairs <-> i < j < n.
Proof.
  unfold pairs. rewrite in_flat_map. split.
  - intros (i' & Hi' & Hm). apply in_map_iff in Hm as (j' & E & Hj').
    injection E as <- <-. apply in_seq in Hi'. apply in_seq in Hj'. lia.
  - intros H. exists i. split; [apply in_seq; lia |].
    apply in_map_iff. exists j. split; [reflexivity | apply in_seq; lia].
Qed.

Lemma scan_pairs : singlePassScan dm n gs =
  fold_left (fun st p => singlePassStep dm n gs (fst p) st (snd p)) pairs (0%Z, (-1)%Z, (-1)%Z).
Proof.
  unfold singlePassScan, pairs. generalize (0%Z, (-1)%Z, (-1)%Z).
  induction (seq 0 (n - 1)) as [| i I IH]; intros st; [reflexivity |].
  cbn [flat_map fold_left]. rewrite fold_left_app, <- IH. f_equal.
  generalize (seq (S i) (n - S i)) st. clear.
  induction l as [| j l IH]; intros st; [reflexivity | apply IH].
Qed.

(** What the scan keeps after visiting the pairs [S]. *)
Definition SPInv (S : list (nat * nat)) (st : Z * Z * Z) : Prop :=
  let '(b, bi, bj) := st in
  (0 <= b)%Z /\
  ((bi = (-1)%Z /\ bj = (-1)%Z /\ b = 0%Z) \/
   (exists i0 j0, i0 < j0 < n /\ bi = Z.of_nat i0 /\ bj = Z.of_nat j0 /\
                  b = impr i0 j0 /\ (0 < b)%Z)) /\
  (forall p, In p S -> (impr (fst p) (snd p) <= b)%Z).

Lemma sp_step (S : list (nat * nat)) (st : Z * Z * Z) (i j : nat) :
  i < j < n -> SPInv S st -> SPInv (S ++ [(i, j)]) (singlePassStep dm n gs i st j).
Proof.
  destruct st as [[b bi] bj]. intros Hij (Hb & Hc & Hm).
  unfold singlePassStep. fold (impr i j).
  destruct (b <? impr i j)%Z eqn:E.
  - apply Z.ltb_lt in E. split; [lia | split].
    + right. exists i, j. repeat split; lia.
    + intros p Hp. apply in_app_or in Hp as [Hp | [<- | []]]; [specialize (Hm p Hp); lia |].
      simpl. lia.
  - apply Z.ltb_ge in E. split; [exact Hb | split; [exact Hc |]].
    intros p Hp. apply in_app_or in Hp as [Hp | [<- | []]]; [exact (Hm p Hp) | exact E].
Qed.

Lemma sp_fold (l S : list (nat * nat)) (st : Z * Z * Z) :
  (forall p, In p l -> fst p < snd p < n) -> SPInv S st ->
  SPInv (S ++ l) (fold_left (fun st p => singlePassStep dm n gs (fst p) st (snd p)) l st).
Proof.
  revert S st; induction l as [| [i j] l IH]; intros S st Hl Hs.
  - rewrite app_nil_r. exact Hs.
  - cbn [fold_left]. replace (S ++ (i, j) :: l) with ((S ++ [(i, j)]) ++ l)
      by (rewrite <- app_assoc; reflexivity).
    apply IH; [intros p Hp; apply Hl; now right |].
    apply sp_step; [exact (Hl (i, j) (or_introl eq_refl)) | exact Hs].
Qed.

(** The scan either finds no improving pair, or the pair of largest
    improvement. *)
Lemma scan_result :
  let '(b, bi, bj) := singlePassScan dm n gs in
  ((bi = (-1)%Z /\ bj = (-1)%Z) /\ forall i j, i < j < n -> (impr i j <= 0)%Z) \/
  (exists i0 j0, i0 < j0 < n /\ bi = Z.of_nat i0 /\ bj = Z.of_nat j0 /\ (0 < impr i0 j0)%Z /\
                 forall i j, i < j < n -> (impr i j <= impr i0 j0)%Z).
Proof.
  pose proof (sp_fold pairs [] (0%Z, (-1)%Z, (-1)%Z)) as H.
  rewrite <- scan_pairs in H. cbn [app] in H.
  destruct (singlePassScan dm n gs) as [[b bi] bj].
  destruct H as (_ & Hc & Hm).
  - intros [i j] Hp. apply in_pairs, Hp.
  - split; [lia | split; [left; repeat split | intros _ []]].
  - destruct Hc as [(-> & -> & ->) | (i0 & j0 & Hij & -> & -> & -> & Hp)].
    + left. split; [split; reflexivity |]. intros i j Hij2. exact (Hm (i, j) (proj2 (in_pairs i j) Hij2)).
    + right. exists i0, j0. repeat split; try lia.
      intros i j Hij2. exact (Hm (i, j) (proj2 (in_pairs i j) Hij2)).
Qed.

End Scan.

Lemma final_distance (gs : list nat) (dm : DistanceMatrix) (n : nat) :
  length gs = n ->
  fold_left (fun acc i => Z.add acc (dm (gene gs i) (gene gs ((i + 1) mod n)))) (seq 0 n) 0%Z =
  calculateDistanceWithMatrix gs dm.
Proof. intros <-. reflexivity. Qed.

(** The shape of [twoOptSinglePass]'s result. *)
Lemma singlePass_cases (chromosome : Chromosome) (dm : DistanceMatrix) :
  let gs := genes chromosome in
  let n := length gs in
  let out := twoOptSinglePass chromosome dm in
  fitness out = calculateDistanceWithMatrix (genes out) dm /\ distance out = fitness out /\
  (((forall i j, i < j < n -> (impr dm n gs i j <= 0)%Z) /\ genes out = gs) \/
   (exists i0 j0, i0 < j0 < n /\ (0 < impr dm n gs i0 j0)%Z /\
                  genes out = reverseSegment gs i0 j0 /\
                  forall i j, i < j < n -> (impr dm n gs i j <= impr dm n gs i0 j0)%Z)).
Proof.
  cbv zeta. unfold twoOptSinglePass.
  pose proof (scan_result dm (length (genes chromosome)) (genes chromosome)) as H.
  destruct (singlePassScan dm (length (genes chromosome)) (genes chromosome)) as [[b bi] bj].
  destruct H as [((-> & ->) & Hm) | (i0 & j0 & Hij & -> & -> & Hp & Hm)].
  - cbn [negb Z.eqb Pos.eqb andb genes fitness distance].
    rewrite final_distance by reflexivity.
    split; [reflexivity | split; [reflexivity |]]. left. split; [exact Hm | reflexivity].
  - replace (negb (Z.of_nat i0 =? -1)%Z && negb (Z.of_nat j0 =? -1)%Z) with true
      by (symmetry; apply andb_true_iff; split; apply negb_true_iff, Z.eqb_neq; lia).
    rewrite !Nat2Z.id. cbn [genes fitness distance].
    rewrite final_distance by (apply TwoOptFacts.reverseSegment_length; exact Hij).
    split; [reflexivity | split; [reflexivity |]].
    right. exists i0, j0. split; [exact Hij | split; [exact Hp | split; [reflexivity | exact Hm]]].
Qed.

Lemma singlePass_perm (chromosome : Chromosome) (dm : DistanceMatrix) :
  Permutation (genes (twoOptSinglePass chromosome dm)) (genes chromosome).
Proof.
  destruct (singlePass_cases chromosome dm) as (_ & _ & [(_ & ->) | (i0 & j0 & Hij & _ & -> & _)]).
  - reflexivity.
  - apply TwoOptFacts.reverseSegment_perm, Hij.
Qed.

(** The tours of one round of [twoOptOperator]'s loop are rearrangements
    of the tour it started from, whatever the distances. *)
Lemma sweep_perm (dm : DistanceMatrix) (g0 : list nat) :
  Permutation (fst (sweep dm (length g0) g0)) g0.
Proof.
  unfold sweep. apply (TwoOptFacts.fold_left_inv (fun st => Permutation (fst st) g0)).
  - intros i st Hi Hst. apply in_seq in Hi.
    apply (TwoOptFacts.fold_left_inv (fun st => Permutation (fst st) g0)); [| exact Hst].
    intros j [g b] Hj Hp. apply in_seq in Hj. simpl in Hp. unfold step.
    destruct (_ <? _)%Z; [| exact Hp]. simpl.
    eapply perm_trans; [apply TwoOptFacts.reverseSegment_perm | exact Hp].
    rewrite (Permutation_length Hp). lia.
  - reflexivity.
Qed.

Lemma twoOptLoop_perm (dm : DistanceMatrix) (fuel : nat) (g r : list nat) :
  twoOptLoop fuel dm (length g) g = Some r -> Permutation r g.
Proof.
  revert g; induction fuel as [| fuel IH]; intros g H; simpl in H; [discriminate |].
  pose proof (sweep_perm dm g) as Hp.
  destruct (sweep dm (length g) g) as [g' b] eqn:E. simpl in Hp.
  destruct b.
  - rewrite <- (Permutation_length Hp) in H. exact (perm_trans (IH g' H) Hp).
  - inversion H; subst. exact Hp.
Qed.

Lemma twoOptOperator_perm (fuel : nat) (c o : Chromosome) (dm : DistanceMatrix) :
  twoOptOperator fuel c dm = Some o -> Permutation (genes o) (genes c).
Proof.
  unfold twoOptOperator.
  destruct (twoOptLoop fuel dm (length (genes c)) (genes c)) as [r |] eqn:E; [| discriminate].
  intros H. injection H as <-. exact (twoOptLoop_perm dm fuel _ _ E).
Qed.

Lemma allSome_Forall2 {A} (l : list (option A)) (r : list A) :
  allSome l = Some r -> Forall2 (fun o a => o = Some a) l r.
Proof.
  revert r; induction l as [| [a |] l IH]; intros r H; simpl in H.
  - injection H as <-. constructor.
  - destruct (allSome l) as [r' |]; [| discriminate]. injection H as <-.
    constructor; [reflexivity | apply IH; reflexivity].
  - discriminate.
Qed.

Lemma Forall2_map_l {A B C} (f : A -> B) (R : B -> C -> Prop) (l : list A) (r : list C) :
  Forall2 R (map f l) r <-> Forall2 (fun a c => R (f a) c) l r.
Proof.
  revert r; induction l as [| a l IH]; intros r; split; intros H.
  - inversion H; constructor.
  - inversion H; constructor.
  - inversion H; subst. constructor; [assumption | apply IH; assumption].
  - inversion H; subst. constructor; [assumption | apply IH; assumption].
Qed.

Lemma Forall2_nth_seq {A} (R : nat -> A -> Prop) (m : nat) (r : list A) :
  (forall k, Forall2 R (seq k m) r <->
   (length r = m /\ forall i d, i < m -> R (k + i) (nth i r d))).
Proof.
  revert r; induction m as [| m IH]; intros r k; split.
  - intros H. inversion H; subst. split; [reflexivity | intros; lia].
  - intros [H _]. destruct r; [constructor | discriminate].
  - intros H. cbn [seq] in H. inversion H as [| a b l' r' Ha Hr]; subst.
    apply IH in Hr as [Hl Hr]. split; [simpl; lia |].
    intros [| i] d Hi; simpl; [rewrite Nat.add_0_r; exact Ha |].
    replace (k + S i) with (S k + i) by lia. apply Hr. lia.
  - intros [Hl H]. destruct r as [| a r]; [discriminate |]. cbn [seq].
    constructor; [specialize (H 0 a); rewrite Nat.add_0_r in H; apply H; lia |].
    apply IH. split; [simpl in Hl; lia |].
    intros i d Hi. replace (S k + i) with (k + S i) by lia. apply (H (S i)). lia.
Qed.

Lemma Forall2_of_nth {A B} (R : A -> B -> Prop) (l : list A) (r : list B) (da : A) (db : B) :
  length l = length r -> (forall i, i < length l -> R (nth i l da) (nth i r db)) ->
  Forall2 R l r.
Proof.
  revert r; induction l as [| a l IH]; intros [| b r] Hl H; try discriminate; constructor.
  - exact (H 0 ltac:(simpl; lia)).
  - apply IH; [simpl in Hl; lia |]. intros i Hi. exact (H (S i) ltac:(simpl; lia)).
Qed.

End TwoOptMoreFacts.

Module CrossoverMoreFacts.
Import Crossover CrossoverMore.

Definition TourOf (n : nat) (c : Chromosome) : Prop := Permutation (genes c) (seq 0 n).

(** Enough rounds make the loop produce [tc] offspring, each a tour. *)
Lemma crossoverLoop_ok (parents : list Chromosome) (dm : DistanceMatrix) (n tc : nat)
      (rDir rStart : nat -> Q) :
  Forall (TourOf n) parents -> parents <> [] -> 1 <= n ->
  (forall k, 0 <= rStart k /\ rStart k < 1)%Q ->
  forall fuel i offspring,
    length offspring = Nat.min i tc -> Forall (TourOf n) offspring -> tc <= i + 2 * fuel ->
    exists l, crossoverLoop fuel parents dm tc rDir rStart i offspring = Ok l /\
              length l = tc /\ Forall (TourOf n) l.
Proof.
  intros Hp Hne Hn Hr.
  assert (Hpick : forall k, exists p, nth_error parents (k mod length parents) = Some p /\ TourOf n p).
  { intros k. destruct (nth_error parents (k mod length parents)) as [p |] eqn:E.
    - exists p. split; [reflexivity |]. rewrite Forall_forall in Hp. apply Hp.
      exact (nth_error_In _ _ E).
    - exfalso. apply nth_error_None in E. destruct parents; [congruence |].
      pose proof (Nat.mod_upper_bound k (length (c :: parents))). simpl in *. lia. }
  induction fuel as [| fuel IH]; intros i off Hl Hf Hfuel.
  - exists off. split; [reflexivity |]. split; [lia | exact Hf].
  - cbn [crossoverLoop]. destruct (Nat.ltb i tc) eqn:Ei.
    2: { exists off. apply Nat.ltb_ge in Ei. split; [reflexivity | split; [lia | exact Hf]]. }
    apply Nat.ltb_lt in Ei.
    destruct (Hpick i) as (p1 & E1 & T1). destruct (Hpick (i + 1)) as (p2 & E2 & T2).
    rewrite E1, E2.
    destruct (CrossoverFacts.bhx_returns n p1 p2 dm (rDir (length off)) (rStart (length off)) T1 Hn
                (Hr (length off))) as (c1 & Ec1).
    rewrite Ec1.
    pose proof (CrossoverFacts.bhx_result_perm n p1 p2 dm _ _ c1 T1 T2 Ec1) as Tc1.
    assert (Hl1 : length (off ++ [c1]) = S i) by (rewrite length_app; simpl; lia).
    destruct (Nat.ltb (length (off ++ [c1])) tc) eqn:El.
    + apply Nat.ltb_lt in El.
      destruct (CrossoverFacts.bhx_returns n p2 p1 dm (rDir (length (off ++ [c1])))
                  (rStart (length (off ++ [c1]))) T2 Hn (Hr _)) as (c2 & Ec2).
      rewrite Ec2.
      pose proof (CrossoverFacts.bhx_result_perm n p2 p1 dm _ _ c2 T2 T1 Ec2) as Tc2.
      apply IH.
      * rewrite length_app, Hl1. simpl. lia.
      * apply Forall_app. split; [apply Forall_app; split; [exact Hf |] |]; repeat constructor; assumption.
      * lia.
    + apply Nat.ltb_ge in El. apply IH.
      * rewrite Hl1. lia.
      * apply Forall_app. split; [exact Hf |]. repeat constructor; assumption.
      * lia.
Qed.

End CrossoverMoreFacts.

(** The distance matrix of cities placed on a line at their indices. *)
Definition line_dm : DistanceMatrix := fun a b => Z.abs (Z.of_nat a - Z.of_nat b).


Module SeedsFacts.
Import Seeds.

Section Greedy.
Variable dm : DistanceMatrix.
Variable n : nat.

Lemma greedyScan_ok (cur : nat) (visited : list nat) :
  cur < n ->
  forall is best minD,
  (best = None /\ minD = None \/ exists b, best = Some b /\ minD = Some (dm cur b)) ->
  exists r, greedyScan dm n cur visited is best minD = Ok r /\
    (r = best \/ exists k, r = Some k /\ In k is /\ ~ In k visited) /\
    ((best <> None \/ exists i, In i is /\ ~ In i visited) -> r <> None) /\
    (forall k, r = Some k ->
       (forall i, In i is -> ~ In i visited -> (dm cur k <= dm cur i)%Z) /\
       (forall b, best = Some b -> (dm cur k <= dm cur b)%Z)).
Proof.
  intros Hc. induction is as [| i rest IH]; intros best minD Hb.
  - exists best. split; [reflexivity | split; [left; reflexivity | split]].
    + intros [H | (i & [] & _)]. exact H.
    + intros k -> . split; [intros i [] | intros b E; injection E as ->; lia].
  - cbn [greedyScan]. destruct (mem i visited) eqn:Em.
    + apply mem_In in Em.
      destruct (IH best minD Hb) as (r & Er & Hr1 & Hr2 & Hr3).
      exists r. split; [exact Er | split; [| split]].
      * destruct Hr1 as [-> | (k & -> & Hk & Hv)]; [left; reflexivity |].
        right. exists k. split; [reflexivity | split; [now right | exact Hv]].
      * intros [Hn | (i' & [<- | Hi'] & Hv)]; [apply Hr2; now left | contradiction |].
        apply Hr2. right. exists i'. split; assumption.
      * intros k Ek. destruct (Hr3 k Ek) as [H1 H2]. split; [| exact H2].
        intros i' [<- | Hi'] Hv; [contradiction | exact (H1 i' Hi' Hv)].
    + assert (Hnv : ~ In i visited) by (rewrite <- mem_In; congruence).
      replace (Nat.ltb cur n) with true by (symmetry; apply Nat.ltb_lt; exact Hc).
      destruct (Mutation.ltInf (dm cur i) minD) eqn:El.
      * destruct (IH (Some i) (Some (dm cur i))) as (r & Er & Hr1 & Hr2 & Hr3);
          [right; exists i; split; reflexivity |].
        exists r. split; [exact Er | split; [| split]].
        -- right. destruct Hr1 as [-> | (k & -> & Hk & Hv)].
           ++ exists i. split; [reflexivity | split; [now left | exact Hnv]].
           ++ exists k. split; [reflexivity | split; [now right | exact Hv]].
        -- intros _. apply Hr2. left. discriminate.
        -- intros k Ek. destruct (Hr3 k Ek) as [H1 H2].
           assert (Hki : (dm cur k <= dm cur i)%Z) by exact (H2 i eq_refl).
           split.
           ++ intros i' [<- | Hi'] Hv; [exact Hki | exact (H1 i' Hi' Hv)].
           ++ intros b Eb. destruct Hb as [(-> & _) | (b' & Eb' & ->)]; [discriminate |].
              rewrite Eb in Eb'. injection Eb' as <-.
              unfold Mutation.ltInf in El. apply Z.ltb_lt in El. lia.
      * destruct Hb as [(-> & ->) | (b & -> & ->)]; [discriminate |].
        unfold Mutation.ltInf in El. apply Z.ltb_ge in El.
        destruct (IH (Some b) (Some (dm cur b))) as (r & Er & Hr1 & Hr2 & Hr3);
          [right; exists b; split; reflexivity |].
        exists r. split; [exact Er | split; [| split]].
        -- destruct Hr1 as [-> | (k & -> & Hk & Hv)]; [left; reflexivity |].
           right. exists k. split; [reflexivity | split; [now right | exact Hv]].
        -- intros _. apply Hr2. left. discriminate.
        -- intros k Ek. destruct (Hr3 k Ek) as [H1 H2].
           pose proof (H2 b eq_refl) as Hkb. split; [| exact H2].
           intros i' [<- | Hi'] Hv; [lia | exact (H1 i' Hi' Hv)].
Qed.

(** Each city after the first is, among the cities [0..n-1] not placed
    before it, one nearest to its predecessor. *)
Definition NearestNext (g : list nat) : Prop :=
  forall m j, S m < length g -> j < n -> ~ In j (firstn (S m) g) ->
    Z.le (dm (nth m g 0) (nth (S m) g 0)) (dm (nth m g 0) j).

Definition GInv (cur : nat) (gs visited : list nat) : Prop :=
  NoDup gs /\ (forall x, In x gs -> x < n) /\ (forall x, In x visited <-> In x gs) /\
  gs <> [] /\ cur = last gs 0 /\ NearestNext gs.

Lemma last_In (l : list nat) : l <> [] -> In (last l 0) l.
Proof.
  induction l as [| a t IH]; intros H; [congruence |].
  destruct t as [| b t']; [now left |]. right. apply IH. discriminate.
Qed.

Lemma unvisited_exists (gs : list nat) :
  NoDup gs -> length gs < n -> exists i, In i (seq 0 n) /\ ~ In i gs.
Proof.
  intros Hd Hl. destruct (Forall_dec (fun i => In i gs) (fun i => In_dec Nat.eq_dec i gs) (seq 0 n))
    as [Hall | Hnot].
  - exfalso. rewrite Forall_forall in Hall.
    pose proof (NoDup_incl_length (seq_NoDup n 0) Hall). rewrite length_seq in H. lia.
  - apply neg_Forall_Exists_neg in Hnot; [| intros i; apply In_dec, Nat.eq_dec].
    apply Exists_exists in Hnot. exact Hnot.
Qed.

Lemma ginv_step (cur k : nat) (gs visited : list nat) :
  GInv cur gs visited -> k < n -> ~ In k visited ->
  (forall i, In i (seq 0 n) -> ~ In i visited -> (dm cur k <= dm cur i)%Z) ->
  GInv k (gs ++ [k]) (k :: visited).
Proof.
  intros (Hd & Hr & Hv & Hne & Hc & Hnn) Hk Hkv Hmin.
  assert (Hkg : ~ In k gs) by (rewrite <- Hv; exact Hkv).
  split; [| split; [| split; [| split; [| split]]]].
  - apply NoDup_app; [exact Hd | repeat constructor; intros [] | ].
    intros x Hx [<- | []]. contradiction.
  - intros x Hx. apply in_app_or in Hx as [Hx | [<- | []]]; [exact (Hr x Hx) | exact Hk].
  - intros x. simpl. rewrite Hv, in_app_iff. simpl. tauto.
  - intros E. destruct gs; discriminate.
  - rewrite last_last. reflexivity.
  - intros m j Hm Hj Hnin. rewrite length_app in Hm. simpl in Hm.
    destruct (Nat.lt_ge_cases (S m) (length gs)) as [Hlt | Hge].
    + rewrite !app_nth1 by lia. apply Hnn; [exact Hlt | exact Hj |].
      rewrite firstn_app in Hnin. replace (S m - length gs) with 0 in Hnin by lia.
      rewrite app_nil_r in Hnin. exact Hnin.
    + assert (Em : S m = length gs) by lia.
      rewrite app_nth1 by lia. rewrite Em, nth_middle.
      replace m with (length gs - 1) by lia. rewrite TwoOptFacts.nth_last, <- Hc.
      apply Hmin; [apply in_seq; lia |]. rewrite Hv.
      rewrite Em, firstn_app, firstn_all, Nat.sub_diag in Hnin. simpl in Hnin.
      rewrite app_nil_r in Hnin. exact Hnin.
Qed.

Lemma greedyLoop_ok (fuel : nat) :
  forall cur gs visited, GInv cur gs visited -> n - length gs < fuel ->
  exists g, greedyLoop fuel dm n cur gs visited = Some (Ok g) /\
            Permutation g (seq 0 n) /\ NearestNext g /\ nth 0 g 0 = nth 0 gs 0.
Proof.
  induction fuel as [| fuel IH]; intros cur gs visited Hi Hf; [lia |].
  cbn [greedyLoop]. destruct (Nat.ltb (length gs) n) eqn:El.
  - apply Nat.ltb_lt in El.
    pose proof Hi as (Hd & Hr & Hv & Hne & Hc & Hnn).
    assert (Hcn : cur < n) by (rewrite Hc; apply Hr, last_In, Hne).
    destruct (greedyScan_ok cur visited Hcn (seq 0 n) None None (or_introl (conj eq_refl eq_refl)))
      as (r & Er & Hr1 & Hr2 & Hr3).
    rewrite Er.
    destruct (unvisited_exists gs Hd El) as (i & Hin & Hni).
    assert (Hrn : r <> None) by (apply Hr2; right; exists i; split; [exact Hin | rewrite Hv; exact Hni]).
    destruct Hr1 as [-> | (k & -> & Hk & Hkv)]; [congruence |].
    destruct (Hr3 k eq_refl) as [Hmin _]. apply in_seq in Hk.
    destruct (IH k (gs ++ [k]) (k :: visited)) as (g & Eg & Hp & Hn & Hh).
    + apply (ginv_step cur); [exact Hi | lia | exact Hkv | exact Hmin].
    + rewrite length_app. simpl. lia.
    + exists g. split; [exact Eg | split; [exact Hp | split; [exact Hn |]]].
      rewrite Hh, app_nth1; [reflexivity |]. destruct gs; [congruence | simpl; lia].
  - apply Nat.ltb_ge in El. destruct Hi as (Hd & Hr & _ & _ & _ & Hnn).
    exists gs. split; [reflexivity | split; [| split; [exact Hnn | reflexivity]]].
    apply NoDup_Permutation_bis; [exact Hd | rewrite length_seq; exact El |].
    intros x Hx. apply in_seq. specialize (Hr x Hx). lia.
Qed.

(** From a start city in [0..n-1], [n] rounds are enough. *)
Lemma createGreedy_ok (fuel s : nat) :
  s < n -> n <= fuel ->
  exists g, createGreedyChromosome fuel dm n s = Some (Ok g) /\
            Permutation g (seq 0 n) /\ NearestNext g /\ nth 0 g 0 = s.
Proof.
  intros Hs Hf. apply greedyLoop_ok; [| simpl; lia].
  split; [repeat constructor; intros [] |].
  split; [intros x [<- | []]; exact Hs |].
  split; [intros x; reflexivity |].
  split; [discriminate | split; [reflexivity |]].
  intros m j Hm. simpl in Hm. lia.
Qed.

End Greedy.


End SeedsFacts.

Module PACO3OptFacts.
Import PACO3Opt.

Lemma segments_app (t : list nat) (i j k : nat) :
  i < j -> j < k ->
  firstn (i + 1) t ++ firstn (j - i) (skipn (i + 1) t) ++ firstn (k - j) (skipn (j + 1) t)
  ++ skipn (k + 1) t = t.
Proof.
  intros Hij Hjk.
  replace (skipn (k + 1) t) with (skipn (k - j) (skipn (j - i) (skipn (i + 1) t)))
    by (rewrite !skipn_skipn; f_equal; lia).
  replace (skipn (j + 1) t) with (skipn (j - i) (skipn (i + 1) t))
    by (rewrite skipn_skipn; f_equal; lia).
  rewrite firstn_skipn, firstn_skipn, firstn_skipn. reflexivity.
Qed.

(** The four tours of [generate3OptMoves] rearrange the tour. *)
Lemma generate3OptMoves_perm (t t' : list nat) (i j k : nat) :
  i < j -> j < k -> In t' (generate3OptMoves t i j k) -> Permutation t' t.
Proof.
  intros Hij Hjk Hin. rewrite <- (segments_app t i j k Hij Hjk) at 1.
  unfold generate3OptMoves in Hin. cbv zeta in Hin. rewrite !rev_involutive in Hin.
  set (s1 := firstn (i + 1) t) in *.
  set (s2 := firstn (j - i) (skipn (i + 1) t)) in *.
  set (s3 := firstn (k - j) (skipn (j + 1) t)) in *.
  set (s4 := skipn (k + 1) t) in *.
  destruct Hin as [<- | [<- | [<- | [<- | []]]]]; apply Permutation_app_head;
    rewrite !app_assoc; apply Permutation_app_tail.
  - apply Permutation_app_tail. symmetry. apply Permutation_rev.
  - apply Permutation_app; symmetry; apply Permutation_rev.
  - rewrite Permutation_app_comm. apply Permutation_app; symmetry; apply Permutation_rev.
  - apply Permutation_app_comm.
Qed.

Lemma threeOptCandidates_perm (g t : list nat) :
  In t (threeOptCandidates g) -> Permutation t g.
Proof.
  unfold threeOptCandidates. intros H.
  apply in_flat_map in H as (i & _ & H). apply in_flat_map in H as (j & Hj & H).
  apply in_flat_map in H as (k & Hk & H). apply in_seq in Hj. apply in_seq in Hk.
  apply (generate3OptMoves_perm g t i j k); [lia | lia | exact H].
Qed.

Lemma threeOptRounds_spec (dm : DistanceMatrix) (it : nat) (g : list nat) :
  Permutation (threeOptRounds dm it g) g /\
  Z.le (calculateDistanceWithMatrix (threeOptRounds dm it g) dm) (calculateDistanceWithMatrix g dm) /\
  (0 < it -> firstImprovement dm g <> None ->
   Z.lt (calculateDistanceWithMatrix (threeOptRounds dm it g) dm) (calculateDistanceWithMatrix g dm)).
Proof.
  revert g; induction it as [| it IH]; intros g.
  - cbn [threeOptRounds]. split; [reflexivity | split; [lia | intros H; exfalso; lia]].
  - cbn [threeOptRounds]. destruct (firstImprovement dm g) as [t |] eqn:E.
    + unfold firstImprovement in E. apply find_some in E as [Ht Hlt]. apply Z.ltb_lt in Hlt.
      destruct (IH t) as (Hp & Hle & _).
      split; [exact (perm_trans Hp (threeOptCandidates_perm g t Ht)) |].
      split; [lia | intros _ _; lia].
    + split; [reflexivity | split; [lia | intros _ H; congruence]].
Qed.

Lemma rouletteCities_fallback (rand cum : Q) (cities : list nat) (probs : list Q) (fb : nat) :
  rouletteCities rand cum cities probs fb = fb \/ In (rouletteCities rand cum cities probs fb) cities.
Proof.
  revert cum probs; induction cities as [| c cs IH]; intros cum probs; [now left |].
  destruct probs as [| p ps]; [now left |]. cbn [rouletteCities].
  destruct (Qle_bool rand (cum + p)); [right; now left |].
  destruct (IH (cum + p)%Q ps) as [H | H]; [now left | right; now right].
Qed.

Lemma selectNextCity_In (ph : nat -> nat -> Q) (dm : DistanceMatrix) (cur : nat)
      (unvisited : list nat) (rand : Q) :
  unvisited <> [] -> In (selectNextCity ph dm cur unvisited rand) unvisited.
Proof.
  intros Hne. unfold selectNextCity.
  destruct (rouletteCities_fallback rand 0 unvisited
              (map (fun p => p / fold_left Qplus (map (edgeWeight ph dm cur) unvisited) 0)%Q
                   (map (edgeWeight ph dm cur) unvisited)) (hd 0 unvisited)) as [-> | H];
    [destruct unvisited; [congruence | now left] | exact H].
Qed.

Lemma remove_split (x : nat) (A B : list nat) :
  NoDup (A ++ x :: B) -> remove Nat.eq_dec x (A ++ x :: B) = A ++ B.
Proof.
  intros Hd. pose proof (NoDup_remove_2 _ _ _ Hd) as Hn.
  rewrite remove_app, remove_cons, !notin_remove; [reflexivity | |];
    intros H; apply Hn, in_or_app; tauto.
Qed.

Lemma buildTour_spec (ph : nat -> nat -> Q) (dm : DistanceMatrix) (draws : nat -> Q) :
  forall fuel cur unvisited gs k,
  NoDup unvisited -> length unvisited <= fuel ->
  exists rest, buildTour ph dm fuel cur unvisited gs draws k = gs ++ rest /\
               Permutation rest unvisited.
Proof.
  induction fuel as [| fuel IH]; intros cur unv gs k Hd Hl.
  - destruct unv; [| simpl in Hl; lia]. exists []. rewrite app_nil_r. split; reflexivity.
  - destruct unv as [| u us] eqn:Eu.
    + exists []. rewrite app_nil_r. split; reflexivity.
    + rewrite <- Eu in *. cbn [buildTour]. rewrite Eu. rewrite <- Eu.
      set (c := selectNextCity ph dm cur unv (draws k)).
      assert (Hc : In c unv) by (apply selectNextCity_In; rewrite Eu; discriminate).
      apply in_split in Hc as (A & B & EAB).
      assert (Er : remove Nat.eq_dec c unv = A ++ B) by (rewrite EAB; apply remove_split; rewrite <- EAB; exact Hd).
      rewrite Er.
      destruct (IH c (A ++ B) (gs ++ [c]) (S k)) as (rest & E & Hp).
      * rewrite EAB in Hd. exact (NoDup_remove_1 _ _ _ Hd).
      * rewrite EAB, length_app in Hl. simpl in Hl. rewrite length_app. lia.
      * exists (c :: rest). rewrite E, <- app_assoc. split; [reflexivity |].
        rewrite EAB. rewrite Hp. apply Permutation_middle.
Qed.

End PACO3OptFacts.

Module ABCTSPFacts2.
Import ABCTSP.

Lemma fold_max_ge (l : list Z) (z : Z) :
  (z <= fold_left Z.max l z)%Z /\ forall x, In x l -> (x <= fold_left Z.max l z)%Z.
Proof.
  revert z; induction l as [| y l IH]; intros z; simpl; [split; [lia | tauto] |].
  destruct (IH (Z.max z y)) as [H1 H2]. split; [lia |].
  intros x [<- | Hx]; [lia | apply H2, Hx].
Qed.

Lemma fold_zadd_acc (l : list Z) (a : Z) : fold_left Z.add l a = (a + fold_left Z.add l 0)%Z.
Proof.
  revert a; induction l as [| x l IH]; intros a; simpl; [lia |].
  rewrite (IH (a + x)%Z), (IH x). lia.
Qed.

Lemma fold_zadd_lower (l : list Z) :
  (forall x, In x l -> (1 <= x)%Z) -> (Z.of_nat (length l) <= fold_left Z.add l 0)%Z /\
  (forall x, In x l -> (x <= fold_left Z.add l 0)%Z).
Proof.
  induction l as [| y l IH]; intros H; simpl; [split; [lia | tauto] |].
  rewrite fold_zadd_acc. destruct IH as [H1 H2]; [intros x Hx; apply H; now right |].
  pose proof (H y (or_introl eq_refl)). split; [lia |].
  intros x [<- | Hx]; [| specialize (H2 x Hx)]; lia.
Qed.

Lemma fold_qplus_div (l : list Z) (T : Q) (acc : Q) :
  ~ (T == 0)%Q ->
  (fold_left Qplus (map (fun f => inject_Z f / T) l) acc == acc + inject_Z (fold_left Z.add l 0%Z) / T)%Q.
Proof.
  intros HT. revert acc; induction l as [| x l IH]; intros acc; simpl.
  - field. exact HT.
  - rewrite IH, (fold_zadd_acc l x), inject_Z_plus. field. exact HT.
Qed.

(** The [splice] reversal of [genes[start..end_]] rearranges the tour. *)
Lemma reverse_range_perm (l : list nat) (start end_ : nat) :
  start <= end_ ->
  Permutation (firstn start l ++ rev (firstn (end_ - start + 1) (skipn start l)) ++ skipn (end_ + 1) l) l.
Proof.
  intros H.
  replace (skipn (end_ + 1) l) with (skipn (end_ - start + 1) (skipn start l))
    by (rewrite skipn_skipn; f_equal; lia).
  rewrite <- (firstn_skipn start l) at 4.
  apply Permutation_app_head.
  rewrite <- (firstn_skipn (end_ - start + 1) (skipn start l)) at 3.
  apply Permutation_app_tail. symmetry. apply Permutation_rev.
Qed.

End ABCTSPFacts2.


Module StandardGAOpsFacts.
Import StandardGAOps.

(** ** Selection *)

Lemma spinLoop_In rand sum population fitnesses c :
  spinLoop rand sum population fitnesses = Some c -> In c population.
Proof.
  revert sum fitnesses; induction population as [| c' cs IH]; intros sum [| f fs] E;
    simpl in E; try discriminate.
  destruct (Qle_bool rand (sum + inject_Z f)).
  - injection E as <-. left. reflexivity.
  - right. exact (IH _ _ E).
Qed.

Lemma spinLoop_some rand sum population fitnesses :
  length population = length fitnesses -> population <> [] ->
  (rand <= sum + inject_Z (fold_left Z.add fitnesses 0%Z))%Q ->
  exists c, spinLoop rand sum population fitnesses = Some c.
Proof.
  revert sum fitnesses; induction population as [| c cs IH]; intros sum [| f fs] Hl Hne Hr;
    simpl in Hl; try discriminate; [congruence |].
  simpl spinLoop. destruct (Qle_bool rand (sum + inject_Z f)) eqn:E; [exists c; reflexivity |].
  assert (E' : ~ (rand <= sum + inject_Z f)%Q) by (intros H; apply Qle_bool_iff in H; congruence).
  clear E. rename E' into E.
  simpl fold_left in Hr. rewrite ABCTSPFacts2.fold_zadd_acc in Hr. rewrite ?Z.add_0_l, inject_Z_plus in Hr.
  destruct cs as [| c' cs].
  - destruct fs; [| discriminate]. simpl in Hr. exfalso. apply E.
    apply Qle_trans with (1 := Hr). apply Qle_lteq. right. ring.
  - apply IH; [lia | discriminate |].
    apply Qle_trans with (1 := Hr). apply Qle_lteq. right. simpl. ring.
Qed.

(** ** Order crossover *)

Lemma mod_wrap x n : n <= x < 2 * n -> x mod n = x - n.
Proof.
  intros H. replace x with ((x - n) + 1 * n) at 1 by lia.
  rewrite Nat.Div0.mod_add. apply Nat.mod_small. lia.
Qed.

Lemma map_seq_shift (f : nat -> nat) a c k :
  (forall i, i < k -> f (a + i) = c + i) -> map f (seq a k) = seq c k.
Proof.
  revert a c; induction k as [| k IH]; intros a c H; simpl; [reflexivity |].
  f_equal.
  - specialize (H 0). rewrite !Nat.add_0_r in H. apply H. lia.
  - apply IH. intros i Hi. replace (S a + i) with (a + S i) by lia.
    replace (S c + i) with (c + S i) by lia. apply H. lia.
Qed.

Lemma map_nth_seq_self {A} (l : list A) d : map (fun i => nth i l d) (seq 0 (length l)) = l.
Proof.
  induction l as [| x l IH]; [reflexivity |]. cbn [length seq map]. f_equal.
  rewrite <- seq_shift, map_map. exact IH.
Qed.

Lemma repeat_map_seq {A} (x : A) s n : repeat x n = map (fun _ => x) (seq s n).
Proof. revert s; induction n as [| n IH]; intros s; simpl; [reflexivity | f_equal; apply IH]. Qed.

Lemma firstn_snoc {A} (l : list A) t d : t < length l -> firstn (S t) l = firstn t l ++ [nth t l d].
Proof.
  revert t; induction l as [| x l IH]; intros t Ht; simpl in Ht; [lia |].
  destruct t as [| t]; [reflexivity |].
  change (x :: firstn (S t) l = x :: (firstn t l ++ [nth t l d])). rewrite (IH t) by lia. reflexivity.
Qed.

Lemma nth_not_in_firstn {A} (l : list A) t d : NoDup l -> t < length l -> ~ In (nth t l d) (firstn t l).
Proof.
  intros Hnd Ht Hin. apply (In_nth _ _ d) in Hin as [i [Hi E]].
  rewrite length_firstn in Hi. rewrite nth_firstn in E.
  destruct (Nat.ltb_spec i t); [| lia].
  pose proof (proj1 (NoDup_nth l d) Hnd i t ltac:(lia) Ht E). lia.
Qed.

Lemma NoDup_map_nth_seq (l : list nat) a k :
  NoDup l -> a + k <= length l -> NoDup (map (fun i => nth i l 0) (seq a k)).
Proof.
  intros Hnd. revert a; induction k as [| k IH]; intros a Hk; simpl; [constructor |].
  constructor; [| apply IH; lia].
  intros Hin. apply in_map_iff in Hin as [j [E Hj]]. apply in_seq in Hj.
  pose proof (proj1 (NoDup_nth l 0) Hnd j a ltac:(lia) ltac:(lia) E). lia.
Qed.

Lemma childGenes_map (f : nat -> nat) l :
  childGenes (map (fun k => Some (Z.of_nat (f k))) l) = Some (map f l).
Proof.
  induction l as [| k l IH]; [reflexivity |]. cbn [map childGenes].
  destruct (Z.leb_spec 0 (Z.of_nat (f k))); [| lia].
  rewrite IH. simpl. rewrite Nat2Z.id. reflexivity.
Qed.

Section OX.
Variables (n start end_ : nat) (p1 p2 : list nat).
Hypothesis Hn : 1 <= n.
Hypothesis Hse : start <= end_.
Hypothesis Hen : end_ < n.
Hypothesis Hp1 : Permutation p1 (seq 0 n).
Hypothesis Hp2 : Permutation p2 (seq 0 n).

(** The genes copied from [parent1], the positions of the segment, the
    position of the [m]-th free cell and its inverse. *)
Definition segvals : list nat := map (fun i => nth i p1 0) (seq start (end_ - start + 1)).
Definition inseg (k : nat) : bool := (start <=? k) && (k <=? end_).
Definition pos (m : nat) : nat := (end_ + 1 + m) mod n.
Definition inv (k : nat) : nat := if end_ + 1 <=? k then k - (end_ + 1) else k + (n - (end_ + 1)).
Definition K : nat := n - (end_ - start + 1).
(** [parent2]'s genes from position [end + 1] on, cyclically, and those
    not in the segment. *)
Definition Pall : list nat := map (fun m => nth (pos m) p2 0) (seq 0 n).
Definition Qn : list nat := filter (fun g => negb (mem g segvals)) Pall.
(** The [child] array once the genes [Q] are placed from [end + 1] on. *)
Definition cellsOf (Q : list nat) : list (option Z) :=
  map (fun k => if inseg k then Some (Z.of_nat (nth k p1 0))
                else if inv k <? length Q then Some (Z.of_nat (nth (inv k) Q 0))
                else Some (-1)%Z) (seq 0 n).

Lemma len_p1 : length p1 = n.
Proof. rewrite (Permutation_length Hp1), length_seq. reflexivity. Qed.

Lemma len_p2 : length p2 = n.
Proof. rewrite (Permutation_length Hp2), length_seq. reflexivity. Qed.

Lemma pos_lt m : pos m < n.
Proof. unfold pos. apply Nat.mod_upper_bound. lia. Qed.

Lemma pos_eq m : m < n -> pos m = if end_ + 1 + m <? n then end_ + 1 + m else end_ + 1 + m - n.
Proof.
  intros Hm. unfold pos. destruct (Nat.ltb_spec (end_ + 1 + m) n).
  - apply Nat.mod_small. lia.
  - apply mod_wrap. lia.
Qed.

Lemma inv_pos m : m < n -> inv (pos m) = m.
Proof.
  intros Hm. rewrite pos_eq by exact Hm. unfold inv.
  destruct (Nat.ltb_spec (end_ + 1 + m) n).
  - destruct (Nat.leb_spec (end_ + 1) (end_ + 1 + m)); lia.
  - destruct (Nat.leb_spec (end_ + 1) (end_ + 1 + m - n)); lia.
Qed.

Lemma pos_inv k : k < n -> pos (inv k) = k.
Proof.
  intros Hk. unfold inv. destruct (Nat.leb_spec (end_ + 1) k).
  - rewrite pos_eq by lia. destruct (Nat.ltb_spec (end_ + 1 + (k - (end_ + 1))) n); lia.
  - rewrite pos_eq by lia. destruct (Nat.ltb_spec (end_ + 1 + (k + (n - (end_ + 1)))) n); lia.
Qed.

Lemma inseg_inv k : k < n -> (inseg k = false <-> inv k < K).
Proof.
  intros Hk. unfold inseg, inv, K.
  destruct (Nat.leb_spec start k), (Nat.leb_spec k end_), (Nat.leb_spec (end_ + 1) k);
    simpl; split; intros; try lia; congruence.
Qed.

Lemma pos_free_seq j : j <= end_ + 1 ->
  map pos (seq 0 ((n - (end_ + 1)) + j)) = seq (end_ + 1) (n - (end_ + 1)) ++ seq 0 j.
Proof.
  intros Hj. rewrite seq_app, map_app. f_equal.
  - apply map_seq_shift. intros i Hi. rewrite pos_eq by lia.
    destruct (Nat.ltb_spec (end_ + 1 + (0 + i)) n); lia.
  - apply map_seq_shift. intros i Hi. rewrite pos_eq by lia.
    destruct (Nat.ltb_spec (end_ + 1 + (0 + (n - (end_ + 1)) + i)) n); lia.
Qed.

Lemma pos_perm : Permutation (map pos (seq 0 n)) (seq 0 n).
Proof.
  assert (E : map pos (seq 0 n) = seq (end_ + 1) (n - (end_ + 1)) ++ seq 0 (end_ + 1)).
  { replace (seq 0 n) with (seq 0 ((n - (end_ + 1)) + (end_ + 1))) by (f_equal; lia).
    apply pos_free_seq. lia. }
  rewrite E. replace (seq 0 n) with (seq 0 ((end_ + 1) + (n - (end_ + 1)))) by (f_equal; lia).
  rewrite (seq_app (end_ + 1) (n - (end_ + 1)) 0), Nat.add_0_l. apply Permutation_app_comm.
Qed.

Lemma Pall_perm : Permutation Pall p2.
Proof.
  unfold Pall. rewrite <- (map_map pos (fun i => nth i p2 0)).
  apply Permutation_trans with (map (fun i => nth i p2 0) (seq 0 n)).
  - apply Permutation_map, pos_perm.
  - rewrite <- len_p2, map_nth_seq_self. apply Permutation_refl.
Qed.

Lemma Pall_NoDup : NoDup Pall.
Proof.
  apply (Permutation_NoDup (Permutation_sym Pall_perm)).
  apply (Permutation_NoDup (Permutation_sym Hp2)), seq_NoDup.
Qed.

Lemma segvals_perm : Permutation (segvals ++ Qn) (seq 0 n).
Proof.
  assert (Hnd1 : NoDup p1) by apply (Permutation_NoDup (Permutation_sym Hp1)), seq_NoDup.
  apply NoDup_Permutation; [| apply seq_NoDup |].
  - apply NoDup_app.
    + apply NoDup_map_nth_seq; [exact Hnd1 | rewrite len_p1; lia].
    + apply NoDup_filter, Pall_NoDup.
    + intros a Ha Hq. unfold Qn in Hq. apply filter_In in Hq as [_ Hq].
      apply negb_true_iff, mem_false in Hq. contradiction.
  - intros x. rewrite in_app_iff. split.
    + intros [Hx | Hx].
      * unfold segvals in Hx. apply in_map_iff in Hx as [i [<- Hi]]. apply in_seq in Hi.
        apply (Permutation_in _ Hp1). apply nth_In. rewrite len_p1. lia.
      * unfold Qn in Hx. apply filter_In in Hx as [Hx _].
        apply (Permutation_in _ Hp2), (Permutation_in _ Pall_perm), Hx.
    + intros Hx. destruct (mem x segvals) eqn:E; [left; apply mem_In, E |].
      right. unfold Qn. apply filter_In. split; [| rewrite E; reflexivity].
      apply (Permutation_in _ (Permutation_sym Pall_perm)), (Permutation_in _ (Permutation_sym Hp2)), Hx.
Qed.

Lemma len_Qn : length Qn = K.
Proof.
  pose proof (Permutation_length segvals_perm) as H.
  rewrite length_app, length_seq in H. unfold segvals in H. rewrite length_map, length_seq in H.
  unfold K. lia.
Qed.

(** The [child] array after the [for (let i = start; i <= end; i++)]
    loop. *)
Lemma initial_child :
  fold_left (fun ch i => Distance.list_set ch i (option_map Z.of_nat (nth_error p1 i)))
            (seq start (end_ - start + 1)) (repeat (Some (-1)%Z) n) = cellsOf [].
Proof.
  assert (G : forall j, j <= end_ - start + 1 ->
    fold_left (fun ch i => Distance.list_set ch i (option_map Z.of_nat (nth_error p1 i)))
              (seq start j) (repeat (Some (-1)%Z) n) =
    map (fun k => if (start <=? k) && (k <? start + j) then Some (Z.of_nat (nth k p1 0))
                  else Some (-1)%Z) (seq 0 n)).
  { induction j as [| j IH]; intros Hj.
    - simpl. rewrite (repeat_map_seq _ 0). apply map_ext. intros k.
      destruct (Nat.leb_spec start k), (Nat.ltb_spec k (start + 0)); simpl; try reflexivity; lia.
    - rewrite seq_S, fold_left_app, IH by lia. cbn [fold_left].
      rewrite DistanceFacts.list_set_map_seq by lia.
      rewrite (@nth_error_nth' nat p1 (start + j) 0) by (rewrite len_p1; lia). simpl option_map.
      apply map_ext. intros k.
      destruct (Nat.eqb_spec k (0 + (start + j))); [subst k; destruct (Nat.leb_spec start (0 + (start + j))), (Nat.ltb_spec (0 + (start + j)) (start + S j)); simpl; try lia; reflexivity |].
      destruct (Nat.leb_spec start k), (Nat.ltb_spec k (start + j)), (Nat.ltb_spec k (start + S j));
        simpl; try reflexivity; lia. }
  rewrite G by lia. unfold cellsOf. apply map_ext. intros k. unfold inseg.
  destruct (Nat.leb_spec start k), (Nat.ltb_spec k (start + (end_ - start + 1))), (Nat.leb_spec k end_);
    simpl; try reflexivity; lia.
Qed.

Lemma includes_empty Q : length Q <= K ->
  includes (Some (-1)%Z) (cellsOf Q) = (length Q <? K).
Proof.
  intros HQ. unfold includes. destruct (Nat.ltb_spec (length Q) K) as [Hlt | Hge].
  - apply existsb_exists. exists (Some (-1)%Z). split; [| apply Z.eqb_refl].
    unfold cellsOf. apply in_map_iff. exists (pos (length Q)). split.
    + rewrite inv_pos by (unfold K in Hlt; lia).
      assert (Hf : inseg (pos (length Q)) = false).
      { apply inseg_inv; [apply pos_lt |]. rewrite inv_pos by (unfold K in Hlt; lia). exact Hlt. }
      rewrite Hf, Nat.ltb_irrefl. reflexivity.
    + apply in_seq. pose proof (pos_lt (length Q)). lia.
  - apply not_true_is_false. intros Hin. apply existsb_exists in Hin as [c [Hc E]].
    unfold cellsOf in Hc. apply in_map_iff in Hc as [k [<- Hk]]. apply in_seq in Hk.
    destruct (inseg k) eqn:Hs; [cbn [cell_eqb] in E; apply Z.eqb_eq in E; lia |].
    destruct (Nat.ltb_spec (inv k) (length Q)); [cbn [cell_eqb] in E; apply Z.eqb_eq in E; lia |].
    apply inseg_inv in Hs; lia.
Qed.

Lemma includes_gene Q g : length Q <= K ->
  includes (Some (Z.of_nat g)) (cellsOf Q) = true <-> In g segvals \/ In g Q.
Proof.
  intros HQ. unfold includes. rewrite existsb_exists. split.
  - intros [c [Hc E]]. unfold cellsOf in Hc. apply in_map_iff in Hc as [k [<- Hk]].
    apply in_seq in Hk.
    destruct (inseg k) eqn:Hs.
    + cbn [cell_eqb] in E. apply Z.eqb_eq, Nat2Z.inj in E. subst g. left.
      unfold segvals. apply in_map_iff. exists k. split; [reflexivity |].
      unfold inseg in Hs. apply andb_true_iff in Hs as [H1 H2].
      apply Nat.leb_le in H1, H2. apply in_seq. lia.
    + destruct (Nat.ltb_spec (inv k) (length Q)); cbn [cell_eqb] in E; apply Z.eqb_eq in E; [| lia].
      apply Nat2Z.inj in E. subst g. right. apply nth_In. exact H.
  - intros [Hg | Hg].
    + unfold segvals in Hg. apply in_map_iff in Hg as [i [<- Hi]]. apply in_seq in Hi.
      exists (Some (Z.of_nat (nth i p1 0))). split; [| apply Z.eqb_refl].
      unfold cellsOf. apply in_map_iff. exists i. split.
      * assert (Hs : inseg i = true) by (unfold inseg; apply andb_true_iff; split; apply Nat.leb_le; lia).
        rewrite Hs. reflexivity.
      * apply in_seq. lia.
    + apply (In_nth _ _ 0) in Hg as [m [Hm <-]].
      exists (Some (Z.of_nat (nth m Q 0))). split; [| apply Z.eqb_refl].
      unfold cellsOf. apply in_map_iff. exists (pos m). split.
      * assert (Hi : inv (pos m) = m) by (apply inv_pos; unfold K in HQ; lia).
        assert (Hs : inseg (pos m) = false) by (apply inseg_inv; [apply pos_lt | lia]).
        rewrite Hs, Hi. destruct (Nat.ltb_spec m (length Q)); [reflexivity | lia].
      * apply in_seq. pose proof (pos_lt m). lia.
Qed.

Lemma set_cell Q g : length Q < K ->
  Distance.list_set (cellsOf Q) (pos (length Q)) (Some (Z.of_nat g)) = cellsOf (Q ++ [g]).
Proof.
  intros HQ. unfold cellsOf. rewrite DistanceFacts.list_set_map_seq by apply pos_lt.
  apply map_ext_in. intros k Hk. apply in_seq in Hk. rewrite length_app. simpl length.
  destruct (Nat.eqb_spec k (0 + pos (length Q))) as [Ek | Ek].
  - simpl in Ek. subst k.
    assert (Hi : inv (pos (length Q)) = length Q) by (apply inv_pos; unfold K in HQ; lia).
    assert (Hs : inseg (pos (length Q)) = false) by (apply inseg_inv; [apply pos_lt | lia]).
    rewrite Hs, Hi. destruct (Nat.ltb_spec (length Q) (length Q + 1)); [| lia].
    rewrite nth_middle. reflexivity.
  - destruct (inseg k); [reflexivity |].
    assert (Hne : inv k <> length Q) by (intros E; apply Ek; simpl; rewrite <- E, pos_inv; lia).
    destruct (Nat.ltb_spec (inv k) (length Q)), (Nat.ltb_spec (inv k) (length Q + 1)); try lia.
    + rewrite app_nth1 by exact H. reflexivity.
    + reflexivity.
Qed.

(** The genes of [parent2] met in the first [t] rounds that are not in the
    segment. *)
Definition Qt (t : nat) : list nat := filter (fun g => negb (mem g segvals)) (firstn t Pall).

Lemma Qt_prefix t : exists rest, Qn = Qt t ++ rest.
Proof.
  exists (filter (fun g => negb (mem g segvals)) (skipn t Pall)).
  unfold Qn, Qt. rewrite <- filter_app, firstn_skipn. reflexivity.
Qed.

Lemma Qt_len t : length (Qt t) <= K.
Proof. destruct (Qt_prefix t) as [rest E]. rewrite <- len_Qn, E, length_app. lia. Qed.

Lemma fillLoop_Qt fuel t :
  t <= n -> n - t < fuel ->
  fillLoop fuel n p2 (cellsOf (Qt t)) (pos (length (Qt t))) (pos t) = Some (cellsOf Qn).
Proof.
  revert t; induction fuel as [| fuel IH]; intros t Ht Hf; [lia |].
  cbn [fillLoop]. rewrite includes_empty by apply Qt_len.
  destruct (Nat.ltb_spec (length (Qt t)) K) as [Hlt | Hge].
  - assert (Htn : t < n).
    { destruct (Nat.eq_dec t n) as [-> | ]; [| lia].
      unfold Qt in Hlt. rewrite firstn_all2 in Hlt by (unfold Pall; rewrite length_map, length_seq; lia).
      fold Qn in Hlt. rewrite len_Qn in Hlt. lia. }
    assert (HlP : length Pall = n) by (unfold Pall; rewrite length_map, length_seq; reflexivity).
    assert (Hg : nth_error p2 (pos t) = Some (nth t Pall 0)).
    { rewrite (@nth_error_nth' nat p2 (pos t) 0) by (rewrite len_p2; apply pos_lt).
      unfold Pall. rewrite DistanceFacts.nth_map_seq by exact Htn. reflexivity. }
    rewrite Hg. simpl option_map.
    assert (HnQ : ~ In (nth t Pall 0) (Qt t)).
    { intros Hin. unfold Qt in Hin. apply filter_In in Hin as [Hin _].
      exact (nth_not_in_firstn Pall t 0 Pall_NoDup ltac:(lia) Hin). }
    assert (HS : Qt (S t) = Qt t ++ (if negb (mem (nth t Pall 0) segvals) then [nth t Pall 0] else [])).
    { unfold Qt. rewrite (firstn_snoc Pall t 0) by lia. rewrite filter_app. reflexivity. }
    assert (Hpt : (pos t + 1) mod n = pos (S t)).
    { unfold pos. rewrite Nat.Div0.add_mod_idemp_l. f_equal. lia. }
    rewrite Hpt.
    destruct (mem (nth t Pall 0) segvals) eqn:Em.
    + assert (Hinc : includes (Some (Z.of_nat (nth t Pall 0))) (cellsOf (Qt t)) = true).
      { apply includes_gene; [apply Qt_len | left; apply mem_In, Em]. }
      rewrite Hinc. simpl negb. cbv iota.
      simpl in HS. rewrite app_nil_r in HS. rewrite <- HS.
      apply IH; lia.
    + assert (Hinc : includes (Some (Z.of_nat (nth t Pall 0))) (cellsOf (Qt t)) = false).
      { apply not_true_is_false. intros H. apply includes_gene in H; [| apply Qt_len].
        destruct H as [H | H]; [apply mem_false in Em; contradiction | contradiction]. }
      rewrite Hinc. simpl negb. cbv iota.
      rewrite set_cell by exact Hlt. simpl in HS. rewrite <- HS.
      assert (Hc : (pos (length (Qt t)) + 1) mod n = pos (length (Qt (S t)))).
      { rewrite HS, length_app. unfold pos. rewrite Nat.Div0.add_mod_idemp_l. f_equal. simpl. lia. }
      rewrite Hc. apply IH; lia.
  - destruct (Nat.ltb_spec (length (Qt t)) K); [lia |].
    destruct (Qt_prefix t) as [rest E].
    assert (Hr : rest = []).
    { apply length_zero_iff_nil. pose proof len_Qn as HL. rewrite E, length_app in HL.
      pose proof (Qt_len t). lia. }
    rewrite E, Hr, app_nil_r. reflexivity.
Qed.

(** The tour of the child: the segment of [parent1] in place, the other
    cells filled with [Qn] from [end + 1] on. *)
Definition oxGenes : list nat :=
  map (fun k => if inseg k then nth k p1 0 else nth (inv k) Qn 0) (seq 0 n).

Lemma cellsOf_Qn : childGenes (cellsOf Qn) = Some oxGenes.
Proof.
  unfold oxGenes. rewrite <- childGenes_map. f_equal. unfold cellsOf. apply map_ext_in.
  intros k Hk. apply in_seq in Hk. destruct (inseg k) eqn:Hs; [reflexivity |].
  apply inseg_inv in Hs; [| lia]. rewrite len_Qn.
  destruct (Nat.ltb_spec (inv k) K); [reflexivity | lia].
Qed.

Lemma oxGenes_segment i : start <= i <= end_ -> nth i oxGenes 0 = nth i p1 0.
Proof.
  intros Hi. unfold oxGenes. rewrite DistanceFacts.nth_map_seq by lia.
  assert (Hs : inseg i = true) by (unfold inseg; apply andb_true_iff; split; apply Nat.leb_le; lia).
  rewrite Hs. reflexivity.
Qed.

Lemma oxGenes_free : map (fun m => nth (pos m) oxGenes 0) (seq 0 K) = Qn.
Proof.
  transitivity (map (fun m => nth m Qn 0) (seq 0 (length Qn))); [| apply map_nth_seq_self].
  rewrite len_Qn. apply map_ext_in. intros m Hm. apply in_seq in Hm. unfold oxGenes. rewrite DistanceFacts.nth_map_seq by apply pos_lt.
  assert (Hi : inv (pos m) = m) by (apply inv_pos; unfold K in Hm; lia).
  assert (Hs : inseg (pos m) = false) by (apply inseg_inv; [apply pos_lt | lia]).
  rewrite Hs, Hi. reflexivity.
Qed.

Lemma oxGenes_perm : Permutation oxGenes (seq 0 n).
Proof.
  apply Permutation_trans with (2 := segvals_perm).
  assert (Hsp : Permutation (seq 0 n) (seq start (end_ - start + 1) ++ map pos (seq 0 K))).
  { unfold K. replace (n - (end_ - start + 1)) with ((n - (end_ + 1)) + start) by lia.
    rewrite pos_free_seq by lia.
    replace (seq 0 n) with (seq 0 (start + ((end_ - start + 1) + (n - (end_ + 1))))) by (f_equal; lia).
    rewrite (seq_app start ((end_ - start + 1) + (n - (end_ + 1))) 0).
    rewrite (seq_app (end_ - start + 1) (n - (end_ + 1)) (0 + start)).
    replace (0 + start) with start by lia. replace (start + (end_ - start + 1)) with (end_ + 1) by lia.
    apply Permutation_trans with
      ((seq start (end_ - start + 1) ++ seq (end_ + 1) (n - (end_ + 1))) ++ seq 0 start).
    - apply Permutation_app_comm.
    - rewrite <- app_assoc. apply Permutation_refl. }
  unfold oxGenes. apply Permutation_trans with
    (map (fun k => if inseg k then nth k p1 0 else nth (inv k) Qn 0)
         (seq start (end_ - start + 1) ++ map pos (seq 0 K))).
  { apply Permutation_map, Hsp. }
  rewrite map_app, map_map. apply Permutation_app.
  - apply Permutation_refl'. unfold segvals. apply map_ext_in. intros i Hi. apply in_seq in Hi.
    assert (Hs : inseg i = true) by (unfold inseg; apply andb_true_iff; split; apply Nat.leb_le; lia).
    rewrite Hs. reflexivity.
  - apply Permutation_refl'.
    transitivity (map (fun m => nth m Qn 0) (seq 0 (length Qn))); [| apply map_nth_seq_self].
    rewrite len_Qn. apply map_ext_in. intros m Hm. apply in_seq in Hm.
    assert (Hi : inv (pos m) = m) by (apply inv_pos; unfold K in Hm; lia).
    assert (Hs : inseg (pos m) = false) by (apply inseg_inv; [apply pos_lt | lia]).
    rewrite Hs, Hi. reflexivity.
Qed.

(** The [while] loop run on the [child] array of the [for] loop. *)
Lemma fill_result fuel : n < fuel ->
  fillLoop fuel n p2
    (fold_left (fun ch i => Distance.list_set ch i (option_map Z.of_nat (nth_error p1 i)))
               (seq start (end_ - start + 1)) (repeat (Some (-1)%Z) n))
    ((end_ + 1) mod n) ((end_ + 1) mod n) = Some (cellsOf Qn).
Proof.
  intros Hf. rewrite initial_child.
  replace ((end_ + 1) mod n) with (pos 0) by (unfold pos; rewrite Nat.add_0_r; reflexivity).
  assert (H := fillLoop_Qt fuel 0). apply H; lia.
Qed.

End OX.

End StandardGAOpsFacts.


Module PheromoneFacts.
Import PACO3Opt.








End PheromoneFacts.

(** ** Claim theorems *)

(** C1. Bidirectional heuristic crossover of two parents that are
    permutations of [0..n-1] returns an offspring that is again a
    permutation of [0..n-1] (and for [n >= 1] it always returns one; for
    [n = 0] it throws instead of returning); the jumping gene operator maps
    every permutation of [0..n-1] to a permutation of [0..n-1], for every
    [PJG], [q] and every random draw. *)
Theorem C1_permutation_invariant :
  forall n (p1 p2 : Chromosome) (dm : DistanceMatrix) (r_dir r_start : Q),
    Permutation (genes p1) (seq 0 n) ->
    Permutation (genes p2) (seq 0 n) ->
    (0 <= r_start < 1)%Q ->
    (forall c, Crossover.bidirectionalHeuristicCrossover p1 p2 dm r_dir r_start = Ok c ->
               Permutation (genes c) (seq 0 n))
    /\ (1 <= n -> exists c, Crossover.bidirectionalHeuristicCrossover p1 p2 dm r_dir r_start = Ok c)
    /\ (forall (t : Chromosome) (PJG : Q) (q : Z) (r_apply : Q) (r_mask : nat -> Q) (r_insert : Q),
          Permutation (genes t) (seq 0 n) ->
          Permutation (genes (JumpingGene.jumpingGeneOperator t PJG q r_apply r_mask r_insert))
                      (seq 0 n)).
Proof.
  intros n p1 p2 dm r_dir r_start P1 P2 R.
  split; [| split].
  - intros c H. exact (CrossoverFacts.bhx_result_perm n p1 p2 dm r_dir r_start c P1 P2 H).
  - intros Hn. exact (CrossoverFacts.bhx_returns n p1 p2 dm r_dir r_start P1 Hn R).
  - intros t PJG q r_apply r_mask r_insert Pt.
    rewrite JumpingGeneFacts.jumpingGene_perm; [exact Pt |].
    eapply Permutation_NoDup; [symmetry; exact Pt | apply seq_NoDup].
Qed.

Lemma C1_permutation_invariant_witness :
  Permutation [0; 1; 2; 3; 4; 5] (seq 0 6) /\
  Permutation [3; 1; 5; 0; 2; 4] (seq 0 6) /\
  Crossover.bidirectionalHeuristicCrossover
    (mkChromosome [0; 1; 2; 3; 4; 5] 0 0) (mkChromosome [3; 1; 5; 0; 2; 4] 0 0)
    (fun a b => Z.of_nat (a + b)) (1 # 3) (1 # 2)
  = Ok (mkChromosome [3; 1; 2; 4; 5; 0] 30 30) /\
  Permutation [3; 1; 2; 4; 5; 0] (seq 0 6).
Proof.
  assert (P1 : Permutation [0; 1; 2; 3; 4; 5] (seq 0 6)) by reflexivity.
  assert (P2 : Permutation [3; 1; 5; 0; 2; 4] (seq 0 6))
    by prove_perm_seq.
  assert (E : Crossover.bidirectionalHeuristicCrossover
    (mkChromosome [0; 1; 2; 3; 4; 5] 0 0) (mkChromosome [3; 1; 5; 0; 2; 4] 0 0)
    (fun a b => Z.of_nat (a + b)) (1 # 3) (1 # 2)
    = Ok (mkChromosome [3; 1; 2; 4; 5; 0] 30 30)) by (vm_compute; reflexivity).
  split; [exact P1 | split; [exact P2 | split; [exact E |]]].
  destruct (C1_permutation_invariant 6 (mkChromosome [0; 1; 2; 3; 4; 5] 0 0)
              (mkChromosome [3; 1; 5; 0; 2; 4] 0 0) (fun a b => Z.of_nat (a + b))
              (1 # 3) (1 # 2) P1 P2) as [H _].
  - split; [discriminate | reflexivity].
  - exact (H _ E).
Defined.

(** C8. For every list of [n] points, [buildDistanceMatrix] returns an
    [n]-by-[n] matrix with [matrix[i][j] = matrix[j][i]],
    [matrix[i][i] = 0], and every off-diagonal entry equal to the
    Euclidean distance between points [i] and [j]. *)
Theorem C8_distance_matrix_symmetric :
  forall (cities : list Distance.City),
    let n := length cities in
    let m := Distance.buildDistanceMatrix cities in
    length m = n /\ (forall row, In row m -> length row = n) /\
    (forall i j, i < n -> j < n ->
       Distance.entry m i j = Distance.entry m j i /\
       Distance.entry m i i = 0%R /\
       (i <> j -> Distance.entry m i j =
                  Distance.calculateDistance (nth i cities Distance.noCity)
                                             (nth j cities Distance.noCity))).
Proof.
  intros cities n m. unfold m.
  rewrite DistanceFacts.buildDistanceMatrix_mat_of. fold n.
  split; [| split].
  - unfold DistanceFacts.mat_of. now rewrite length_map, length_seq.
  - intros row Hrow. unfold DistanceFacts.mat_of in Hrow.
    apply in_map_iff in Hrow as [a [<- _]]. now rewrite length_map, length_seq.
  - intros i j Hi Hj.
    rewrite !DistanceFacts.entry_mat_of by assumption.
    unfold DistanceFacts.target, DistanceFacts.D.
    split; [| split].
    + destruct (Nat.ltb_spec i j), (Nat.ltb_spec j i), (Nat.ltb_spec i n), (Nat.ltb_spec j n);
        simpl; try lia; reflexivity.
    + rewrite Nat.ltb_irrefl. reflexivity.
    + intros Hne.
      destruct (Nat.ltb_spec i j), (Nat.ltb_spec j i), (Nat.ltb_spec i n), (Nat.ltb_spec j n);
        simpl; try lia; try reflexivity.
      apply DistanceFacts.calculateDistance_sym.
Qed.

Lemma C8_distance_matrix_symmetric_witness :
  let cities := [Distance.mkCity 0 0 0; Distance.mkCity 1 3 4; Distance.mkCity 2 6 8] in
  Distance.entry (Distance.buildDistanceMatrix cities) 2 0
  = Distance.entry (Distance.buildDistanceMatrix cities) 0 2 /\
  Distance.entry (Distance.buildDistanceMatrix cities) 1 1 = 0%R /\
  Distance.entry (Distance.buildDistanceMatrix cities) 0 1
  = Distance.calculateDistance (Distance.mkCity 0 0 0) (Distance.mkCity 1 3 4).
Proof.
  intros cities.
  destruct (C8_distance_matrix_symmetric cities) as [_ [_ H]].
  split; [apply (H 2 0); simpl; lia |].
  split; [apply (H 1 1); simpl; lia |].
  apply (H 0 1); simpl; lia.
Defined.

(** C3 (as stated: every distance matrix).  On the asymmetric matrix
    below, the 4-city tour [[0; 1; 2; 3]] never leaves the [while] loop: one
    round turns it into [[0; 3; 2; 1]] with [improved = true], the next round
    turns it back, so [twoOptOperator] returns for no number of rounds. *)
Lemma C3_counterexample_asymmetric_cycle :
  let dm : DistanceMatrix := fun a b =>
    nth b (nth a [[0; 1; 3; 0]; [3; 0; 0; 0]; [3; 2; 0; 3]; [1; 2; 1; 0]]%Z []) 0%Z in
  dm 0 1 <> dm 1 0 /\
  TwoOpt.sweep dm 4 [0; 1; 2; 3] = ([0; 3; 2; 1], true) /\
  TwoOpt.sweep dm 4 [0; 3; 2; 1] = ([0; 1; 2; 3], true) /\
  forall fuel, TwoOpt.twoOptOperator fuel (mkChromosome [0; 1; 2; 3] 0 0) dm = None.
Proof.
  intros dm.
  assert (E1 : TwoOpt.sweep dm 4 [0; 1; 2; 3] = ([0; 3; 2; 1], true)) by (vm_compute; reflexivity).
  assert (E2 : TwoOpt.sweep dm 4 [0; 3; 2; 1] = ([0; 1; 2; 3], true)) by (vm_compute; reflexivity).
  split; [discriminate | split; [exact E1 | split; [exact E2 |]]].
  assert (L : forall fuel, TwoOpt.twoOptLoop fuel dm 4 [0; 1; 2; 3] = None /\
                           TwoOpt.twoOptLoop fuel dm 4 [0; 3; 2; 1] = None).
  { induction fuel as [| fuel [IH1 IH2]]; [split; reflexivity |].
    cbn [TwoOpt.twoOptLoop]. rewrite E1, E2. split; assumption. }
  intros fuel. unfold TwoOpt.twoOptOperator. cbn [genes length].
  destruct (L fuel) as [-> _]. reflexivity.
Qed.

(** C3 (amended).  For every tour and every symmetric distance matrix (as
    [buildDistanceMatrix] builds), [twoOptOperator] stops after finitely many
    rounds of its [while] loop, and whenever it stops it returns a
    rearrangement of the input tour in which no pair of edges [(i, i+1)],
    [(j, (j+1) mod n)] with [i < j] is improved by the edges [(i, j)],
    [(i+1, (j+1) mod n)], and whose [distance] and [fitness] are the cyclic
    length of the returned genes.  Lengths are exact here, not floating
    point. *)
Theorem C3_two_opt_symmetric :
  forall (dm : DistanceMatrix) (chromosome : Chromosome),
    (forall a b, dm a b = dm b a) ->
    (exists fuel c, TwoOpt.twoOptOperator fuel chromosome dm = Some c) /\
    (forall fuel c, TwoOpt.twoOptOperator fuel chromosome dm = Some c ->
       let gs := genes c in
       let n := length gs in
       Permutation gs (genes chromosome) /\
       (forall i j, i < j < n ->
          (TwoOpt.currentDist dm n gs i j <= TwoOpt.newDist dm n gs i j)%Z) /\
       distance c = calculateDistanceWithMatrix gs dm /\
       fitness c = distance c).
Proof.
  intros dm chromosome Hsym. split.
  - set (g0 := genes chromosome).
    destruct (TwoOptFacts.loop_terminates dm Hsym g0 (S (Z.to_nat
                (calculateDistanceWithMatrix g0 dm
                 - Z.of_nat (length g0) * TwoOptFacts.minEntry dm g0))) g0
                (Permutation_refl _) ltac:(lia)) as [r Hr].
    exists (S (Z.to_nat (calculateDistanceWithMatrix g0 dm
                 - Z.of_nat (length g0) * TwoOptFacts.minEntry dm g0))).
    unfold TwoOpt.twoOptOperator. fold g0. rewrite Hr. eexists. reflexivity.
  - intros fuel c H. unfold TwoOpt.twoOptOperator in H.
    destruct (TwoOpt.twoOptLoop fuel dm (length (genes chromosome)) (genes chromosome))
      as [r |] eqn:E; [| discriminate].
    injection H as <-. cbn [genes distance fitness].
    pose proof (TwoOptFacts.loop_perm dm Hsym fuel _ _ E) as Hp.
    rewrite <- (Permutation_length Hp).
    pose proof (TwoOptFacts.loop_some dm fuel _ _ _ E) as Hs.
    rewrite <- (Permutation_length Hp) in Hs.
    destruct (TwoOptFacts.sweep_false dm _ r r Hs) as [_ Hopt].
    split; [exact Hp | split; [| split; reflexivity]].
    intros i j Hij. specialize (Hopt i j Hij). apply Z.ltb_ge in Hopt. exact Hopt.
Qed.

Lemma C3_two_opt_symmetric_witness :
  let dm : DistanceMatrix := fun a b => Z.of_nat (a * b) in
  (forall a b, dm a b = dm b a) /\
  TwoOpt.twoOptOperator 10 (mkChromosome [0; 1; 2; 3] 0 0) dm
  = Some (mkChromosome [0; 2; 1; 3] 5 5) /\
  Permutation [0; 2; 1; 3] [0; 1; 2; 3].
Proof.
  intros dm.
  assert (Hsym : forall a b, dm a b = dm b a)
    by (intros a b; unfold dm; rewrite Nat.mul_comm; reflexivity).
  assert (E : TwoOpt.twoOptOperator 10 (mkChromosome [0; 1; 2; 3] 0 0) dm
              = Some (mkChromosome [0; 2; 1; 3] 5 5)) by (vm_compute; reflexivity).
  split; [exact Hsym | split; [exact E |]].
  destruct (C3_two_opt_symmetric dm (mkChromosome [0; 1; 2; 3] 0 0) Hsym) as [_ H].
  exact (proj1 (H 10 _ E)).
Defined.

(** C2. With [eliteCount >= 1] and a non-empty population, one generation of
    GA-JGHO and one of StandardGA never increase the best tour length
    ([getPopulation().best.distance]): the best tour of the previous
    population is among the elites, which are carried over unchanged.  For
    GA-JGHO this holds whatever steps 1 to 6 produce; for StandardGA
    whatever the crossover offspring and the mutations are. *)
Theorem C2_elitism_best_never_worse :
  (forall (st : GAJGHO.State) (breed : list Chromosome -> list Chromosome),
     1 <= eliteCount (GAJGHO.params st) -> GAJGHO.currentPopulation st <> [] ->
     exists d d', Elitism.bestDistance (GAJGHO.currentPopulation st) = Some d /\
                  Elitism.bestDistance
                    (GAJGHO.currentPopulation (Elitism.gajghoRunGeneration breed st))
                  = Some d' /\ (d' <= d)%Z) /\
  (forall (populationSize eliteCount : nat) (population : list Chromosome)
          (child : nat -> Chromosome) (mutation : nat -> Chromosome -> Chromosome),
     1 <= eliteCount -> population <> [] ->
     exists d d', Elitism.bestDistance population = Some d /\
                  Elitism.bestDistance
                    (Elitism.standardRunGeneration populationSize eliteCount population
                                                   child mutation)
                  = Some d' /\ (d' <= d)%Z).
Proof.
  split.
  - intros st breed He Hprev.
    destruct (ElitismFacts.sort_head _ Hprev) as (c & t & Es & _ & _).
    exists (distance c).
    enough (H : exists d', Elitism.bestDistance
                  (GAJGHO.currentPopulation (Elitism.gajghoRunGeneration breed st)) = Some d'
                  /\ (d' <= distance c)%Z).
    { destruct H as (d' & E & L). exists d'.
      split; [unfold Elitism.bestDistance; rewrite Es; reflexivity | split; assumption]. }
    cbn [Elitism.gajghoRunGeneration GAJGHO.currentPopulation].
    unfold Elitism.gajghoElitism. rewrite Es.
    destruct (ElitismFacts.js_slice_to_cons c t _ He) as [u Eu]. rewrite Eu.
    apply ElitismFacts.bestDistance_le.
    apply (Permutation_in _ (Permutation_sym (ElitismFacts.sort_perm _))).
    apply in_or_app. right. now left.
  - intros P e prev child mutation He Hprev.
    destruct (ElitismFacts.sort_head prev Hprev) as (c & t & Es & _ & _).
    exists (distance c).
    enough (H : exists d', Elitism.bestDistance
                  (Elitism.standardRunGeneration P e prev child mutation) = Some d'
                  /\ (d' <= distance c)%Z).
    { destruct H as (d' & E & L). exists d'.
      split; [unfold Elitism.bestDistance; rewrite Es; reflexivity | split; assumption]. }
    unfold Elitism.standardRunGeneration. rewrite Es.
    destruct e as [| e']; [lia |].
    apply ElitismFacts.bestDistance_le.
    apply (Permutation_in _ (Permutation_sym (ElitismFacts.sort_perm _))).
    simpl. left. reflexivity.
Qed.

Lemma C2_elitism_best_never_worse_witness :
  let pop := [mkChromosome [0; 1; 2] 7 7; mkChromosome [0; 2; 1] 5 5] in
  let st := GAJGHO.mkState 3 (fun _ _ => 1%Z) (mkAlgorithmParams 2 1) pop 0 in
  (exists d d', Elitism.bestDistance pop = Some d /\
     Elitism.bestDistance (GAJGHO.currentPopulation
       (Elitism.gajghoRunGeneration (fun _ => [mkChromosome [1; 0; 2] 9 9]) st)) = Some d'
     /\ (d' <= d)%Z) /\
  (exists d d', Elitism.bestDistance pop = Some d /\
     Elitism.bestDistance (Elitism.standardRunGeneration 2 1 pop
       (fun _ => mkChromosome [1; 0; 2] 9 9) (fun _ c => c)) = Some d'
     /\ (d' <= d)%Z).
Proof.
  intros pop st. destruct C2_elitism_best_never_worse as [H1 H2]. split.
  - exact (H1 st (fun _ => [mkChromosome [1; 0; 2] 9 9]) ltac:(simpl; lia) ltac:(discriminate)).
  - exact (H2 2 1 pop (fun _ => mkChromosome [1; 0; 2] 9 9) (fun _ c => c)
              ltac:(lia) ltac:(discriminate)).
Defined.

(** C10. [GAJGHO.getPopulation()] and [getStats()] need a non-empty
    population.  A freshly constructed object and one after [reset()] have
    an empty population; on it [best] and [worst] are [undefined], the
    average and the diversity are [0 / 0] ([NaN]), and [getStats()] throws a
    [TypeError].  After [initialize()] with [populationSize >= 1] the
    population has [populationSize] tours, [sorted[0]] and
    [sorted[length - 1]] exist, both divisions are by a positive count, and
    [getStats()] returns. *)
Theorem C10_snapshot_requires_population :
  (forall (cityCount : nat) (dm : DistanceMatrix) (params : AlgorithmParams),
     GAJGHO.currentPopulation (GAJGHO.create cityCount dm params) = []) /\
  (forall st : GAJGHO.State, GAJGHO.currentPopulation (GAJGHO.reset st) = []) /\
  (forall st : GAJGHO.State,
     GAJGHO.currentPopulation st = [] ->
     Population.best (GAJGHO.getPopulation st) = None /\
     Population.worst (GAJGHO.getPopulation st) = None /\
     Population.average (GAJGHO.getPopulation st) = None /\
     Population.diversity (GAJGHO.getPopulation st) = None /\
     GAJGHO.getStats st = Throw TypeError) /\
  (forall (st : GAJGHO.State) (draws : nat -> nat -> Q),
     1 <= populationSize (GAJGHO.params st) ->
     let st' := GAJGHO.initialize draws st in
     0 < length (GAJGHO.currentPopulation st') /\
     length (GAJGHO.currentPopulation st') = populationSize (GAJGHO.params st) /\
     (exists b w a dv,
        Population.best (GAJGHO.getPopulation st') = Some b /\
        Population.worst (GAJGHO.getPopulation st') = Some w /\
        Population.average (GAJGHO.getPopulation st') = Some a /\
        Population.diversity (GAJGHO.getPopulation st') = Some dv) /\
     exists stats, GAJGHO.getStats st' = Ok stats).
Proof.
  split; [reflexivity | split; [reflexivity | split]].
  - intros st E.
    destruct (GAJGHOFacts.getPopulation_empty st E) as (H1 & H2 & H3 & H4).
    repeat split; try assumption. exact (GAJGHOFacts.getStats_empty st E).
  - intros st draws HP st'.
    assert (Hl : length (GAJGHO.currentPopulation st') = populationSize (GAJGHO.params st))
      by apply GAJGHOFacts.initialize_length.
    assert (Hne : GAJGHO.currentPopulation st' <> []).
    { intros E. rewrite E in Hl. simpl in Hl. lia. }
    split; [lia | split; [exact Hl | split]].
    + exact (GAJGHOFacts.getPopulation_nonempty st' Hne).
    + exact (GAJGHOFacts.getStats_nonempty st' Hne).
Qed.

Lemma C10_snapshot_requires_population_witness :
  let st := GAJGHO.create 4 (fun a b => Z.of_nat (a + b)) (mkAlgorithmParams 3 1) in
  GAJGHO.getStats st = Throw TypeError /\
  GAJGHO.getStats (GAJGHO.reset (GAJGHO.initialize (fun _ _ => 0%Q) st)) = Throw TypeError /\
  exists stats, GAJGHO.getStats (GAJGHO.initialize (fun _ _ => 0%Q) st) = Ok stats.
Proof.
  intros st.
  destruct C10_snapshot_requires_population as (Hc & Hr & He & Hi).
  split; [exact (proj2 (proj2 (proj2 (proj2 (He st (Hc _ _ _)))))) |].
  split; [exact (proj2 (proj2 (proj2 (proj2 (He _ (Hr _)))))) |].
  exact (proj2 (proj2 (proj2 (Hi st (fun _ _ => 0%Q) ltac:(simpl; lia))))).
Defined.

(** C4 (as stated: initialization refuses fewer than 3 points or a zero
    population size with an error).  [GAJGHO.initialize()] on 2 cities
    builds 2-city tours without any error, and the store's
    [initializeAlgorithm] on 2 cities returns with its state unchanged
    instead of surfacing an error. *)
Lemma C4_counterexample_two_cities :
  let dm : DistanceMatrix := fun a b => if Nat.eqb a b then 0%Z else 5%Z in
  let st := GAJGHO.initialize (fun _ _ => 0%Q) (GAJGHO.create 2 dm (mkAlgorithmParams 2 1)) in
  let s := AlgorithmStore.mkStoreState 2 (mkAlgorithmParams 2 1) None None 0 [] false false in
  GAJGHO.currentPopulation st = [mkChromosome [1; 0] 10 10; mkChromosome [1; 0] 10 10] /\
  AlgorithmStore.initializeAlgorithm dm (fun _ _ => 0%Q) s = Ok s.
Proof. split; vm_compute; reflexivity. Qed.

(** C4 (amended).  [GAJGHO.initialize()] validates nothing: for every
    number of cities and every population size it builds [populationSize]
    tours, each a permutation of the cities (fewer than 3 included), with no
    error path.  The store's [initializeAlgorithm] with fewer than 3 cities
    only warns and leaves its state unchanged, with no algorithm created
    and no error surfaced; with at least 3 cities and [populationSize = 0]
    it throws the [TypeError] of [getStats()]; with at least 3 cities and a
    positive population size it installs the initialized algorithm. *)
Theorem C4_initialize_without_validation :
  (forall (st : GAJGHO.State) (draws : nat -> nat -> Q),
     (forall k i, 0 <= draws k i < 1)%Q ->
     let st' := GAJGHO.initialize draws st in
     length (GAJGHO.currentPopulation st') = populationSize (GAJGHO.params st) /\
     GAJGHO.generation st' = 0 /\
     (forall c, In c (GAJGHO.currentPopulation st') ->
        Permutation (genes c) (seq 0 (GAJGHO.cityCount st)))) /\
  (forall (dm : DistanceMatrix) (draws : nat -> nat -> Q) (s : AlgorithmStore.StoreState),
     AlgorithmStore.cityCount s < 3 ->
     AlgorithmStore.initializeAlgorithm dm draws s = Ok s) /\
  (forall (dm : DistanceMatrix) (draws : nat -> nat -> Q) (s : AlgorithmStore.StoreState),
     3 <= AlgorithmStore.cityCount s -> populationSize (AlgorithmStore.params s) = 0 ->
     AlgorithmStore.initializeAlgorithm dm draws s = Throw TypeError) /\
  (forall (dm : DistanceMatrix) (draws : nat -> nat -> Q) (s : AlgorithmStore.StoreState),
     3 <= AlgorithmStore.cityCount s -> 1 <= populationSize (AlgorithmStore.params s) ->
     exists s', AlgorithmStore.initializeAlgorithm dm draws s = Ok s' /\
                AlgorithmStore.algorithm s' =
                Some (GAJGHO.initialize draws
                        (GAJGHO.create (AlgorithmStore.cityCount s) dm (AlgorithmStore.params s)))).
Proof.
  split; [| split; [| split]].
  - intros st draws Hd st'. split; [apply GAJGHOFacts.initialize_length | split; [reflexivity |]].
    intros c Hc. unfold st' in Hc. rewrite GAJGHOFacts.initialize_population in Hc.
    apply in_map_iff in Hc as [k [<- _]].
    apply InitializationFacts.generateRandomChromosome_perm. intros i. apply Hd.
  - intros dm draws s Hs. unfold AlgorithmStore.initializeAlgorithm.
    apply Nat.ltb_lt in Hs. rewrite Hs. reflexivity.
  - intros dm draws s Hs HP. unfold AlgorithmStore.initializeAlgorithm.
    destruct (Nat.ltb_spec (AlgorithmStore.cityCount s) 3); [lia |].
    rewrite GAJGHOFacts.getStats_empty; [reflexivity |].
    rewrite GAJGHOFacts.initialize_population. cbn [GAJGHO.params GAJGHO.create].
    rewrite HP. reflexivity.
  - intros dm draws s Hs HP. unfold AlgorithmStore.initializeAlgorithm.
    destruct (Nat.ltb_spec (AlgorithmStore.cityCount s) 3); [lia |].
    set (alg := GAJGHO.initialize draws
                  (GAJGHO.create (AlgorithmStore.cityCount s) dm (AlgorithmStore.params s))).
    destruct (GAJGHOFacts.getStats_nonempty alg) as [stats Es].
    + intros E. pose proof (GAJGHOFacts.initialize_length draws
          (GAJGHO.create (AlgorithmStore.cityCount s) dm (AlgorithmStore.params s))) as Hl.
      fold alg in Hl. rewrite E in Hl. simpl in Hl. lia.
    + rewrite Es. eexists. split; reflexivity.
Qed.

Lemma C4_initialize_without_validation_witness :
  let dm : DistanceMatrix := fun a b => if Nat.eqb a b then 0%Z else 5%Z in
  let s0 := AlgorithmStore.mkStoreState 2 (mkAlgorithmParams 4 1) None None 0 [] false false in
  let s1 := AlgorithmStore.mkStoreState 3 (mkAlgorithmParams 0 1) None None 0 [] false false in
  let s2 := AlgorithmStore.mkStoreState 3 (mkAlgorithmParams 4 1) None None 0 [] false false in
  length (GAJGHO.currentPopulation
            (GAJGHO.initialize (fun _ _ => 0%Q) (GAJGHO.create 2 dm (mkAlgorithmParams 4 1))))
  = 4 /\
  AlgorithmStore.initializeAlgorithm dm (fun _ _ => 0%Q) s0 = Ok s0 /\
  AlgorithmStore.initializeAlgorithm dm (fun _ _ => 0%Q) s1 = Throw TypeError /\
  (exists s', AlgorithmStore.initializeAlgorithm dm (fun _ _ => 0%Q) s2 = Ok s' /\
              AlgorithmStore.algorithm s' <> None).
Proof.
  intros dm s0 s1 s2.
  destruct C4_initialize_without_validation as (H1 & H2 & H3 & H4).
  assert (Hd : forall k i : nat, (0 <= (fun _ _ => 0%Q) k i < 1)%Q)
    by (intros k i; split; [apply Qle_refl | reflexivity]).
  split; [exact (proj1 (H1 (GAJGHO.create 2 dm (mkAlgorithmParams 4 1)) _ Hd)) |].
  split; [exact (H2 dm _ s0 ltac:(simpl; lia)) |].
  split; [exact (H3 dm _ s1 ltac:(simpl; lia) eq_refl) |].
  destruct (H4 dm (fun _ _ => 0%Q) s2 ltac:(simpl; lia) ltac:(simpl; lia)) as (s' & E & A).
  exists s'. split; [exact E | rewrite A; discriminate].
Defined.

(** C9. ABCTSP keeps [floor(populationSize / 2)] food sources: [initialize()]
    always ends (normally, or with the [TypeError] of [updateStats()] when
    the colony is empty) with exactly [floor(populationSize / 2)] sources,
    and ends normally exactly when [populationSize >= 2]; every ended run
    of [runGeneration()] (employed, onlooker and scout phases, then
    [updateStats()] and [getPopulation()]) leaves the number of sources
    unchanged, and its snapshot, like the one of [getPopulation()], lists
    that many chromosomes. *)
Theorem C9_abc_colony_size :
  (forall s, exists s', ABCTSP.outcomeState (ABCTSP.initialize s) = Some s' /\
                        length (ABCTSP.foodSources s') = populationSize (ABCTSP.params s) / 2) /\
  (forall s, (exists s', ABCTSP.initialize s = ABCTSP.Normal (tt, s')) <->
             2 <= populationSize (ABCTSP.params s)) /\
  (forall fuel s s', ABCTSP.outcomeState (ABCTSP.runGeneration fuel s) = Some s' ->
                     length (ABCTSP.foodSources s') = length (ABCTSP.foodSources s)) /\
  (forall fuel s p s', ABCTSP.runGeneration fuel s = ABCTSP.Normal (p, s') ->
                       length (Population.chromosomes p) = length (ABCTSP.foodSources s)) /\
  (forall s p s', ABCTSP.getPopulation s = ABCTSP.Normal (p, s') ->
                  length (Population.chromosomes p) = length (ABCTSP.foodSources s)).
Proof.
  split; [exact ABCTSPFacts.initialize_count |].
  split; [exact ABCTSPFacts.initialize_normal |].
  split; [exact ABCTSPFacts.keeps_runGeneration |].
  split.
  - intros fuel s p s' H.
    rewrite (ABCTSPFacts.runGeneration_snapshot _ _ _ _ H).
    apply (ABCTSPFacts.keeps_runGeneration fuel s s'). rewrite H. reflexivity.
  - intros s p s' H.
    rewrite (ABCTSPFacts.getPopulation_chromosomes _ _ _ H).
    apply (ABCTSPFacts.keeps_getPopulation s s'). rewrite H. reflexivity.
Qed.

Lemma C9_abc_colony_size_witness :
  let s0 := ABCTSP.create 4 (fun a b => Z.of_nat (a * b + a + b)) (mkAlgorithmParams 4 1)
              (fun k => if Nat.even k then 0%Q else (1#3)%Q) in
  exists s1 p s2,
    ABCTSP.initialize s0 = ABCTSP.Normal (tt, s1) /\ length (ABCTSP.foodSources s1) = 2 /\
    ABCTSP.runGeneration 10 s1 = ABCTSP.Normal (p, s2) /\
    length (Population.chromosomes p) = 2 /\ length (ABCTSP.foodSources s2) = 2.
Proof.
  intros s0.
  destruct C9_abc_colony_size as [H1 [_ [H3 [H4 _]]]].
  set (s1 := match ABCTSP.initialize s0 with ABCTSP.Normal (_, s) => s | _ => s0 end).
  assert (E1 : ABCTSP.initialize s0 = ABCTSP.Normal (tt, s1)) by (subst s1 s0; vm_compute; reflexivity).
  assert (E2 : exists p s2, ABCTSP.runGeneration 10 s1 = ABCTSP.Normal (p, s2))
    by (subst s1 s0; vm_compute; do 2 eexists; reflexivity).
  assert (Hp : populationSize (ABCTSP.params s0) = 4) by reflexivity.
  clearbody s1 s0. destruct E2 as [p [s2 E2]].
  assert (L1 : length (ABCTSP.foodSources s1) = 2).
  { destruct (H1 s0) as [s' [Es Ls]]. rewrite E1 in Es. cbn [ABCTSP.outcomeState] in Es.
    injection Es as <-. rewrite Ls, Hp. reflexivity. }
  exists s1, p, s2. split; [exact E1 |]. split; [exact L1 |]. split; [exact E2 |].
  split.
  - rewrite (H4 10 s1 p s2 E2). exact L1.
  - rewrite (H3 10 s1 s2 ltac:(rewrite E2; reflexivity)). exact L1.
Defined.

(** C5. [initialize()] of GAJGHO resets the generation counter to [0];
    [initialize()] of StandardGA, ABCTSP and PACO3Opt never writes
    [currentGeneration]: whenever it returns (or, for ABCTSP, ends by an
    exception) the counter is the one before the call, however many
    generations were run before. *)
Theorem C5_initialize_generation :
  (forall draws st, GAJGHO.generation (GAJGHO.initialize draws st) = 0) /\
  (forall draws s s', StandardGA.initialize draws s = Ok s' ->
                      StandardGA.currentGeneration s' = StandardGA.currentGeneration s) /\
  (forall s s', ABCTSP.outcomeState (ABCTSP.initialize s) = Some s' ->
                ABCTSP.currentGeneration s' = ABCTSP.currentGeneration s) /\
  (forall draws s s', PACO3Opt.initialize draws s = Ok s' ->
                      PACO3Opt.currentGeneration s' = PACO3Opt.currentGeneration s).
Proof.
  split; [reflexivity |].
  split; [| split; [exact ABCTSPFacts.initialize_generation |]].
  - intros draws s s'. unfold StandardGA.initialize, StandardGA.updateStats. cbn zeta.
    destruct (sortByDistance _); [discriminate |]. intros H. injection H as <-. reflexivity.
  - intros draws s s'. unfold PACO3Opt.initialize.
    destruct (PACO3Opt.newSolutions draws s) as [sols | e]; [| discriminate].
    unfold PACO3Opt.updateStats. cbn zeta.
    destruct (sortByDistance _); [discriminate |]. intros H. injection H as <-. reflexivity.
Qed.

Lemma C5_initialize_generation_witness :
  let dm := fun a b : nat => Z.of_nat (a * b + a + b) in
  let draws := fun k i : nat => (Z.of_nat ((k + i) mod 3) # 3)%Q in
  (exists s1 s2 s3,
     StandardGA.initialize draws (StandardGA.create 4 dm (mkAlgorithmParams 2 1)) = Ok s1 /\
     StandardGA.runGeneration (fun _ => Initialization.createChromosome [3; 2; 1; 0] dm)
                              (fun _ c => c) s1 = Ok s2 /\
     StandardGA.currentGeneration s2 = 1 /\
     StandardGA.initialize draws s2 = Ok s3 /\ StandardGA.currentGeneration s3 = 1) /\
  (exists s1 p s2 s3,
     ABCTSP.initialize (ABCTSP.create 4 dm (mkAlgorithmParams 4 1) (draws 0)) = ABCTSP.Normal (tt, s1) /\
     ABCTSP.runGeneration 10 s1 = ABCTSP.Normal (p, s2) /\
     ABCTSP.currentGeneration s2 = 1 /\
     ABCTSP.outcomeState (ABCTSP.initialize s2) = Some s3 /\ ABCTSP.currentGeneration s3 = 1) /\
  (exists s1 s2 s3,
     PACO3Opt.initialize draws (PACO3Opt.create 4 dm (mkAlgorithmParams 2 1)) = Ok s1 /\
     PACO3Opt.runGeneration draws s1 = Ok s2 /\
     PACO3Opt.currentGeneration s2 = 1 /\
     PACO3Opt.initialize draws s2 = Ok s3 /\ PACO3Opt.currentGeneration s3 = 1).
Proof.
  intros dm draws.
  destruct C5_initialize_generation as [_ [HS [HA HP]]].
  split; [| split].
  - assert (B : match StandardGA.initialize draws (StandardGA.create 4 dm (mkAlgorithmParams 2 1)) with
                | Ok s1 =>
                    match StandardGA.runGeneration
                            (fun _ => Initialization.createChromosome [3; 2; 1; 0] dm)
                            (fun _ c => c) s1 with
                    | Ok s2 => Nat.eqb (StandardGA.currentGeneration s2) 1 &&
                               match StandardGA.initialize draws s2 with Ok _ => true | _ => false end
                    | _ => false
                    end
                | _ => false
                end = true) by (subst draws dm; vm_compute; reflexivity).
    apply ResultFacts.ok_of_check in B. destruct B as [s1 [E1 B]].
    apply ResultFacts.ok_of_check in B. destruct B as [s2 [E2 B]].
    apply andb_prop in B. destruct B as [G2 B]. apply Nat.eqb_eq in G2.
    apply ResultFacts.ok_of_check in B. destruct B as [s3 [E3 _]].
    exists s1, s2, s3. rewrite (HS draws s2 s3 E3). repeat split; assumption.
  - assert (B : match ABCTSP.initialize (ABCTSP.create 4 dm (mkAlgorithmParams 4 1) (draws 0)) with
                | ABCTSP.Normal (u, s1) =>
                    match ABCTSP.runGeneration 10 s1 with
                    | ABCTSP.Normal (p, s2) =>
                        Nat.eqb (ABCTSP.currentGeneration s2) 1 &&
                        match ABCTSP.outcomeState (ABCTSP.initialize s2) with
                        | Some _ => true | None => false end
                    | _ => false
                    end
                | _ => false
                end = true) by (subst draws dm; vm_compute; reflexivity).
    apply ResultFacts.normal_of_check in B. destruct B as [[] [s1 [E1 B]]].
    apply ResultFacts.normal_of_check in B. destruct B as [p [s2 [E2 B]]].
    apply andb_prop in B. destruct B as [G2 B]. apply Nat.eqb_eq in G2.
    apply ResultFacts.some_of_check in B. destruct B as [s3 [E3 _]].
    exists s1, p, s2, s3. rewrite (HA s2 s3 E3). repeat split; assumption.
  - assert (B : match PACO3Opt.initialize draws (PACO3Opt.create 4 dm (mkAlgorithmParams 2 1)) with
                | Ok s1 =>
                    match PACO3Opt.runGeneration draws s1 with
                    | Ok s2 => Nat.eqb (PACO3Opt.currentGeneration s2) 1 &&
                               match PACO3Opt.initialize draws s2 with Ok _ => true | _ => false end
                    | _ => false
                    end
                | _ => false
                end = true) by (subst draws dm; vm_compute; reflexivity).
    apply ResultFacts.ok_of_check in B. destruct B as [s1 [E1 B]].
    apply ResultFacts.ok_of_check in B. destruct B as [s2 [E2 B]].
    apply andb_prop in B. destruct B as [G2 B]. apply Nat.eqb_eq in G2.
    apply ResultFacts.ok_of_check in B. destruct B as [s3 [E3 _]].
    exists s1, s2, s3. rewrite (HP draws s2 s3 E3). repeat split; assumption.
Defined.

(** C6: [uniqueOperator] keeps the length of the population; an entry
    whose gene sequence does not occur earlier is kept unchanged, and a
    later duplicate is replaced by a tour [generateRandomChromosome] makes
    (a permutation of the cities when the draws lie in [0, 1)) with fitness
    and distance 0.  [calculateFitnessAfterUnique] recomputes the tour
    length of exactly the entries of fitness 0, so a replacement gets the
    length of its own tour.  Five copies of one tour give the original
    followed by four generated tours. *)
Theorem C6_unique_operator (n : nat) (draws : nat -> nat -> Q) (dm : DistanceMatrix)
        (population : list Chromosome) :
  (forall i k, 0 <= draws i k < 1)%Q ->
  length (Unique.uniqueOperator population n draws) = length population /\
  (forall i c, nth_error population i = Some c ->
     (~ In (genes c) (map genes (firstn i population)) ->
        nth_error (Unique.uniqueOperator population n draws) i = Some c) /\
     (In (genes c) (map genes (firstn i population)) ->
        nth_error (Unique.uniqueOperator population n draws) i =
          Some (mkChromosome (Initialization.generateRandomChromosome n (draws i)) 0 0) /\
        Permutation (Initialization.generateRandomChromosome n (draws i)) (seq 0 n) /\
        nth_error (Unique.calculateFitnessAfterUnique
                     (Unique.uniqueOperator population n draws) dm) i =
          Some (Initialization.createChromosome
                  (Initialization.generateRandomChromosome n (draws i)) dm))) /\
  (forall cs i c, nth_error cs i = Some c ->
     nth_error (Unique.calculateFitnessAfterUnique cs dm) i =
       Some (if (fitness c =? 0)%Z then Initialization.createChromosome (genes c) dm else c)) /\
  (forall c, Unique.uniqueOperator (repeat c 5) n draws =
     c :: map (fun i => mkChromosome (Initialization.generateRandomChromosome n (draws i)) 0 0)
              [1; 2; 3; 4]).
Proof.
  intros Hd. split; [| split; [| split]].
  - apply UniqueFacts.uniqueLoop_length.
  - intros i c Hc.
    destruct (UniqueFacts.uniqueLoop_nth n draws [] 0 population i c Hc) as [H1 H2].
    split; [exact H2 |]. intros Hin. specialize (H1 Hin). simpl in H1.
    split; [exact H1 | split].
    + apply InitializationFacts.generateRandomChromosome_perm. intros k. apply Hd.
    + unfold Unique.uniqueOperator. rewrite (UniqueFacts.calculateFitnessAfterUnique_nth _ _ _ _ H1).
      reflexivity.
  - intros cs i c. apply UniqueFacts.calculateFitnessAfterUnique_nth.
  - intros c. apply UniqueFacts.uniqueOperator_repeat5.
Qed.

Lemma C6_unique_operator_witness :
  (forall i k, 0 <= (fun _ _ : nat => 0%Q) i k < 1)%Q /\
  length (Unique.uniqueOperator [mkChromosome [0; 1; 2] 7 7; mkChromosome [0; 1; 2] 7 7] 3
            (fun _ _ => 0%Q)) = 2.
Proof.
  split.
  - intros i k. split; [apply Qle_refl | reflexivity].
  - destruct (C6_unique_operator 3 (fun _ _ => 0%Q) (fun a b => Z.of_nat (a + b))
                [mkChromosome [0; 1; 2] 7 7; mkChromosome [0; 1; 2] 7 7]) as [H _].
    + intros i k. split; [apply Qle_refl | reflexivity].
    + exact H.
Defined.

(** C7: [rouletteWheelSelect] with a draw [r] in [0, 1).  When the fitness
    values sum to 0 and the population is not empty, it returns tour [i]
    for the [i] with [i <= r * N < i + 1]: an interval of draws of length
    [1/N] for each of the [N] tours, and never [undefined].  When they sum
    to a positive total [T], are nonnegative and as many as the tours, it
    returns tour [i] exactly when [r * T] lies in the interval from the
    sum of the first [i] values (excluded, except for [i = 0]) to the sum
    of the first [i + 1] (included), whose length is the [i]-th value: the
    tour is drawn with probability its fitness over [T]. *)
Theorem C7_roulette_wheel :
  (forall population fitnessValues r,
     (Selection.totalOf fitnessValues == 0)%Q -> (0 <= r < 1)%Q -> population <> [] ->
     exists i, i < length population /\
       Selection.rouletteWheelSelect population fitnessValues r = nth_error population i /\
       Selection.rouletteWheelSelect population fitnessValues r <> None /\
       (inject_Z (Z.of_nat i) <= r * inject_Z (Z.of_nat (length population)) <
          inject_Z (Z.of_nat i) + 1)%Q) /\
  (forall population fitnessValues r,
     length fitnessValues = length population ->
     (forall f, In f fitnessValues -> 0 <= f)%Q ->
     (0 < Selection.totalOf fitnessValues)%Q -> (0 <= r < 1)%Q ->
     (exists i, i < length population /\
        (i = 0 \/ (SelectionFacts.prefixTotal fitnessValues i <
                    r * Selection.totalOf fitnessValues)%Q) /\
        (r * Selection.totalOf fitnessValues <=
           SelectionFacts.prefixTotal fitnessValues (S i))%Q /\
        Selection.rouletteWheelSelect population fitnessValues r = nth_error population i) /\
     (forall i, i < length population ->
        (i = 0 \/ (SelectionFacts.prefixTotal fitnessValues i <
                    r * Selection.totalOf fitnessValues)%Q) ->
        (r * Selection.totalOf fitnessValues <=
           SelectionFacts.prefixTotal fitnessValues (S i))%Q ->
        Selection.rouletteWheelSelect population fitnessValues r = nth_error population i) /\
     (forall i, i < length population ->
        SelectionFacts.prefixTotal fitnessValues (S i) =
          (SelectionFacts.prefixTotal fitnessValues i + nth i fitnessValues 0)%Q)).
Proof.
  split.
  - intros population fv r Ht [Hr0 Hr1] Hne.
    assert (HN : 0 < length population) by (destruct population; [congruence | simpl; lia]).
    destruct (floor_mul_range r (length population) Hr0 Hr1 HN) as [Hf0 Hf1].
    assert (Hsel : Selection.rouletteWheelSelect population fv r =
                   nth_error population (Z.to_nat (floor_mul r (length population)))).
    { unfold Selection.rouletteWheelSelect.
      replace (Qeq_bool (Selection.totalOf fv) 0) with true
        by (symmetry; apply Qeq_bool_iff; exact Ht).
      reflexivity. }
    exists (Z.to_nat (floor_mul r (length population))).
    assert (Hi : Z.to_nat (floor_mul r (length population)) < length population) by lia.
    split; [exact Hi | split; [exact Hsel | split]].
    + rewrite Hsel. apply nth_error_Some. exact Hi.
    + rewrite Z2Nat.id by lia. unfold floor_mul. split.
      * apply Qfloor_le.
      * change 1%Q with (inject_Z 1). rewrite <- inject_Z_plus. apply Qlt_floor.
  - intros population fv r Hlen Hnn Ht [Hr0 Hr1].
    set (T := Selection.totalOf fv) in *.
    assert (Hs0 : (0 <= r * T)%Q) by (apply Qmult_le_0_compat; [exact Hr0 | apply Qlt_le_weak, Ht]).
    assert (HsT : (r * T < T)%Q).
    { rewrite <- (Qmult_1_l T) at 2. apply Qmult_lt_compat_r; assumption. }
    assert (Hsel : forall j, Selection.spinLoop fv (r * T) (Some 0%Q) 0 (length fv) = Some j ->
                   Selection.rouletteWheelSelect population fv r = nth_error population j).
    { intros j Hj. unfold Selection.rouletteWheelSelect. fold T.
      replace (Qeq_bool T 0) with false.
      - rewrite <- Hlen, Hj. reflexivity.
      - symmetry. apply not_true_iff_false. intros E. apply Qeq_bool_iff in E.
        rewrite E in Ht. exact (Qlt_irrefl 0 Ht). }
    destruct (SelectionFacts.spinLoop_found fv (r * T) Hs0 HsT) as [j [Hj [Hjl [Hup Hbefore]]]].
    split; [| split].
    + exists j. split; [lia | split; [| split; [exact Hup | apply Hsel, Hj]]].
      destruct j as [|j]; [left; reflexivity | right; apply Hbefore; lia].
    + intros i Hi Hlo Hhi. rewrite (Hsel j Hj). f_equal.
      destruct (lt_eq_lt_dec i j) as [[Hlt|]|Hgt]; [| congruence |].
      * exfalso. specialize (Hbefore i Hlt). apply (Qlt_irrefl (r * T)).
        eapply Qle_lt_trans; [exact Hhi | exact Hbefore].
      * exfalso. destruct Hlo as [->|Hlo]; [lia |].
        apply (Qlt_irrefl (r * T)). eapply Qle_lt_trans; [exact Hup |].
        eapply Qle_lt_trans; [apply SelectionFacts.prefixTotal_mono; [exact Hnn | exact Hgt] | exact Hlo].
    + intros i Hi. apply SelectionFacts.prefixTotal_S.
      apply nth_error_nth'. lia.
Qed.

Lemma C7_roulette_wheel_witness :
  Selection.rouletteWheelSelect
    [mkChromosome [0; 1; 2] 3 3; mkChromosome [0; 2; 1] 4 4; mkChromosome [1; 0; 2] 5 5]
    [1; 2; 1]%Q (1 # 2) = Some (mkChromosome [0; 2; 1] 4 4) /\
  Selection.rouletteWheelSelect [mkChromosome [0; 1] 2 2; mkChromosome [1; 0] 2 2]
    [0; 0]%Q (1 # 2) <> None.
Proof.
  destruct C7_roulette_wheel as [Hz Hp]. split.
  - destruct (Hp [mkChromosome [0; 1; 2] 3 3; mkChromosome [0; 2; 1] 4 4; mkChromosome [1; 0; 2] 5 5]
                 [1; 2; 1]%Q (1 # 2)) as [_ [Hconv _]].
    + reflexivity.
    + intros f Hf. simpl in Hf.
      destruct Hf as [<-|[<-|[<-|[]]]]; apply Qle_bool_iff; reflexivity.
    + reflexivity.
    + split; [apply Qle_bool_iff; reflexivity | reflexivity].
    + rewrite (Hconv 1); [reflexivity | simpl; lia | right; reflexivity |].
      apply Qle_bool_iff. reflexivity.
  - destruct (Hz [mkChromosome [0; 1] 2 2; mkChromosome [1; 0] 2 2] [0; 0]%Q (1 # 2))
      as [i [_ [_ [H _]]]].
    + reflexivity.
    + split; [apply Qle_bool_iff; reflexivity | reflexivity].
    + discriminate.
    + exact H.
Defined.

(** ** Further properties of the code *)

(** [countDuplicates] counts the entries whose gene sequence occurs
    earlier: with the number of distinct gene sequences it adds up to the
    population size, and it is 0 exactly when all sequences differ. *)
Theorem X1_countDuplicates_unique (population : list Chromosome) :
  Operators.countDuplicates population + uniqueRouteCount population = length population /\
  (Operators.countDuplicates population = 0 <-> NoDup (map genes population)).
Proof.
  pose proof (OperatorsFacts.countDuplicates_plus_unique population) as H.
  split; [exact H |]. unfold uniqueRouteCount in H. split.
  - intros H0. rewrite H0 in H. simpl in H.
    apply NoDup_incl_NoDup with (l := nodup (list_eq_dec Nat.eq_dec) (map genes population)).
    + apply NoDup_nodup.
    + rewrite length_map. lia.
    + intros x Hx. rewrite nodup_In in Hx. exact Hx.
  - intros Hnd. rewrite nodup_fixed_point in H by exact Hnd. rewrite length_map in H. lia.
Qed.

(** [calculateDiversity] (unique.ts) of an empty population is [NaN];
    otherwise it lies in (0, 1] and is 1 exactly when [countDuplicates]
    finds no duplicate. *)
Theorem X2_calculateDiversity_range :
  GAJGHO.calculateDiversity [] = None /\
  (forall population, population <> [] ->
     exists d, GAJGHO.calculateDiversity population = Some d /\ (0 < d <= 1)%Q /\
               (d == 1 <-> Operators.countDuplicates population = 0%nat)%Q).
Proof.
  split; [reflexivity |].
  intros pop Hne.
  pose proof (OperatorsFacts.countDuplicates_plus_unique pop) as H.
  pose proof (OperatorsFacts.uniqueRouteCount_pos pop Hne) as Hpos.
  unfold GAJGHO.calculateDiversity, divideByCount.
  destruct (length pop) as [|n] eqn:HL; [destruct pop; [congruence | discriminate] |].
  simpl Nat.eqb. eexists. split; [reflexivity |]. split; [split |].
  - unfold Qlt, Qdiv, Qinv, Qmult; simpl. lia.
  - unfold Qle, Qdiv, Qinv, Qmult; simpl. lia.
  - unfold Qeq, Qdiv, Qinv, Qmult; simpl. lia.
Qed.

Lemma X2_calculateDiversity_range_witness :
  exists d, GAJGHO.calculateDiversity [mkChromosome [0; 1] 2 2; mkChromosome [0; 1] 2 2] = Some d /\
            (0 < d <= 1)%Q.
Proof.
  destruct (proj2 X2_calculateDiversity_range
              [mkChromosome [0; 1] 2 2; mkChromosome [0; 1] 2 2] ltac:(discriminate))
    as [d [E [R _]]].
  exists d. split; [exact E | exact R].
Defined.

(** [GAJGHO.shouldStop()] answers true exactly when the population is
    non-empty and fewer than 1% of its tours are distinct; so it never
    stops a population of at most 100 tours. *)
Theorem X3_shouldStop_threshold (st : GAJGHO.State) :
  (Operators.shouldStop st = true <->
     GAJGHO.currentPopulation st <> [] /\
     100 * uniqueRouteCount (GAJGHO.currentPopulation st) < length (GAJGHO.currentPopulation st)) /\
  (length (GAJGHO.currentPopulation st) <= 100 -> Operators.shouldStop st = false).
Proof.
  assert (Key : Operators.shouldStop st = true <->
     GAJGHO.currentPopulation st <> [] /\
     100 * uniqueRouteCount (GAJGHO.currentPopulation st) < length (GAJGHO.currentPopulation st)).
  { unfold Operators.shouldStop, GAJGHO.getPopulation, GAJGHO.calculateDiversity, divideByCount.
    simpl Population.diversity.
    destruct (length (GAJGHO.currentPopulation st)) as [|n] eqn:HL.
    - simpl. destruct (20 <? GAJGHO.generation st); split; try discriminate; intros [H1 H2]; lia.
    - simpl Nat.eqb. cbv iota beta.
      destruct (Qle_bool (1 # 100) _) eqn:E; simpl.
      + apply Qle_bool_iff in E. unfold Qle, Qdiv, Qinv, Qmult in E; simpl in E.
        destruct (20 <? GAJGHO.generation st); split; try discriminate; intros [_ H2]; lia.
      + split; [intros _ | reflexivity]. split.
        * intros E'. rewrite E' in HL. discriminate.
        * apply Bool.not_true_iff_false in E. rewrite Qle_bool_iff in E.
          apply Qnot_le_lt in E. unfold Qlt, Qdiv, Qinv, Qmult in E; simpl in E. lia. }
  split; [exact Key |].
  intros Hle. apply Bool.not_true_iff_false. intros E.
  apply Key in E as [Hne Hlt].
  pose proof (OperatorsFacts.uniqueRouteCount_pos _ Hne). lia.
Qed.

Lemma X3_shouldStop_threshold_witness :
  Operators.shouldStop
    (GAJGHO.mkState 2 (fun _ _ => 1%Z) (mkAlgorithmParams 2 1)
       [mkChromosome [0; 1] 2 2; mkChromosome [0; 1] 2 2] 5) = false.
Proof.
  apply (proj2 (X3_shouldStop_threshold
                  (GAJGHO.mkState 2 (fun _ _ => 1%Z) (mkAlgorithmParams 2 1)
                     [mkChromosome [0; 1] 2 2; mkChromosome [0; 1] 2 2] 5))).
  simpl. lia.
Defined.



(** [calculateLinearFitness] (selection.ts) gives one value per tour, each
    in (0, 1]; on a non-empty population their sum is positive, so the
    roulette wheel spins on them. *)
Theorem X5_calculateLinearFitness_range (population : list Chromosome) :
  length (Operators.calculateLinearFitness population) = length population /\
  (forall v, In v (Operators.calculateLinearFitness population) -> (0 < v <= 1)%Q) /\
  (population <> [] -> (0 < Selection.totalOf (Operators.calculateLinearFitness population))%Q).
Proof.
  assert (Hv : forall v, In v (Operators.calculateLinearFitness population) -> (0 < v <= 1)%Q).
  { intros v Hv. unfold Operators.calculateLinearFitness in Hv.
    apply OperatorsFacts2.fitness_values_rank in Hv as [r [Hr ->]].
    destruct (length population) as [|n]; [lia |].
    split; unfold Qlt, Qle, Qdiv, Qinv, Qmult; cbn -[Z.sub Z.mul]; lia. }
  assert (HL : length (Operators.calculateLinearFitness population) = length population)
    by (unfold Operators.calculateLinearFitness; apply length_map).
  split; [exact HL | split; [exact Hv |]].
  intros Hne. apply OperatorsFacts2.totalOf_pos.
  - intros E. rewrite E in HL. destruct population; [congruence | discriminate].
  - intros v H. apply Hv. exact H.
Qed.

Lemma X5_calculateLinearFitness_range_witness :
  Qlt 0 (Selection.totalOf (Operators.calculateLinearFitness
         [mkChromosome [0; 1] 2 2; mkChromosome [1; 0] 3 3])).
Proof.
  apply (proj2 (proj2 (X5_calculateLinearFitness_range
                        [mkChromosome [0; 1] 2 2; mkChromosome [1; 0] 3 3]))).
  discriminate.
Defined.



(** [rouletteWheelSelect] (selection.ts) on a non-empty population and a
    draw in [0, 1) returns a member of the population, whatever the
    fitness values; on an empty population it returns [undefined]. *)
Theorem X7_rouletteWheelSelect_member (population : list Chromosome) (fitnessValues : list Q) (r : Q) :
  (population <> [] -> (0 <= r < 1)%Q ->
     exists c, Selection.rouletteWheelSelect population fitnessValues r = Some c /\ In c population) /\
  Selection.rouletteWheelSelect [] fitnessValues r = None.
Proof.
  split; [| apply OperatorsFacts.rouletteWheelSelect_empty].
  intros Hne Hr.
  destruct (OperatorsFacts.rouletteWheelSelect_member population fitnessValues r Hne Hr) as [i [Hi ->]].
  destruct (nth_error population i) as [c|] eqn:E.
  - exists c. split; [reflexivity | exact (nth_error_In _ _ E)].
  - apply nth_error_None in E. lia.
Qed.

Lemma X7_rouletteWheelSelect_member_witness :
  exists c, Selection.rouletteWheelSelect [mkChromosome [0; 1] 2 2] [] (1 # 2) = Some c /\
            In c [mkChromosome [0; 1] 2 2].
Proof.
  apply (proj1 (X7_rouletteWheelSelect_member [mkChromosome [0; 1] 2 2] [] (1 # 2)));
    [discriminate | split; vm_compute; [discriminate | reflexivity]].
Defined.

(** [selectParents] (selection.ts) returns [count] selections; on a
    non-empty population with the wheel draws in [0, 1) each is a member of
    the population, and on an empty population each is [undefined]. *)
Theorem X8_selectParents_members (population : list Chromosome) (count : nat) (Pfit beta : Q)
        (draws : nat -> nat -> Q) :
  length (Operators.selectParents population count Pfit beta draws) = count /\
  (population <> [] -> (forall i, i < count -> Qle 0 (draws i 1) /\ Qlt (draws i 1) 1) ->
     forall o, In o (Operators.selectParents population count Pfit beta draws) ->
     exists c, o = Some c /\ In c population) /\
  (population = [] ->
     forall o, In o (Operators.selectParents population count Pfit beta draws) -> o = None).
Proof.
  unfold Operators.selectParents. split; [rewrite length_map, length_seq; reflexivity | split].
  - intros Hne Hd o Ho. apply in_map_iff in Ho as [i [<- Hi]].
    apply in_seq in Hi. unfold Operators.rouletteSelection.
    destruct (proj1 (X7_rouletteWheelSelect_member population
                       (if Qle_bool (draws i 0) Pfit then Operators.calculateLinearFitness population
                        else Operators.calculateNonLinearFitness population beta) (draws i 1))
                    Hne (Hd i ltac:(lia))) as [c [E Hc]].
    exists c. split; [exact E | exact Hc].
  - intros -> o Ho. apply in_map_iff in Ho as [i [<- _]].
    apply OperatorsFacts.rouletteWheelSelect_empty.
Qed.

Lemma X8_selectParents_members_witness :
  Forall (fun o => exists c, o = Some c /\ In c [mkChromosome [0; 1] 2 2; mkChromosome [1; 0] 3 3])
    (Operators.selectParents [mkChromosome [0; 1] 2 2; mkChromosome [1; 0] 3 3] 3 (1 # 2) (1 # 5)
       (fun _ _ => 1 # 2)).
Proof.
  apply Forall_forall.
  apply (proj1 (proj2 (X8_selectParents_members
           [mkChromosome [0; 1] 2 2; mkChromosome [1; 0] 3 3] 3 (1 # 2) (1 # 5) (fun _ _ => 1 # 2))));
    [discriminate | intros i _; split; vm_compute; [discriminate | reflexivity]].
Defined.

(** [swapMutation] (jumpingGene.ts) stops only when some draw of [pos2]
    differs from [pos1]: on a tour of at most one city it never returns.
    When it returns, it has exchanged two different in-range positions:
    the tour is a permutation of the input, different from it when the
    cities are distinct, with [fitness] and [distance] reset to 0. *)
Theorem X9_swapMutation_swaps (fuel : nat) (chromosome : Chromosome) (draw : nat -> Q) :
  (forall k, (0 <= draw k < 1)%Q) ->
  (Mutation.swapMutation fuel chromosome draw = None <->
     forall j, 1 <= j <= fuel ->
       Z.to_nat (floor_mul (draw j) (length (genes chromosome))) =
       Z.to_nat (floor_mul (draw 0) (length (genes chromosome)))) /\
  (length (genes chromosome) <= 1 -> Mutation.swapMutation fuel chromosome draw = None) /\
  (forall c, Mutation.swapMutation fuel chromosome draw = Some c ->
     exists p1 p2, p1 <> p2 /\ p1 < length (genes chromosome) /\ p2 < length (genes chromosome) /\
       genes c = Initialization.swap (genes chromosome) p1 p2 /\
       Permutation (genes c) (genes chromosome) /\ fitness c = 0%Z /\ distance c = 0%Z /\
       (NoDup (genes chromosome) -> genes c <> genes chromosome)).
Proof.
  intros Hd.
  assert (Iff : Mutation.swapMutation fuel chromosome draw = None <->
                Mutation.swapRedraw fuel (length (genes chromosome))
                  (Z.to_nat (floor_mul (draw 0) (length (genes chromosome)))) draw 1 = None).
  { unfold Mutation.swapMutation. destruct (Mutation.swapRedraw _ _ _ _ _); split; congruence. }
  assert (P1 : Mutation.swapMutation fuel chromosome draw = None <->
     forall j, 1 <= j <= fuel ->
       Z.to_nat (floor_mul (draw j) (length (genes chromosome))) =
       Z.to_nat (floor_mul (draw 0) (length (genes chromosome)))).
  { rewrite Iff, MutationFacts.swapRedraw_none_iff. split; intros H j Hj; apply H; lia. }
  split; [exact P1 | split].
  - intros Hn. apply P1. intros j _.
    destruct (length (genes chromosome)) as [|[|n]]; [| | lia].
    + rewrite !MutationFacts.floor_mul_zero. reflexivity.
    + pose proof (MutationFacts.floor_pos_lt (draw j) 1 (Hd j) ltac:(lia)).
      pose proof (MutationFacts.floor_pos_lt (draw 0) 1 (Hd 0) ltac:(lia)). lia.
  - intros c. unfold Mutation.swapMutation.
    destruct (Mutation.swapRedraw _ _ _ _ _) as [p2|] eqn:E; [| discriminate].
    intros H. injection H as <-.
    apply MutationFacts.swapRedraw_some in E as [Hne [j [_ Ej]]].
    destruct (length (genes chromosome)) as [|n] eqn:Hn.
    + rewrite Ej, !MutationFacts.floor_mul_zero in Hne. simpl in Hne. lia.
    + pose proof (MutationFacts.floor_pos_lt (draw 0) (S n) (Hd 0) ltac:(lia)) as L1.
      pose proof (MutationFacts.floor_pos_lt (draw j) (S n) (Hd j) ltac:(lia)) as L2.
      rewrite <- Ej in L2.
      exists (Z.to_nat (floor_mul (draw 0) (S n))), p2. simpl genes.
      split; [lia | split; [exact L1 | split; [exact L2 | split; [reflexivity |]]]].
      split; [apply MutationFacts.swap_perm2; rewrite Hn; assumption |].
      split; [reflexivity | split; [reflexivity |]].
      intros Hnd. apply MutationFacts.swap_changes; [exact Hnd | rewrite Hn; exact L1 |
                                                     rewrite Hn; exact L2 | lia].
Qed.

Lemma X9_swapMutation_swaps_witness :
  exists c, Mutation.swapMutation 3 (mkChromosome [0; 1; 2] 5 5)
              (fun k => if Nat.eqb k 0 then 0%Q else 1 # 2) = Some c /\
            Permutation (genes c) [0; 1; 2] /\ genes c <> [0; 1; 2].
Proof.
  exists (mkChromosome [1; 0; 2] 0 0). split; [vm_compute; reflexivity |].
  destruct (proj2 (proj2 (X9_swapMutation_swaps 3 (mkChromosome [0; 1; 2] 5 5)
                            (fun k => if Nat.eqb k 0 then 0%Q else 1 # 2)
                            ltac:(intros [|k]; split; vm_compute; try discriminate; reflexivity)))
              (mkChromosome [1; 0; 2] 0 0) ltac:(vm_compute; reflexivity))
    as [p1 [p2 [_ [_ [_ [_ [Hp [_ [_ Hne]]]]]]]]].
  split; [exact Hp |]. apply Hne.
  constructor; [simpl; intros [H|[H|[]]]; discriminate |].
  constructor; [simpl; intros [H|[]]; discriminate |].
  constructor; [intros [] | constructor].
Defined.



(** [heuristicMutation] (jumpingGene.ts) always returns a permutation of
    its tour, with [fitness] and [distance] reset to 0.  When the loop
    finds no candidate, which is always the case on a tour of at most three
    cities, the tour is unchanged; when it finds [nearestCity], that city
    ends up right after [city1]. *)
Theorem X11_heuristicMutation_moves (dm : DistanceMatrix) (chromosome : Chromosome) (draw : Q) :
  let gs := genes chromosome in
  let pos1 := Z.to_nat (floor_mul draw (length gs)) in
  let city1 := nth pos1 gs 0 in
  Permutation (genes (Mutation.heuristicMutation dm chromosome draw)) gs /\
  fitness (Mutation.heuristicMutation dm chromosome draw) = 0%Z /\
  distance (Mutation.heuristicMutation dm chromosome draw) = 0%Z /\
  (Mutation.heuristicNearest dm gs pos1 = None ->
     genes (Mutation.heuristicMutation dm chromosome draw) = gs) /\
  ((0 <= draw < 1)%Q -> forall c, Mutation.heuristicNearest dm gs pos1 = Some c ->
     c <> city1 /\
     exists A B, genes (Mutation.heuristicMutation dm chromosome draw) = A ++ city1 :: c :: B) /\
  ((0 <= draw < 1)%Q -> length gs <= 3 ->
     genes (Mutation.heuristicMutation dm chromosome draw) = gs).
Proof.
  cbv zeta.
  assert (NoneCase : Mutation.heuristicNearest dm (genes chromosome)
                       (Z.to_nat (floor_mul draw (length (genes chromosome)))) = None ->
                     genes (Mutation.heuristicMutation dm chromosome draw) = genes chromosome).
  { intros E. unfold Mutation.heuristicMutation. rewrite E. reflexivity. }
  split; [apply MutationFacts.heuristicMutation_perm |].
  split; [reflexivity | split; [reflexivity | split; [exact NoneCase | split]]].
  - intros Hr c E.
    destruct (proj2 (MutationFacts.heuristicNearest_spec _ _ _) c E) as [i [Hi [Ei [Ec _]]]].
    apply MutationFacts.heurEligible_true in Ei as [Ne _]. rewrite Ec in Ne.
    split; [exact Ne |].
    assert (Hn : 0 < length (genes chromosome)) by lia.
    pose proof (MutationFacts.floor_pos_lt draw _ Hr Hn) as Hp.
    unfold Mutation.heuristicMutation. rewrite E. simpl genes.
    apply (MutationFacts.move_after (genes chromosome) _ c).
    + rewrite <- Ec. apply nth_In. exact Hi.
    + apply nth_In. exact Hp.
    + exact Ne.
  - intros Hr Hn3. apply NoneCase.
    apply (proj1 (MutationFacts.heuristicNearest_spec _ _ _)).
    intros i Hi. apply MutationFacts2.heurEligible_false.
    assert (Hp : Z.to_nat (floor_mul draw (length (genes chromosome)))
                 < length (genes chromosome))
      by (apply MutationFacts.floor_pos_lt; [exact Hr | lia]).
    destruct (MutationFacts2.small_cover _ _ i Hn3 Hp Hi) as [->|H]; [left; reflexivity | right; exact H].
Qed.

Lemma X11_heuristicMutation_moves_witness :
  genes (Mutation.heuristicMutation (fun a b => Z.of_nat (a + b)) (mkChromosome [2; 0; 1] 4 4) (1 # 2))
  = [2; 0; 1].
Proof.
  apply (proj2 (proj2 (proj2 (proj2 (proj2
           (X11_heuristicMutation_moves (fun a b => Z.of_nat (a + b)) (mkChromosome [2; 0; 1] 4 4)
              (1 # 2))))))).
  - split; vm_compute; [discriminate | reflexivity].
  - simpl. lia.
Defined.

(** The loop of [heuristicMutation] finds no city exactly when every
    position holds [city1] or is the predecessor or successor position of
    [pos1]; otherwise [nearestCity] is the city of such an eligible
    position, at minimal distance from [city1] among all eligible
    positions. *)
Theorem X12_heuristicNearest_min (dm : DistanceMatrix) (gs : list nat) (pos1 : nat) :
  let n := length gs in
  let city1 := nth pos1 gs 0 in
  (Mutation.heuristicNearest dm gs pos1 = None <->
     forall i, i < n -> nth i gs 0 = city1 \/ i = (pos1 + n - 1) mod n \/ i = (pos1 + 1) mod n) /\
  (forall c, Mutation.heuristicNearest dm gs pos1 = Some c ->
     exists i, i < n /\ nth i gs 0 = c /\ c <> city1 /\
       i <> (pos1 + n - 1) mod n /\ i <> (pos1 + 1) mod n /\
       forall j, j < n -> nth j gs 0 <> city1 ->
         j <> (pos1 + n - 1) mod n -> j <> (pos1 + 1) mod n ->
         Z.le (dm city1 c) (dm city1 (nth j gs 0))).
Proof.
  cbv zeta. destruct (MutationFacts.heuristicNearest_spec dm gs pos1) as [S1 S2]. split.
  - rewrite S1. split; intros H i Hi; apply MutationFacts2.heurEligible_false, H, Hi.
  - intros c E. destruct (S2 c E) as [i [Hi [Ei [Ec Hmin]]]].
    apply MutationFacts.heurEligible_true in Ei as [E1 [E2 E3]].
    exists i. split; [exact Hi | split; [exact Ec | split; [congruence | split; [exact E2 | split; [exact E3 |]]]]].
    intros j Hj N1 N2 N3. apply Hmin; [exact Hj |]. apply MutationFacts.heurEligible_true. tauto.
Qed.

(** [calculateFitnessForChromosomes] (jumpingGene.ts) keeps every tour;
    a chromosome of [fitness] 0 gets the cyclic tour length as both
    [fitness] and [distance], any other is returned as it is; applying it
    twice gives the same result as once. *)
Theorem X13_calculateFitnessForChromosomes_recalc (chromosomes : list Chromosome) (dm : DistanceMatrix) :
  Forall2 (fun i o => genes o = genes i /\
             (fitness i = 0%Z -> fitness o = calculateDistanceWithMatrix (genes i) dm /\
                                 distance o = fitness o) /\
             (fitness i <> 0%Z -> o = i))
          chromosomes (Mutation.calculateFitnessForChromosomes chromosomes dm) /\
  Mutation.calculateFitnessForChromosomes (Mutation.calculateFitnessForChromosomes chromosomes dm) dm
  = Mutation.calculateFitnessForChromosomes chromosomes dm.
Proof.
  split; [apply MutationFacts.calculateFitnessForChromosomes_spec |].
  rewrite !MutationFacts2.calculateFitnessForChromosomes_eq, map_map. apply map_ext. intros c.
  destruct (Z.eqb_spec (fitness c) 0) as [E|E].
  - simpl. destruct (Z.eqb (calculateDistanceWithMatrix (genes c) dm) 0); reflexivity.
  - apply Z.eqb_neq in E. rewrite E. reflexivity.
Qed.

(** [performMutation] (jumpingGene.ts), when every mutation returns, gives
    one chromosome per input: a permutation of the input's tour whose
    [fitness] and [distance] both equal the cyclic tour length. *)
Theorem X14_performMutation_tours (fuel : nat) (chromosomes : list Chromosome) (Ps beta : Q)
        (dm : DistanceMatrix) (draws : nat -> nat -> Q) (out : list Chromosome) :
  (forall k j, (0 <= draws k j < 1)%Q) ->
  Mutation.performMutation fuel chromosomes Ps beta dm draws = Some out ->
  Forall2 (fun i o => Permutation (genes o) (genes i) /\
                      fitness o = calculateDistanceWithMatrix (genes o) dm /\
                      distance o = fitness o) chromosomes out.
Proof.
  intros Hd H. unfold Mutation.performMutation in H.
  destruct (Mutation.mutateFrom _ _ _ _ _ _ _) as [ms|] eqn:E; [| discriminate].
  injection H as <-.
  pose proof (MutationFacts.mutateFrom_spec _ _ _ _ _ _ _ _ Hd E) as H1.
  pose proof (MutationFacts.calculateFitnessForChromosomes_spec ms dm) as H2.
  eapply Forall2_impl; [| exact (MutationFacts2.Forall2_compose _ _ _ _ _ H1 H2)].
  intros i o [m [[Hp Hf] [Hg [Hz _]]]]. destruct (Hz Hf) as [E1 E2].
  rewrite Hg. split; [exact Hp | split; [exact E1 | exact E2]].
Qed.

Lemma X14_performMutation_tours_witness :
  Forall2 (fun i o => Permutation (genes o) (genes i) /\
                      fitness o = calculateDistanceWithMatrix (genes o) (fun _ _ => 1%Z) /\
                      distance o = fitness o)
    [mkChromosome [0; 1; 2] 5 5] [mkChromosome [1; 0; 2] 3 3].
Proof.
  apply (X14_performMutation_tours 3 [mkChromosome [0; 1; 2] 5 5] 1 0 (fun _ _ => 1%Z)
           (fun _ j => if Nat.leb j 1 then 0%Q else 1 # 2)).
  - intros k [|[|j]]; split; vm_compute; try discriminate; reflexivity.
  - vm_compute. reflexivity.
Defined.

(** [calculateFitnessAfterJumping] after [applyJumpingGeneToPopulation]
    (jumpingGene.ts), on tours without repeated cities, gives one
    chromosome per input whose tour is a permutation of the input's; each
    is the input itself or has [fitness] and [distance] equal to its cyclic
    tour length. *)
Theorem X15_jumpingGene_population (population : list Chromosome) (PJG : Q) (q : Z)
        (rApply : nat -> Q) (rMask : nat -> nat -> Q) (rInsert : nat -> Q) (dm : DistanceMatrix) :
  Forall (fun c => NoDup (genes c)) population ->
  Forall2 (fun i o => Permutation (genes o) (genes i) /\
                      (o = i \/ (fitness o = calculateDistanceWithMatrix (genes o) dm /\
                                 distance o = fitness o)))
    population
    (Mutation.calculateFitnessAfterJumping
       (Mutation.applyJumpingGeneToPopulation population PJG q rApply rMask rInsert) dm).
Proof.
  unfold Mutation.applyJumpingGeneToPopulation. generalize 0.
  induction population as [|c t IH]; intros k Hnd; cbn [Mutation.applyJumpingGeneFrom]; [constructor |].
  inversion Hnd as [|c' t' Hc Ht]; subst.
  rewrite MutationFacts2.calculateFitnessAfterJumping_cons. constructor; [| apply IH; exact Ht].
  pose proof (JumpingGeneFacts.jumpingGene_perm c PJG q (rApply k) (rMask k) (rInsert k) Hc) as Hp.
  destruct (MutationFacts.jumpingGene_cases c PJG q (rApply k) (rMask k) (rInsert k)) as [E|E].
  - rewrite E in Hp |- *. destruct (Z.eqb (fitness c) 0).
    + simpl. split; [reflexivity | right; split; reflexivity].
    + split; [reflexivity | left; reflexivity].
  - rewrite E. simpl. split; [exact Hp | right; split; reflexivity].
Qed.

Lemma X15_jumpingGene_population_witness :
  Forall2 (fun i o => Permutation (genes o) (genes i) /\
                      (o = i \/ (fitness o = calculateDistanceWithMatrix (genes o) (fun _ _ => 1%Z) /\
                                 distance o = fitness o)))
    [mkChromosome [0; 1] 2 2]
    (Mutation.calculateFitnessAfterJumping
       (Mutation.applyJumpingGeneToPopulation [mkChromosome [0; 1] 2 2] (1 # 2) 1
          (fun _ => 0%Q) (fun _ _ => 0%Q) (fun _ => 0%Q)) (fun _ _ => 1%Z)).
Proof.
  apply X15_jumpingGene_population.
  constructor; [| constructor].
  constructor; [simpl; intros [H|[]]; discriminate |].
  constructor; [intros [] | constructor].
Defined.

(** X16: [twoOptSinglePass] returns a rearrangement of its tour whose
    [fitness] and [distance] are its cyclic length; it leaves the tour as it
    is when no pair improves, and for symmetric distances its result is no
    longer than the input and than every single reversal the loops try, and
    strictly shorter when some pair improves. *)
Theorem X16_twoOptSinglePass_best (chromosome : Chromosome) (dm : DistanceMatrix) :
  let gs := genes chromosome in
  let n := length gs in
  let out := TwoOptMore.twoOptSinglePass chromosome dm in
  Permutation (genes out) gs /\
  fitness out = calculateDistanceWithMatrix (genes out) dm /\
  distance out = fitness out /\
  ((forall i j, i < j < n -> Z.le (TwoOpt.currentDist dm n gs i j) (TwoOpt.newDist dm n gs i j)) ->
   genes out = gs) /\
  ((forall a b, dm a b = dm b a) ->
   Z.le (distance out) (calculateDistanceWithMatrix gs dm) /\
   (forall i j, i < j < n ->
      Z.le (distance out) (calculateDistanceWithMatrix (TwoOpt.reverseSegment gs i j) dm)) /\
   ((exists i j, i < j < n /\ Z.lt (TwoOpt.newDist dm n gs i j) (TwoOpt.currentDist dm n gs i j)) ->
    Z.lt (distance out) (calculateDistanceWithMatrix gs dm))).
Proof.
  cbv zeta.
  pose proof (TwoOptMoreFacts.singlePass_cases chromosome dm) as (Hf & Hd & Hc). cbv zeta in Hc.
  unfold TwoOptMoreFacts.impr in Hc.
  split; [apply TwoOptMoreFacts.singlePass_perm |].
  split; [exact Hf | split; [exact Hd |]].
  rewrite Hd, Hf. split.
  - intros Hno. destruct Hc as [(_ & Hg) | (i0 & j0 & Hij & Hp & _ & _)]; [exact Hg |].
    specialize (Hno i0 j0 Hij). lia.
  - intros Hsym.
    destruct Hc as [(Hm & Hg) | (i0 & j0 & Hij & Hp & Hg & Hm)].
    + rewrite Hg. split; [lia | split].
      * intros i j Hij. rewrite (TwoOptFacts.reverseSegment_cyc dm Hsym _ _ _ Hij).
        specialize (Hm i j Hij). lia.
      * intros (i & j & Hij & Hlt). specialize (Hm i j Hij). lia.
    + rewrite Hg, (TwoOptFacts.reverseSegment_cyc dm Hsym _ _ _ Hij). split; [lia | split].
      * intros i j Hij'. rewrite (TwoOptFacts.reverseSegment_cyc dm Hsym _ _ _ Hij').
        specialize (Hm i j Hij'). lia.
      * intros _. lia.
Qed.


Lemma X16_twoOptSinglePass_best_witness :
  (forall a b, line_dm a b = line_dm b a) /\
  (exists i j, i < j < 4 /\
     Z.lt (TwoOpt.newDist line_dm 4 [0; 2; 1; 3] i j) (TwoOpt.currentDist line_dm 4 [0; 2; 1; 3] i j)) /\
  Z.lt (distance (TwoOptMore.twoOptSinglePass (mkChromosome [0; 2; 1; 3] 0 0) line_dm))
       (calculateDistanceWithMatrix [0; 2; 1; 3] line_dm) /\
  genes (TwoOptMore.twoOptSinglePass (mkChromosome [0; 2; 1; 3] 0 0) line_dm) = [0; 1; 2; 3].
Proof.
  assert (Hs : forall a b, line_dm a b = line_dm b a) by (intros a b; unfold line_dm; lia).
  assert (He : exists i j, i < j < 4 /\
     Z.lt (TwoOpt.newDist line_dm 4 [0; 2; 1; 3] i j) (TwoOpt.currentDist line_dm 4 [0; 2; 1; 3] i j)).
  { exists 0, 2. split; [lia | vm_compute; reflexivity]. }
  split; [exact Hs | split; [exact He | split]].
  - apply (X16_twoOptSinglePass_best (mkChromosome [0; 2; 1; 3] 0 0) line_dm); exact Hs || exact He.
  - vm_compute. reflexivity.
Defined.

(** X17: when every [twoOptOperator] call returns, [applyTwoOptToPopulation]
    returns one tour for each member: with [applyToAll] the 2-opt result of
    each member in order; otherwise the population sorted by distance, whose
    first [topN] members are replaced by their 2-opt results and the others
    kept as they are.  Each result is a rearrangement of the tour it
    replaces. *)
Theorem X17_applyTwoOptToPopulation_shape (fuel : nat) (population : list Chromosome)
        (dm : DistanceMatrix) (applyToAll : bool) (topN : nat) (out : list Chromosome) :
  TwoOptMore.applyTwoOptToPopulation fuel population dm applyToAll topN = Some out ->
  length out = length population /\
  Forall2 (fun c o => Permutation (genes o) (genes c))
          (if applyToAll then population else sortByDistance population) out /\
  (applyToAll = true ->
   Forall2 (fun c o => TwoOpt.twoOptOperator fuel c dm = Some o) population out) /\
  (applyToAll = false ->
   Forall2 (fun c o => TwoOpt.twoOptOperator fuel c dm = Some o)
           (firstn topN (sortByDistance population)) (firstn topN out) /\
   skipn topN out = skipn topN (sortByDistance population)).
Proof.
  unfold TwoOptMore.applyTwoOptToPopulation. destruct applyToAll; intros H.
  - apply TwoOptMoreFacts.allSome_Forall2, TwoOptMoreFacts.Forall2_map_l in H.
    split; [symmetry; exact (Forall2_length H) |].
    split; [| split; [intros _ | discriminate]].
    + eapply Forall2_impl; [| exact H]. intros c o Ho. cbv beta in Ho.
      exact (TwoOptMoreFacts.twoOptOperator_perm fuel c o dm Ho).
    + eapply Forall2_impl; [| exact H]. intros c o Ho. exact Ho.
  - apply TwoOptMoreFacts.allSome_Forall2, TwoOptMoreFacts.Forall2_map_l in H.
    set (sorted := sortByDistance population) in *.
    assert (Hls : length sorted = length population) by apply GAJGHOFacts.sort_length.
    apply (TwoOptMoreFacts.Forall2_nth_seq _ (length population) out 0) in H as [Hl Hn].
    cbv beta in Hn.
    assert (Hs : forall i, i < length population ->
              (i < topN -> TwoOpt.twoOptOperator fuel (nth i sorted (mkChromosome [] 0 0)) dm
                           = Some (nth i out (mkChromosome [] 0 0))) /\
              (topN <= i -> nth i out (mkChromosome [] 0 0) = nth i sorted (mkChromosome [] 0 0))).
    { intros i Hi. specialize (Hn i (mkChromosome [] 0 0) Hi). cbn [Nat.add] in Hn.
      destruct (Nat.ltb i topN) eqn:E.
      - apply Nat.ltb_lt in E. split; [intros _; exact Hn | lia].
      - apply Nat.ltb_ge in E. split; [lia | intros _; injection Hn as ->; reflexivity]. }
    split; [exact Hl | split; [| split; [discriminate | intros _; split]]].
    + apply (TwoOptMoreFacts.Forall2_of_nth _ _ _ (mkChromosome [] 0 0) (mkChromosome [] 0 0));
        [lia |]. intros i Hi.
      destruct (Nat.lt_ge_cases i topN) as [Ht | Ht].
      * apply TwoOptMoreFacts.twoOptOperator_perm with (fuel := fuel) (dm := dm).
        apply (proj1 (Hs i ltac:(lia))), Ht.
      * rewrite (proj2 (Hs i ltac:(lia)) Ht). reflexivity.
    + apply (TwoOptMoreFacts.Forall2_of_nth _ _ _ (mkChromosome [] 0 0) (mkChromosome [] 0 0));
        [rewrite !length_firstn; lia |]. intros i Hi.
      rewrite length_firstn in Hi.
      rewrite !nth_firstn. replace (i <? topN) with true by (symmetry; apply Nat.ltb_lt; lia).
      apply (proj1 (Hs i ltac:(lia))). lia.
    + apply (nth_ext _ _ (mkChromosome [] 0 0) (mkChromosome [] 0 0)).
      * rewrite !length_skipn. lia.
      * intros i Hi. rewrite length_skipn in Hi. rewrite !nth_skipn.
        apply (proj2 (Hs (topN + i) ltac:(lia))). lia.
Qed.

Lemma X17_applyTwoOptToPopulation_shape_witness :
  exists out,
    TwoOptMore.applyTwoOptToPopulation 5 [mkChromosome [0; 2; 1; 3] 8 8; mkChromosome [0; 1; 2; 3] 6 6]
      line_dm false 1 = Some out /\
    length out = 2 /\
    skipn 1 out = [mkChromosome [0; 2; 1; 3] 8 8].
Proof.
  exists [mkChromosome [0; 1; 2; 3] 6 6; mkChromosome [0; 2; 1; 3] 8 8].
  assert (H : TwoOptMore.applyTwoOptToPopulation 5 [mkChromosome [0; 2; 1; 3] 8 8; mkChromosome [0; 1; 2; 3] 6 6]
      line_dm false 1 = Some [mkChromosome [0; 1; 2; 3] 6 6; mkChromosome [0; 2; 1; 3] 8 8])
    by (vm_compute; reflexivity).
  pose proof (X17_applyTwoOptToPopulation_shape _ _ _ _ _ _ H) as (Hl & _ & _ & Hf).
  split; [exact H | split; [exact Hl |]].
  destruct (Hf eq_refl) as [_ Hs]. rewrite Hs. reflexivity.
Defined.

(** X18: [performCrossover] with no parents returns no offspring when its
    target count is 0 and throws a [TypeError] otherwise; from parents that
    are all tours of [0..n-1] ([n >= 1]) and start draws in [0, 1), it
    returns exactly [offspringCount || parents.length] offspring, each a
    tour of [0..n-1]. *)
Theorem X18_performCrossover_offspring (parents : list Chromosome) (dm : DistanceMatrix)
        (offspringCount : option nat) (rDir rStart : nat -> Q) (n : nat) :
  let tc := CrossoverMore.targetCount parents offspringCount in
  (parents = [] ->
   (tc = 0 -> CrossoverMore.performCrossover parents dm offspringCount rDir rStart = Ok []) /\
   (0 < tc -> CrossoverMore.performCrossover parents dm offspringCount rDir rStart = Throw TypeError)) /\
  (parents <> [] -> Forall (fun p => Permutation (genes p) (seq 0 n)) parents -> 1 <= n ->
   (forall k, Qle 0 (rStart k) /\ Qlt (rStart k) 1) ->
   exists l, CrossoverMore.performCrossover parents dm offspringCount rDir rStart = Ok l /\
             length l = tc /\ Forall (fun c => Permutation (genes c) (seq 0 n)) l).
Proof.
  cbv zeta. unfold CrossoverMore.performCrossover. split.
  - intros ->. split.
    + intros Ht. rewrite Ht. reflexivity.
    + intros Ht. destruct (CrossoverMore.targetCount [] offspringCount) as [| t]; [lia |].
      cbn [CrossoverMore.crossoverLoop]. replace (Nat.ltb 0 (S t)) with true by reflexivity.
      reflexivity.
  - intros Hne Hp Hn Hr.
    destruct (CrossoverMoreFacts.crossoverLoop_ok parents dm n
                (CrossoverMore.targetCount parents offspringCount) rDir rStart Hp Hne Hn Hr
                (CrossoverMore.targetCount parents offspringCount) 0 [])
      as (l & El & Hl & Hf); [reflexivity | constructor | lia |].
    rewrite El. exists l. rewrite <- Hl, firstn_all. split; [reflexivity | split; [reflexivity | exact Hf]].
Qed.

Lemma X18_performCrossover_offspring_witness :
  CrossoverMore.performCrossover [] line_dm (Some 2) (fun _ => 0%Q) (fun _ => 0%Q) = Throw TypeError /\
  exists l,
    CrossoverMore.performCrossover [mkChromosome [0; 1; 2] 0 0; mkChromosome [2; 1; 0] 0 0] line_dm
      (Some 3) (fun _ => 0%Q) (fun _ => 0%Q) = Ok l /\
    length l = 3 /\ Forall (fun c => Permutation (genes c) (seq 0 3)) l.
Proof.
  split.
  - apply (proj2 (proj1 (X18_performCrossover_offspring [] line_dm (Some 2)
                     (fun _ => 0%Q) (fun _ => 0%Q) 3) eq_refl)).
    cbn. lia.
  - apply (proj2 (X18_performCrossover_offspring _ line_dm (Some 3) (fun _ => 0%Q) (fun _ => 0%Q) 3)).
    + discriminate.
    + repeat constructor. cbn [genes seq]. apply Permutation_rev.
    + lia.
    + intros _. split; [apply Qle_lteq; right; reflexivity | reflexivity].
Defined.

(** X19: [createGreedyChromosome] returns [[startCityId]] when there are
    at most one city, whatever the start; it throws a [TypeError] for a
    start outside [0..n-1] when [n >= 2]; from a start in [0..n-1] it
    returns a tour of [0..n-1] that begins at the start and in which each
    city is one nearest to its predecessor among the cities not yet
    placed. *)
Theorem X19_createGreedyChromosome_tour (fuel : nat) (dm : DistanceMatrix) (n s : nat) :
  (n <= 1 -> 1 <= fuel -> Seeds.createGreedyChromosome fuel dm n s = Some (Ok [s])) /\
  (2 <= n -> n <= s -> 1 <= fuel ->
   Seeds.createGreedyChromosome fuel dm n s = Some (Throw TypeError)) /\
  (s < n -> n <= fuel ->
   exists g, Seeds.createGreedyChromosome fuel dm n s = Some (Ok g) /\
     Permutation g (seq 0 n) /\ nth 0 g 0 = s /\
     forall m j, S m < length g -> j < n -> ~ In j (firstn (S m) g) ->
       Z.le (dm (nth m g 0) (nth (S m) g 0)) (dm (nth m g 0) j)).
Proof.
  split; [| split].
  - intros Hn Hf. destruct fuel as [| f]; [lia |].
    unfold Seeds.createGreedyChromosome. cbn [Seeds.greedyLoop length].
    replace (Nat.ltb 1 n) with false by (symmetry; apply Nat.ltb_ge; exact Hn). reflexivity.
  - intros Hn Hs Hf. destruct fuel as [| f]; [lia |].
    unfold Seeds.createGreedyChromosome. cbn [Seeds.greedyLoop length].
    replace (Nat.ltb 1 n) with true by (symmetry; apply Nat.ltb_lt; lia).
    destruct n as [| n']; [lia |]. cbn [seq Seeds.greedyScan].
    replace (mem 0 [s]) with false
      by (unfold mem; cbn [existsb]; destruct s; [lia | reflexivity]).
    replace (Nat.ltb s (S n')) with false by (symmetry; apply Nat.ltb_ge; exact Hs).
    reflexivity.
  - intros Hs Hf. destruct (SeedsFacts.createGreedy_ok dm n fuel s Hs Hf) as (g & Eg & Hp & Hnn & Hh).
    exists g. split; [exact Eg | split; [exact Hp | split; [exact Hh | exact Hnn]]].
Qed.

Lemma X19_createGreedyChromosome_tour_witness :
  Seeds.createGreedyChromosome 3 line_dm 0 5 = Some (Ok [5]) /\
  Seeds.createGreedyChromosome 3 line_dm 3 7 = Some (Throw TypeError) /\
  exists g, Seeds.createGreedyChromosome 3 line_dm 3 1 = Some (Ok g) /\
     Permutation g (seq 0 3) /\ nth 0 g 0 = 1 /\
     forall m j, S m < length g -> j < 3 -> ~ In j (firstn (S m) g) ->
       Z.le (line_dm (nth m g 0) (nth (S m) g 0)) (line_dm (nth m g 0) j).
Proof.
  split; [| split].
  - apply (proj1 (X19_createGreedyChromosome_tour 3 line_dm 0 5)); lia.
  - apply (proj1 (proj2 (X19_createGreedyChromosome_tour 3 line_dm 3 7))); lia.
  - apply (proj2 (proj2 (X19_createGreedyChromosome_tour 3 line_dm 3 1))); lia.
Defined.



(** X21: [apply3Opt] returns a rearrangement of the solution's tour whose
    [fitness] and [distance] are its cyclic length, never longer than the
    solution's tour, and strictly shorter when one of the 3-opt tours it
    tries first is shorter. *)
Theorem X21_apply3Opt_improves (dm : DistanceMatrix) (solution : Chromosome) :
  let out := PACO3Opt.apply3Opt dm solution in
  Permutation (genes out) (genes solution) /\
  fitness out = calculateDistanceWithMatrix (genes out) dm /\
  distance out = fitness out /\
  Z.le (distance out) (calculateDistanceWithMatrix (genes solution) dm) /\
  (forall t, In t (PACO3Opt.threeOptCandidates (genes solution)) ->
   Z.lt (calculateDistanceWithMatrix t dm) (calculateDistanceWithMatrix (genes solution) dm) ->
   Z.lt (distance out) (calculateDistanceWithMatrix (genes solution) dm)).
Proof.
  cbv zeta. unfold PACO3Opt.apply3Opt. cbn [genes fitness distance].
  destruct (PACO3OptFacts.threeOptRounds_spec dm 10 (genes solution)) as (Hp & Hle & Hlt).
  split; [exact Hp | split; [reflexivity | split; [reflexivity | split; [exact Hle |]]]].
  intros t Ht Htl. apply Hlt; [lia |]. unfold PACO3Opt.firstImprovement. intros E.
  pose proof (find_none _ _ E t Ht) as F. cbv beta in F. apply Z.ltb_ge in F. lia.
Qed.

Lemma X21_apply3Opt_improves_witness :
  In [0; 1; 2; 3] (PACO3Opt.threeOptCandidates [0; 2; 1; 3]) /\
  Z.lt (distance (PACO3Opt.apply3Opt line_dm (mkChromosome [0; 2; 1; 3] 8 8)))
       (calculateDistanceWithMatrix [0; 2; 1; 3] line_dm).
Proof.
  assert (Hin : In [0; 1; 2; 3] (PACO3Opt.threeOptCandidates [0; 2; 1; 3]))
    by (vm_compute; repeat (first [left; reflexivity | right])).
  split; [exact Hin |].
  apply (X21_apply3Opt_improves line_dm (mkChromosome [0; 2; 1; 3] 8 8)) with (t := [0; 1; 2; 3]).
  - exact Hin.
  - vm_compute. reflexivity.
Defined.

(** X22: [constructSolutionACO] throws a [TypeError] when there is no city;
    otherwise, with a first draw in [0, 1), it returns a tour of
    [0..n-1] starting at the city [Math.floor(r * n)] the draw picks, with
    [fitness] and [distance] its cyclic length, whatever the pheromones. *)
Theorem X22_constructSolutionACO_tour (s : PACO3Opt.State) (draws : nat -> Q) :
  let n := PACO3Opt.cityCount s in
  (n = 0 -> PACO3Opt.constructSolutionACO s draws = Throw TypeError) /\
  (0 < n -> Qle 0 (draws 0) -> Qlt (draws 0) 1 ->
   exists c, PACO3Opt.constructSolutionACO s draws = Ok c /\
     Permutation (genes c) (seq 0 n) /\
     nth 0 (genes c) 0 = Z.to_nat (floor_mul (draws 0) n) /\
     distance c = calculateDistanceWithMatrix (genes c) (PACO3Opt.distanceMatrix s) /\
     fitness c = distance c).
Proof.
  cbv zeta. unfold PACO3Opt.constructSolutionACO. cbv zeta. split.
  - intros H. rewrite H. reflexivity.
  - intros Hn H0 H1.
    replace (Nat.eqb (PACO3Opt.cityCount s) 0) with false by (symmetry; apply Nat.eqb_neq; lia).
    set (n := PACO3Opt.cityCount s) in *.
    set (cur := Z.to_nat (floor_mul (draws 0) n)).
    assert (Hc : cur < n) by (apply MutationFacts.floor_pos_lt; [split; assumption | exact Hn]).
    assert (Hin : In cur (seq 0 n)) by (apply in_seq; lia).
    apply in_split in Hin as (A & B & EAB).
    assert (Er : remove Nat.eq_dec cur (seq 0 n) = A ++ B)
      by (rewrite EAB; apply PACO3OptFacts.remove_split; rewrite <- EAB; apply seq_NoDup).
    rewrite Er.
    destruct (PACO3OptFacts.buildTour_spec (PACO3Opt.pheromoneMatrix s) (PACO3Opt.distanceMatrix s)
                draws (length (A ++ B)) cur (A ++ B) [cur] 1) as (rest & E & Hp).
    + pose proof (seq_NoDup n 0) as Hd. rewrite EAB in Hd. exact (NoDup_remove_1 _ _ _ Hd).
    + lia.
    + rewrite E. eexists. split; [reflexivity |]. cbn [genes distance fitness].
      split; [| split; [reflexivity | split; reflexivity]].
      rewrite EAB. cbn [app]. rewrite Hp. apply Permutation_middle.
Qed.

Lemma X22_constructSolutionACO_tour_witness :
  PACO3Opt.constructSolutionACO (PACO3Opt.create 0 line_dm (mkAlgorithmParams 2 1)) (fun _ => 0%Q)
    = Throw TypeError /\
  exists c, PACO3Opt.constructSolutionACO (PACO3Opt.create 4 line_dm (mkAlgorithmParams 2 1))
              (fun k => (1 # 2)%Q) = Ok c /\
     Permutation (genes c) (seq 0 4) /\ nth 0 (genes c) 0 = 2 /\
     distance c = calculateDistanceWithMatrix (genes c) line_dm /\ fitness c = distance c.
Proof.
  split.
  - apply (proj1 (X22_constructSolutionACO_tour (PACO3Opt.create 0 line_dm (mkAlgorithmParams 2 1))
                    (fun _ => 0%Q))). reflexivity.
  - apply (proj2 (X22_constructSolutionACO_tour (PACO3Opt.create 4 line_dm (mkAlgorithmParams 2 1))
                    (fun k => (1 # 2)%Q))).
    + cbn. lia.
    + unfold Qle. simpl. lia.
    + unfold Qlt. simpl. lia.
Defined.

(** X23: on a non-empty colony, [calculateFitnessProbabilities] gives one
    probability per food source, each in (0, 1], summing to 1, and a
    source at least as short as another gets at least its probability. *)
Theorem X23_calculateFitnessProbabilities_distribution (fs : list Chromosome) :
  fs <> [] ->
  let probs := ABCTSP.calculateFitnessProbabilities fs in
  length probs = length fs /\
  (forall p, In p probs -> Qlt 0 p /\ Qle p 1) /\
  Qeq (fold_left Qplus probs 0%Q) 1 /\
  (forall i j, i < length fs -> j < length fs ->
   Z.le (distance (nth i fs ABCTSP.dummyChromosome)) (distance (nth j fs ABCTSP.dummyChromosome)) ->
   Qle (nth j probs 0%Q) (nth i probs 0%Q)).
Proof.
  intros Hne. cbv zeta. unfold ABCTSP.calculateFitnessProbabilities. cbv zeta.
  set (M := fold_left Z.max (map distance fs) (hd 0%Z (map distance fs))).
  assert (HM : forall c, In c fs -> (distance c <= M)%Z).
  { intros c Hc. apply ABCTSPFacts2.fold_max_ge. apply in_map, Hc. }
  set (fits := map (fun s => (M - distance s + 1)%Z) fs).
  assert (Hf1 : forall x, In x fits -> (1 <= x)%Z).
  { intros x Hx. apply in_map_iff in Hx as (c & <- & Hc). specialize (HM c Hc). lia. }
  destruct (ABCTSPFacts2.fold_zadd_lower fits Hf1) as [HT1 HT2].
  set (T := fold_left Z.add fits 0%Z) in *.
  assert (Hlen : length fits = length fs) by apply length_map.
  assert (Hfs : 0 < length fs) by (destruct fs; [congruence | simpl; lia]).
  assert (HTpos : (1 <= T)%Z) by lia.
  assert (HTq : Qlt 0 (inject_Z T)) by (change (Qlt (inject_Z 0) (inject_Z T)); rewrite <- Zlt_Qlt; lia).
  assert (HTnz : ~ (inject_Z T == 0)%Q) by (intros E; rewrite E in HTq; discriminate).
  split; [rewrite length_map; exact Hlen | split; [| split]].
  - intros p Hp. apply in_map_iff in Hp as (x & <- & Hx).
    pose proof (Hf1 x Hx) as Hx1. pose proof (HT2 x Hx) as HxT. split.
    + apply Qlt_shift_div_l; [exact HTq |]. rewrite Qmult_0_l. change (Qlt (inject_Z 0) (inject_Z x)). rewrite <- Zlt_Qlt. lia.
    + apply Qle_shift_div_r; [exact HTq |]. rewrite Qmult_1_l. rewrite <- Zle_Qle. lia.
  - rewrite ABCTSPFacts2.fold_qplus_div by exact HTnz.
    replace (fold_left Z.add fits 0%Z) with T by reflexivity. field. exact HTnz.
  - intros i j Hi Hj Hd.
    assert (Hn : forall k, k < length fs ->
              nth k (map (fun f => (inject_Z f / inject_Z T)%Q) fits) 0%Q =
              (inject_Z (M - distance (nth k fs ABCTSP.dummyChromosome) + 1) / inject_Z T)%Q).
    { intros k Hk.
      assert (NM : forall (A B : Type) (g : A -> B) (l : list A) d d' k,
                 k < length l -> nth k (map g l) d = g (nth k l d')).
      { intros A B g l d d' k' Hk'. rewrite (nth_indep _ d (g d')) by (rewrite length_map; exact Hk').
        apply map_nth. }
      rewrite (NM _ _ _ _ _ 0%Z) by (rewrite Hlen; exact Hk). unfold fits.
      rewrite (NM _ _ _ _ _ ABCTSP.dummyChromosome) by exact Hk. reflexivity. }
    rewrite !Hn by assumption. unfold Qdiv. apply Qmult_le_compat_r.
    + rewrite <- Zle_Qle. lia.
    + apply Qinv_le_0_compat, Qlt_le_weak, HTq.
Qed.

Lemma X23_calculateFitnessProbabilities_distribution_witness :
  Qeq (fold_left Qplus (ABCTSP.calculateFitnessProbabilities
                          [mkChromosome [0; 1] 3 3; mkChromosome [1; 0] 5 5]) 0%Q) 1.
Proof.
  apply (X23_calculateFitnessProbabilities_distribution
           [mkChromosome [0; 1] 3 3; mkChromosome [1; 0] 5 5]).
  discriminate.
Defined.

(** X24: on a non-empty tour, with its second and third draws in [0, 1),
    [generateNeighborSolution] returns a rearrangement of the tour with
    [fitness] and [distance] its cyclic length, consumes three draws and
    leaves the food sources and trials as they are; on an empty tour the
    swap branch (first draw below 0.5) throws a [TypeError]. *)
Theorem X24_generateNeighborSolution_perm (source : Chromosome) (s : ABCTSP.State) :
  let n := length (genes source) in
  (0 < n -> Qle 0 (ABCTSP.random s 1) -> Qlt (ABCTSP.random s 1) 1 ->
   Qle 0 (ABCTSP.random s 2) -> Qlt (ABCTSP.random s 2) 1 ->
   exists c s', ABCTSP.generateNeighborSolution source s = ABCTSP.Normal (c, s') /\
     Permutation (genes c) (genes source) /\
     distance c = calculateDistanceWithMatrix (genes c) (ABCTSP.distanceMatrix s) /\
     fitness c = distance c /\
     ABCTSP.foodSources s' = ABCTSP.foodSources s /\ ABCTSP.trials s' = ABCTSP.trials s /\
     (forall k, ABCTSP.random s' k = ABCTSP.random s (3 + k))) /\
  (n = 0 -> Qlt (ABCTSP.random s 0) (1 # 2) ->
   exists s', ABCTSP.generateNeighborSolution source s = ABCTSP.Exception TypeError s').
Proof.
  cbv zeta.
  unfold ABCTSP.generateNeighborSolution, ABCTSP.bind, ABCTSP.mathRandom, ABCTSP.ret,
    ABCTSP.getState, ABCTSP.throw.
  cbn [ABCTSP.random ABCTSP.distanceMatrix].
  set (n := length (genes source)).
  set (i := Z.to_nat (floor_mul (ABCTSP.random s 1) n)).
  set (j := Z.to_nat (floor_mul (ABCTSP.random s 2) n)).
  split.
  - intros Hn H1a H1b H2a H2b.
    assert (Hi : i < n) by (apply MutationFacts.floor_pos_lt; [split; assumption | exact Hn]).
    assert (Hj : j < n) by (apply MutationFacts.floor_pos_lt; [split; assumption | exact Hn]).
    destruct (negb (Qle_bool (1 # 2) (ABCTSP.random s 0))).
    + replace (n =? 0) with false by (symmetry; apply Nat.eqb_neq; lia).
      eexists _, _. split; [reflexivity |]. cbn [genes distance fitness].
      split; [apply MutationFacts.swap_perm2; assumption |].
      split; [reflexivity | split; [reflexivity |]].
      cbn [ABCTSP.foodSources ABCTSP.trials ABCTSP.random].
      split; [reflexivity | split; [reflexivity | intros k; reflexivity]].
    + eexists _, _. split; [reflexivity |]. cbn [genes distance fitness].
      split; [apply ABCTSPFacts2.reverse_range_perm; lia |].
      split; [reflexivity | split; [reflexivity |]].
      cbn [ABCTSP.foodSources ABCTSP.trials ABCTSP.random].
      split; [reflexivity | split; [reflexivity | intros k; reflexivity]].
  - intros Hn Hr.
    replace (negb (Qle_bool (1 # 2) (ABCTSP.random s 0))) with true.
    + replace (n =? 0) with true by (symmetry; apply Nat.eqb_eq; exact Hn).
      eexists. reflexivity.
    + symmetry. apply negb_true_iff. apply Bool.not_true_iff_false. rewrite Qle_bool_iff.
      intros H. apply (Qlt_not_le _ _ Hr H).
Qed.

Lemma X24_generateNeighborSolution_perm_witness :
  (exists c s',
     ABCTSP.generateNeighborSolution (mkChromosome [0; 1; 2] 0 0)
       (ABCTSP.create 3 line_dm (mkAlgorithmParams 2 1) (fun _ => 0%Q)) = ABCTSP.Normal (c, s') /\
     Permutation (genes c) [0; 1; 2]) /\
  exists s',
    ABCTSP.generateNeighborSolution (mkChromosome [] 0 0)
      (ABCTSP.create 3 line_dm (mkAlgorithmParams 2 1) (fun _ => 0%Q)) = ABCTSP.Exception TypeError s'.
Proof.
  split.
  - destruct (proj1 (X24_generateNeighborSolution_perm (mkChromosome [0; 1; 2] 0 0)
                       (ABCTSP.create 3 line_dm (mkAlgorithmParams 2 1) (fun _ => 0%Q))))
      as (c & s' & E & P & _).
    + cbn. lia.
    + apply Qle_refl.
    + reflexivity.
    + apply Qle_refl.
    + reflexivity.
    + exists c, s'. split; [exact E | exact P].
  - apply (proj2 (X24_generateNeighborSolution_perm (mkChromosome [] 0 0)
                    (ABCTSP.create 3 line_dm (mkAlgorithmParams 2 1) (fun _ => 0%Q)))).
    + reflexivity.
    + reflexivity.
Defined.

(** X25: [selection()] (StandardGA.ts) only returns members of the
    population; on an empty population it returns no chromosome, and on a
    non-empty one with draws in [0, 1) it returns exactly
    [params.populationSize] of them. *)
Theorem X25_selection_members (s : StandardGA.State) (draws : nat -> Q) :
  (forall c, In c (StandardGAOps.selection s draws) -> In c (StandardGA.population s)) /\
  (StandardGA.population s = [] -> StandardGAOps.selection s draws = []) /\
  (StandardGA.population s <> [] -> (forall i, (0 <= draws i < 1)%Q) ->
   length (StandardGAOps.selection s draws) = populationSize (StandardGA.params s)).
Proof.
  unfold StandardGAOps.selection. cbv zeta. split; [| split].
  - intros c Hc. apply in_flat_map in Hc as [i [_ Hi]].
    destruct (StandardGAOps.spinLoop _ _ _ _) eqn:E; [| destruct Hi].
    destruct Hi as [<- | []]. exact (StandardGAOpsFacts.spinLoop_In _ _ _ _ _ E).
  - intros Hp. rewrite Hp. simpl map.
    induction (seq 0 (populationSize (StandardGA.params s))) as [| i l IH]; [reflexivity |].
    exact IH.
  - intros Hne Hd.
    set (pop := StandardGA.population s) in *.
    set (maxD := fold_left Z.max (map distance pop) (hd 0%Z (map distance pop))).
    set (fits := map (fun c => (maxD - distance c + 1)%Z) pop).
    assert (Hf : forall x, In x fits -> (1 <= x)%Z).
    { intros x Hx. unfold fits in Hx. apply in_map_iff in Hx as [c [<- Hc]].
      pose proof (proj2 (ABCTSPFacts2.fold_max_ge (map distance pop) (hd 0%Z (map distance pop)))
                        (distance c) (in_map distance pop c Hc)). fold maxD in H. lia. }
    assert (HT : (1 <= fold_left Z.add fits 0)%Z).
    { pose proof (proj1 (ABCTSPFacts2.fold_zadd_lower fits Hf)) as H.
      assert (Hfl : length fits = length pop) by (unfold fits; apply length_map).
      assert (Hlen : length pop <> 0) by (intros E; apply Hne, length_zero_iff_nil, E). lia. }
    assert (Hsome : forall i, exists c,
      StandardGAOps.spinLoop (draws i * inject_Z (fold_left Z.add fits 0%Z))%Q 0%Q pop fits = Some c).
    { intros i. apply StandardGAOpsFacts.spinLoop_some; [unfold fits; rewrite length_map; reflexivity | exact Hne |].
      destruct (Hd i) as [H0 H1].
      assert (HT0 : (0 <= inject_Z (fold_left Z.add fits 0%Z))%Q)
        by (change (inject_Z 0 <= inject_Z (fold_left Z.add fits 0%Z))%Q; rewrite <- Zle_Qle; lia).
      apply Qle_trans with (1 * inject_Z (fold_left Z.add fits 0%Z))%Q.
      + apply Qmult_le_compat_r; [apply Qlt_le_weak, H1 | exact HT0].
      + apply Qle_lteq. right. ring. }
    rewrite <- (length_seq (populationSize (StandardGA.params s)) 0) at 2.
    induction (seq 0 (populationSize (StandardGA.params s))) as [| i l IH]; [reflexivity |].
    cbn [flat_map]. destruct (Hsome i) as [c E]. rewrite E. simpl. f_equal. exact IH.
Qed.

Lemma X25_selection_members_witness :
  StandardGAOps.selection
    (StandardGA.mkState 2 line_dm (mkAlgorithmParams 3 1) [] 0 []) (fun _ => 1 # 2) = [] /\
  length (StandardGAOps.selection
            (StandardGA.mkState 2 line_dm (mkAlgorithmParams 3 1)
               [mkChromosome [0; 1] 2 2; mkChromosome [1; 0] 3 3] 0 []) (fun _ => 1 # 2)) = 3.
Proof.
  split.
  - apply (proj1 (proj2 (X25_selection_members
      (StandardGA.mkState 2 line_dm (mkAlgorithmParams 3 1) [] 0 []) (fun _ => 1 # 2)))).
    reflexivity.
  - apply (proj2 (proj2 (X25_selection_members
      (StandardGA.mkState 2 line_dm (mkAlgorithmParams 3 1)
         [mkChromosome [0; 1] 2 2; mkChromosome [1; 0] 3 3] 0 []) (fun _ => 1 # 2)))).
    + discriminate.
    + intros _. unfold Qle, Qlt. simpl. lia.
Defined.

(** X26: [mutation()] (StandardGA.ts) keeps the tour when its first draw is
    at least 0.2; below 0.2 it exchanges the genes at two in-range
    positions, so the tour stays a rearrangement of the input, and on an
    empty tour it throws a [TypeError].  A returned chromosome has
    [fitness] and [distance] equal to its cyclic length. *)
Theorem X26_mutation_swap (s : StandardGA.State) (chromosome : Chromosome) (draws : nat -> Q) :
  let gs := genes chromosome in
  let d g := calculateDistanceWithMatrix g (StandardGA.distanceMatrix s) in
  (Qle (1 # 5) (draws 0) ->
   StandardGAOps.mutation s chromosome draws = Ok (mkChromosome gs (d gs) (d gs))) /\
  (Qlt (draws 0) (1 # 5) -> gs = [] -> StandardGAOps.mutation s chromosome draws = Throw TypeError) /\
  (Qlt (draws 0) (1 # 5) -> gs <> [] -> (0 <= draws 1%nat < 1)%Q -> (0 <= draws 2%nat < 1)%Q ->
   exists i j, i < length gs /\ j < length gs /\
     let gs' := Initialization.swap gs i j in
     StandardGAOps.mutation s chromosome draws = Ok (mkChromosome gs' (d gs') (d gs')) /\
     Permutation gs' gs /\
     nth i gs' 0 = nth j gs 0 /\ nth j gs' 0 = nth i gs 0 /\
     (forall k, k <> i -> k <> j -> nth k gs' 0 = nth k gs 0)).
Proof.
  cbv zeta. unfold StandardGAOps.mutation. split; [| split].
  - intros H. assert (E : Qle_bool (1 # 5) (draws 0) = true) by (apply Qle_bool_iff; exact H).
    rewrite E. reflexivity.
  - intros H Hg. assert (E : Qle_bool (1 # 5) (draws 0) = false).
    { apply not_true_is_false. intros E. apply Qle_bool_iff in E. exact (Qlt_not_le _ _ H E). }
    rewrite E, Hg. reflexivity.
  - intros H Hne H1 H2. assert (E : Qle_bool (1 # 5) (draws 0) = false).
    { apply not_true_is_false. intros E. apply Qle_bool_iff in E. exact (Qlt_not_le _ _ H E). }
    rewrite E. simpl negb. cbv iota.
    assert (Hn : 0 < length (genes chromosome)) by (destruct (genes chromosome); [congruence | simpl; lia]).
    destruct (Nat.eqb_spec (length (genes chromosome)) 0) as [| _]; [lia |].
    pose proof (MutationFacts.floor_pos_lt (draws 1) _ H1 Hn) as Hi.
    pose proof (MutationFacts.floor_pos_lt (draws 2) _ H2 Hn) as Hj.
    eexists; eexists. split; [exact Hi | split; [exact Hj |]].
    split; [reflexivity |].
    split; [apply MutationFacts.swap_perm2; assumption |].
    rewrite !MutationFacts.swap_nth by assumption.
    split; [| split].
    + destruct (Nat.eqb_spec (Z.to_nat (floor_mul (draws 1) (length (genes chromosome))))
                             (Z.to_nat (floor_mul (draws 2) (length (genes chromosome))))) as [Ee | _];
        [rewrite Ee; reflexivity | rewrite Nat.eqb_refl; reflexivity].
    + rewrite Nat.eqb_refl. reflexivity.
    + intros k Hki Hkj. rewrite MutationFacts.swap_nth by assumption.
      apply Nat.eqb_neq in Hki, Hkj. rewrite Hki, Hkj. reflexivity.
Qed.

Lemma X26_mutation_swap_witness :
  StandardGAOps.mutation (StandardGA.mkState 5 line_dm (mkAlgorithmParams 3 1) [] 0 [])
    (mkChromosome [] 0 0) (fun _ => 1 # 10) = Throw TypeError /\
  exists i j, i < 5 /\ j < 5 /\ Permutation (Initialization.swap [0; 1; 2; 3; 4] i j) [0; 1; 2; 3; 4].
Proof.
  split.
  - apply (proj1 (proj2 (X26_mutation_swap (StandardGA.mkState 5 line_dm (mkAlgorithmParams 3 1) [] 0 [])
             (mkChromosome [] 0 0) (fun _ => 1 # 10)))).
    + unfold Qlt. simpl. lia.
    + reflexivity.
  - destruct (proj2 (proj2 (X26_mutation_swap (StandardGA.mkState 5 line_dm (mkAlgorithmParams 3 1) [] 0 [])
             (mkChromosome [0; 1; 2; 3; 4] 0 0) (fun _ => 1 # 10))))
      as [i [j [Hi [Hj [_ [Hp _]]]]]].
    + unfold Qlt. simpl. lia.
    + discriminate.
    + unfold Qle, Qlt. simpl. lia.
    + unfold Qle, Qlt. simpl. lia.
    + exists i, j. simpl in Hi, Hj. split; [exact Hi | split; [exact Hj | exact Hp]].
Defined.

(** X27: [crossover()] (StandardGA.ts) throws a [TypeError] when [parent1]
    has no genes.  When both parents are tours of [0..n-1] ([n >= 1]) and
    its two draws lie in [0, 1), its [while] loop ends within [n + 1]
    rounds and it returns a tour of [0..n-1] that keeps [parent1]'s genes
    on [start..end]; read cyclically from position [end + 1], its other
    genes are [parent2]'s genes outside that segment, in the order met
    reading [parent2] cyclically from position [end + 1].  Its [fitness]
    and [distance] are its cyclic length. *)
Theorem X27_crossover_order (s : StandardGA.State) (parent1 parent2 : Chromosome)
        (draws : nat -> Q) (fuel : nat) :
  (genes parent1 = [] ->
   StandardGAOps.crossover s parent1 parent2 draws fuel = Some (Throw TypeError)) /\
  (forall n, 1 <= n -> Permutation (genes parent1) (seq 0 n) -> Permutation (genes parent2) (seq 0 n) ->
   (0 <= draws 0%nat < 1)%Q -> (0 <= draws 1%nat < 1)%Q -> n < fuel ->
   let point1 := Z.to_nat (floor_mul (draws 0) n) in
   let point2 := Z.to_nat (floor_mul (draws 1) n) in
   let start := Nat.min point1 point2 in
   let end_ := Nat.max point1 point2 in
   let segment := map (fun i => nth i (genes parent1) 0) (seq start (end_ - start + 1)) in
   exists c, StandardGAOps.crossover s parent1 parent2 draws fuel = Some (Ok c) /\
     Permutation (genes c) (seq 0 n) /\
     (forall i, start <= i <= end_ -> nth i (genes c) 0 = nth i (genes parent1) 0) /\
     map (fun m => nth ((end_ + 1 + m) mod n) (genes c) 0) (seq 0 (n - (end_ - start + 1))) =
       filter (fun g => negb (mem g segment))
              (map (fun m => nth ((end_ + 1 + m) mod n) (genes parent2) 0) (seq 0 n)) /\
     fitness c = calculateDistanceWithMatrix (genes c) (StandardGA.distanceMatrix s) /\
     distance c = fitness c).
Proof.
  split.
  - intros H. unfold StandardGAOps.crossover. rewrite H. reflexivity.
  - intros n Hn H1 H2 Hd0 Hd1 Hf. cbv zeta.
    assert (Hl : length (genes parent1) = n) by (rewrite (Permutation_length H1), length_seq; reflexivity).
    pose proof (MutationFacts.floor_pos_lt (draws 0) n Hd0 ltac:(lia)) as P1.
    pose proof (MutationFacts.floor_pos_lt (draws 1) n Hd1 ltac:(lia)) as P2.
    unfold StandardGAOps.crossover. cbv zeta. rewrite Hl.
    destruct (Nat.eqb_spec n 0) as [| _]; [lia |].
    erewrite StandardGAOpsFacts.fill_result by (first [eassumption | lia]).
    erewrite StandardGAOpsFacts.cellsOf_Qn by (first [eassumption | lia]).
    eexists. split; [reflexivity |]. cbn [genes fitness distance].
    split; [eapply StandardGAOpsFacts.oxGenes_perm; first [eassumption | lia] |].
    split; [intros i Hi; eapply StandardGAOpsFacts.oxGenes_segment; first [eassumption | lia] |].
    split; [| split; reflexivity].
    eapply eq_trans; [eapply StandardGAOpsFacts.oxGenes_free; first [eassumption | lia] |].
    reflexivity.
Qed.

Lemma X27_crossover_order_witness :
  StandardGAOps.crossover (StandardGA.mkState 5 line_dm (mkAlgorithmParams 3 1) [] 0 [])
    (mkChromosome [] 0 0) (mkChromosome [0; 1] 0 0) (fun _ => 1 # 2) 10 = Some (Throw TypeError) /\
  exists c,
    StandardGAOps.crossover (StandardGA.mkState 5 line_dm (mkAlgorithmParams 3 1) [] 0 [])
      (mkChromosome [0; 1; 2; 3; 4] 0 0) (mkChromosome [4; 3; 2; 1; 0] 0 0)
      (fun k => match k with 0 => 1 # 5 | _ => 3 # 5 end) 10 = Some (Ok c) /\
    Permutation (genes c) (seq 0 5).
Proof.
  split.
  - apply (proj1 (X27_crossover_order (StandardGA.mkState 5 line_dm (mkAlgorithmParams 3 1) [] 0 [])
      (mkChromosome [] 0 0) (mkChromosome [0; 1] 0 0) (fun _ => 1 # 2) 10)).
    reflexivity.
  - destruct (proj2 (X27_crossover_order (StandardGA.mkState 5 line_dm (mkAlgorithmParams 3 1) [] 0 [])
      (mkChromosome [0; 1; 2; 3; 4] 0 0) (mkChromosome [4; 3; 2; 1; 0] 0 0)
      (fun k => match k with 0 => 1 # 5 | _ => 3 # 5 end) 10) 5) as [c [E [P _]]].
    + lia.
    + apply Permutation_refl.
    + apply (Permutation_sym (Permutation_rev [0; 1; 2; 3; 4])).
    + unfold Qle, Qlt. simpl. lia.
    + unfold Qle, Qlt. simpl. lia.
    + lia.
    + exists c. split; [exact E | exact P].
Defined.


